(** * Trainer run loop of torch4keras: a shallow embedding

    The definitions below follow [torch4keras/trainer.py], class [Trainer].
    Python integers are [Z], floating point scalars (losses, the gradient
    scale, learning rates) are idealised as rationals [Q], dictionaries are
    association lists in insertion order.  Methods of [Trainer] are
    computations in a small state-and-exception monad over the record [St],
    which holds the attributes of the trainer object together with the part
    of the outside world it touches: the log of callback dispatches, the log
    of calls made to the optimizer, scaler, scheduler and module, and the
    step-parameter files written by [torch.save]. *)

From Stdlib Require Import ZArith List String Bool Lia QArith Sorted.
From Stdlib Require Import DecimalString DecimalNat.
Import ListNotations.

Local Open Scope string_scope.
Local Open Scope list_scope.
Local Open Scope Z_scope.

(** ** Python values *)

(** The builtin exception classes the modelled code can raise.  All of them
    derive from [Exception], so [except Exception] catches each one. *)
Inductive exn : Type :=
| AssertionError | ValueError | TypeError | KeyError | IndexError
| StopIteration | ZeroDivisionError | AttributeError | UnboundLocalError
| FileNotFoundError | OSError.

Inductive Result (A : Type) : Type :=
| Ok (a : A)
| Raise (e : exn).
Arguments Ok {A} a.
Arguments Raise {A} e.

(** Truthiness of a Python int, as in [if self.verbose:]. *)
Definition truthy (z : Z) : bool := negb (z =? 0).

(** [range(a, b)] *)
Definition range (a b : Z) : list Z :=
  map (fun i => a + Z.of_nat i) (seq 0 (Z.to_nat (b - a))).

(** *** Dictionaries with string keys, in insertion order *)
Section Dict.
Context {V : Type}.

Fixpoint dict_get (k : string) (d : list (string * V)) : option V :=
  match d with
  | [] => None
  | (k', v) :: d' => if String.eqb k k' then Some v else dict_get k d'
  end.

(** [del d[k]] / [d.pop(k)] *)
Definition dict_del (k : string) (d : list (string * V)) : list (string * V) :=
  filter (fun kv => negb (String.eqb k (fst kv))) d.

(** [d[k] = v]: an existing key keeps its position, a new one goes last. *)
Fixpoint dict_set (k : string) (v : V) (d : list (string * V)) : list (string * V) :=
  match d with
  | [] => [(k, v)]
  | (k', v') :: d' =>
      if String.eqb k k' then (k, v) :: d' else (k', v') :: dict_set k v d'
  end.

(** [d.update(e)] *)
Definition dict_update (d e : list (string * V)) : list (string * V) :=
  fold_left (fun acc kv => dict_set (fst kv) (snd kv) acc) e d.
End Dict.

(** A scalar handed around by the criterion: a tensor or a plain number. *)
Inductive Value : Type :=
| VTensor (q : Q)
| VNum (q : Q).

(** [v.item() if isinstance(v, torch.Tensor) else v] *)
Definition item (v : Value) : Q :=
  match v with VTensor q => q | VNum q => q end.

(** [v / a] keeps the kind of [v]. *)
Definition value_div (v : Value) (a : Z) : Value :=
  match v with
  | VTensor q => VTensor (q / inject_Z a)
  | VNum q => VNum (q / inject_Z a)
  end.

(** What [self.criterion(output, train_y)] may hand back. [RSeq] stands for
    both tuple and list, [ROther] for any other Python object. *)
Inductive CriterionResult : Type :=
| RTensor (q : Q)
| RDict (d : list (string * Value))
| RSeq (l : list Value)
| ROther.

(** A batch [(train_X, train_y)]; tensors are opaque, a batch is known by a tag. *)
Definition Batch : Type := nat.

Definition Logs : Type := list (string * Q).

(** ** Callbacks and their dispatch log *)

Inductive Hook : Type :=
| on_train_begin | on_train_end
| on_epoch_begin | on_epoch_end
| on_batch_begin | on_batch_end
| on_train_step_end | on_dataloader_end.

(** One dispatch: the hook, the trainer's counters at that moment (these are
    also the positional arguments the hook receives) and the log record. *)
Record Obs : Type := mkObs {
  hook : Hook;
  o_global_step : Z;
  o_local_step : Z;
  o_epoch : Z;
  o_logs : Logs
}.

Inductive CallbackKind : Type :=
| SmoothMetricsCallback | KerasProgbar | TqdmProgbar | ProgressBar2Progbar
| History | UserCallback.

(** Modelled from the spec: the class [Callback] of [torch4keras.callbacks]
    is not part of the sources at hand.  Per the specification a callback
    implements any subset of the hooks, unimplemented hooks do nothing, and
    [stop_training] is the attribute of the trainer callbacks write.  A
    callback is taken here by what its hooks write to [stop_training], as a
    function of the dispatches so far (the current one last); hooks are
    taken to return. *)
Record Callback : Type := mkCallback {
  cb_kind : CallbackKind;
  cb_name : string;
  cb_interval : option Z;
  cb_hook : list Obs -> option bool
}.

Definition is_smooth (c : Callback) : bool :=
  match cb_kind c with SmoothMetricsCallback => true | _ => false end.

(** Modelled from the spec: the class [CallbackList] of [torch4keras.callbacks]
    is not part of the sources at hand.  Per the specification it is an ordered
    dispatch list, notified strictly in registration order, with a global flag
    that disables dispatch without removing the registered callbacks. *)
Record CallbackList : Type := mkCallbackList {
  cl_callbacks : list Callback;
  cl_run_callbacks : bool
}.

(** Modelled from the spec: the callbacks a dispatch reaches, in order. *)
Definition dispatch_order (cl : CallbackList) : list Callback :=
  if cl_run_callbacks cl then cl_callbacks cl else [].

(** ** Collaborators *)

Inductive MixedPrecision : Type := MPOff | FP16 | BF16.

(** [if self.mixed_precision_mode:] *)
Definition mp_on (m : MixedPrecision) : bool :=
  match m with MPOff => false | _ => true end.

(** [self.scheduler]: [None], one scheduler, or a tuple/list of them. *)
Inductive Schedulers : Type :=
| NoScheduler
| OneScheduler (id : nat)
| SchedulerList (ids : list nat).

Record DataLoader : Type := mkDataLoader {
  dl_len : option Z;          (* [__len__], when the loader declares one *)
  dl_batches : list Batch     (* what one pass of [iter(...)] yields *)
}.

Definition StateDict : Type := list (string * nat).

(** [mapping] argument of [load_weights]. *)
Inductive Mapping : Type :=
| MapNone
| MapDict (m : list (string * string))
| MapFun (f : string -> string).

(** Calls made to the optimizer, scaler, schedulers, module and mailer, in
    the order they happen. *)
Inductive Op : Type :=
| OpFetch (b : Batch)
| OpBackward (loss : Q) (scaled : bool)
| OpUnscale
| OpClipGradNorm (max_norm : Q)
| OpScalerStep
| OpScalerUpdate
| OpOptimizerStep
| OpZeroGrad
| OpSchedulerStep (id : nat)
| OpLoadStateDict (sd : StateDict) (strict : bool)
| OpSendEmail
| OpSaveWeights (path : string)
| OpTorchSave (path : string).

(** Content of a step-parameter file. *)
Record StepParams : Type := mkStepParams {
  sp_resume_step : Z;
  sp_resume_epoch : Z
}.

(** What [compile] fixes before [fit] runs, plus the behaviour of the
    collaborators the loop calls into. *)
Record Config : Type := mkConfig {
  criterion : Batch -> CriterionResult;   (* forward pass, then the loss *)
  grad_accumulation_steps : Z;
  mixed_precision_mode : MixedPrecision;
  clip_grad_norm : option Q;
  scheduler : Schedulers;
  optimizer_lr : option Q;                (* [param_groups[0]["lr"]], if any *)
  smooth_interval : option Z;             (* [smooth_metrics_config.get('interval')] *)
  progbar_bar : string;                   (* [progbar_config['bar']] *)
  run_callbacks : bool;
  metric_perf : Batch -> Logs;            (* entries the metrics add per step *)
  scaler_update : Z -> Q -> Q;            (* [GradScaler.update] at a global step *)
  load_checkpoint : string -> StateDict;  (* content of a weight file *)
  io_fail : Op -> option exn              (* whether a mail or file call fails *)
}.

(** ** Trainer state *)

Record St : Type := mkSt {
  cfg : Config;
  global_step : Z;
  local_step : Z;
  batch_step : Z;
  total_steps : Z;
  epoch : Z;
  epochs : Z;
  steps_per_epoch : option Z;
  resume_step : Z;
  resume_epoch : Z;
  stop_training : bool;
  verbose : option Z;
  scale_before_step : Q;
  scaler_scale : Q;
  train_dataloader : option DataLoader;
  train_dataloader_iter : list Batch;
  train_X : option Batch;
  callbacks : CallbackList;
  trace : list Obs;
  ops : list Op;
  disk : list (string * StepParams)
}.

Definition set_global_step (v : Z) (s : St) : St :=
  mkSt (cfg s) v (local_step s) (batch_step s) (total_steps s) (epoch s)
    (epochs s) (steps_per_epoch s) (resume_step s) (resume_epoch s)
    (stop_training s) (verbose s) (scale_before_step s) (scaler_scale s)
    (train_dataloader s) (train_dataloader_iter s) (train_X s) (callbacks s)
    (trace s) (ops s) (disk s).

Definition set_local_step (v : Z) (s : St) : St :=
  mkSt (cfg s) (global_step s) v (batch_step s) (total_steps s) (epoch s)
    (epochs s) (steps_per_epoch s) (resume_step s) (resume_epoch s)
    (stop_training s) (verbose s) (scale_before_step s) (scaler_scale s)
    (train_dataloader s) (train_dataloader_iter s) (train_X s) (callbacks s)
    (trace s) (ops s) (disk s).

Definition set_batch_step (v : Z) (s : St) : St :=
  mkSt (cfg s) (global_step s) (local_step s) v (total_steps s) (epoch s)
    (epochs s) (steps_per_epoch s) (resume_step s) (resume_epoch s)
    (stop_training s) (verbose s) (scale_before_step s) (scaler_scale s)
    (train_dataloader s) (train_dataloader_iter s) (train_X s) (callbacks s)
    (trace s) (ops s) (disk s).

Definition set_total_steps (v : Z) (s : St) : St :=
  mkSt (cfg s) (global_step s) (local_step s) (batch_step s) v (epoch s)
    (epochs s) (steps_per_epoch s) (resume_step s) (resume_epoch s)
    (stop_training s) (verbose s) (scale_before_step s) (scaler_scale s)
    (train_dataloader s) (train_dataloader_iter s) (train_X s) (callbacks s)
    (trace s) (ops s) (disk s).

Definition set_epoch (v : Z) (s : St) : St :=
  mkSt (cfg s) (global_step s) (local_step s) (batch_step s) (total_steps s) v
    (epochs s) (steps_per_epoch s) (resume_step s) (resume_epoch s)
    (stop_training s) (verbose s) (scale_before_step s) (scaler_scale s)
    (train_dataloader s) (train_dataloader_iter s) (train_X s) (callbacks s)
    (trace s) (ops s) (disk s).

Definition set_epochs (v : Z) (s : St) : St :=
  mkSt (cfg s) (global_step s) (local_step s) (batch_step s) (total_steps s)
    (epoch s) v (steps_per_epoch s) (resume_step s) (resume_epoch s)
    (stop_training s) (verbose s) (scale_before_step s) (scaler_scale s)
    (train_dataloader s) (train_dataloader_iter s) (train_X s) (callbacks s)
    (trace s) (ops s) (disk s).

Definition set_steps_per_epoch (v : option Z) (s : St) : St :=
  mkSt (cfg s) (global_step s) (local_step s) (batch_step s) (total_steps s)
    (epoch s) (epochs s) v (resume_step s) (resume_epoch s) (stop_training s)
    (verbose s) (scale_before_step s) (scaler_scale s) (train_dataloader s)
    (train_dataloader_iter s) (train_X s) (callbacks s) (trace s) (ops s)
    (disk s).

Definition set_resume_step (v : Z) (s : St) : St :=
  mkSt (cfg s) (global_step s) (local_step s) (batch_step s) (total_steps s)
    (epoch s) (epochs s) (steps_per_epoch s) v (resume_epoch s)
    (stop_training s) (verbose s) (scale_before_step s) (scaler_scale s)
    (train_dataloader s) (train_dataloader_iter s) (train_X s) (callbacks s)
    (trace s) (ops s) (disk s).

Definition set_resume_epoch (v : Z) (s : St) : St :=
  mkSt (cfg s) (global_step s) (local_step s) (batch_step s) (total_steps s)
    (epoch s) (epochs s) (steps_per_epoch s) (resume_step s) v
    (stop_training s) (verbose s) (scale_before_step s) (scaler_scale s)
    (train_dataloader s) (train_dataloader_iter s) (train_X s) (callbacks s)
    (trace s) (ops s) (disk s).

Definition set_stop_training (v : bool) (s : St) : St :=
  mkSt (cfg s) (global_step s) (local_step s) (batch_step s) (total_steps s)
    (epoch s) (epochs s) (steps_per_epoch s) (resume_step s) (resume_epoch s)
    v (verbose s) (scale_before_step s) (scaler_scale s) (train_dataloader s)
    (train_dataloader_iter s) (train_X s) (callbacks s) (trace s) (ops s)
    (disk s).

Definition set_verbose (v : option Z) (s : St) : St :=
  mkSt (cfg s) (global_step s) (local_step s) (batch_step s) (total_steps s)
    (epoch s) (epochs s) (steps_per_epoch s) (resume_step s) (resume_epoch s)
    (stop_training s) v (scale_before_step s) (scaler_scale s)
    (train_dataloader s) (train_dataloader_iter s) (train_X s) (callbacks s)
    (trace s) (ops s) (disk s).

Definition set_scale_before_step (v : Q) (s : St) : St :=
  mkSt (cfg s) (global_step s) (local_step s) (batch_step s) (total_steps s)
    (epoch s) (epochs s) (steps_per_epoch s) (resume_step s) (resume_epoch s)
    (stop_training s) (verbose s) v (scaler_scale s) (train_dataloader s)
    (train_dataloader_iter s) (train_X s) (callbacks s) (trace s) (ops s)
    (disk s).

Definition set_scaler_scale (v : Q) (s : St) : St :=
  mkSt (cfg s) (global_step s) (local_step s) (batch_step s) (total_steps s)
    (epoch s) (epochs s) (steps_per_epoch s) (resume_step s) (resume_epoch s)
    (stop_training s) (verbose s) (scale_before_step s) v (train_dataloader s)
    (train_dataloader_iter s) (train_X s) (callbacks s) (trace s) (ops s)
    (disk s).

Definition set_train_dataloader (v : option DataLoader) (s : St) : St :=
  mkSt (cfg s) (global_step s) (local_step s) (batch_step s) (total_steps s)
    (epoch s) (epochs s) (steps_per_epoch s) (resume_step s) (resume_epoch s)
    (stop_training s) (verbose s) (scale_before_step s) (scaler_scale s) v
    (train_dataloader_iter s) (train_X s) (callbacks s) (trace s) (ops s)
    (disk s).

Definition set_train_dataloader_iter (v : list Batch) (s : St) : St :=
  mkSt (cfg s) (global_step s) (local_step s) (batch_step s) (total_steps s)
    (epoch s) (epochs s) (steps_per_epoch s) (resume_step s) (resume_epoch s)
    (stop_training s) (verbose s) (scale_before_step s) (scaler_scale s)
    (train_dataloader s) v (train_X s) (callbacks s) (trace s) (ops s)
    (disk s).

Definition set_train_X (v : option Batch) (s : St) : St :=
  mkSt (cfg s) (global_step s) (local_step s) (batch_step s) (total_steps s)
    (epoch s) (epochs s) (steps_per_epoch s) (resume_step s) (resume_epoch s)
    (stop_training s) (verbose s) (scale_before_step s) (scaler_scale s)
    (train_dataloader s) (train_dataloader_iter s) v (callbacks s) (trace s)
    (ops s) (disk s).

Definition set_callbacks (v : CallbackList) (s : St) : St :=
  mkSt (cfg s) (global_step s) (local_step s) (batch_step s) (total_steps s)
    (epoch s) (epochs s) (steps_per_epoch s) (resume_step s) (resume_epoch s)
    (stop_training s) (verbose s) (scale_before_step s) (scaler_scale s)
    (train_dataloader s) (train_dataloader_iter s) (train_X s) v (trace s)
    (ops s) (disk s).

Definition set_trace (v : list Obs) (s : St) : St :=
  mkSt (cfg s) (global_step s) (local_step s) (batch_step s) (total_steps s)
    (epoch s) (epochs s) (steps_per_epoch s) (resume_step s) (resume_epoch s)
    (stop_training s) (verbose s) (scale_before_step s) (scaler_scale s)
    (train_dataloader s) (train_dataloader_iter s) (train_X s) (callbacks s) v
    (ops s) (disk s).

Definition set_ops (v : list Op) (s : St) : St :=
  mkSt (cfg s) (global_step s) (local_step s) (batch_step s) (total_steps s)
    (epoch s) (epochs s) (steps_per_epoch s) (resume_step s) (resume_epoch s)
    (stop_training s) (verbose s) (scale_before_step s) (scaler_scale s)
    (train_dataloader s) (train_dataloader_iter s) (train_X s) (callbacks s)
    (trace s) v (disk s).

Definition set_disk (v : list (string * StepParams)) (s : St) : St :=
  mkSt (cfg s) (global_step s) (local_step s) (batch_step s) (total_steps s)
    (epoch s) (epochs s) (steps_per_epoch s) (resume_step s) (resume_epoch s)
    (stop_training s) (verbose s) (scale_before_step s) (scaler_scale s)
    (train_dataloader s) (train_dataloader_iter s) (train_X s) (callbacks s)
    (trace s) (ops s) v.

(** [Trainer.initialize]: the attributes a fresh trainer starts with.
    [verbose] and [train_X] do not exist yet. *)
Definition initialize (c : Config) : St :=
  mkSt c 0 0 0 0 0 0 None 0 0 false None 0%Q 65536%Q None [] None
    (mkCallbackList [] true) [] [] [].

(** ** The monad of trainer methods *)

Definition M (A : Type) : Type := St -> Result A * St.

Definition ret {A} (a : A) : M A := fun s => (Ok a, s).
Definition raise {A} (e : exn) : M A := fun s => (Raise e, s).
Definition bind {A B} (m : M A) (k : A -> M B) : M B :=
  fun s => match m s with
           | (Ok a, s') => k a s'
           | (Raise e, s') => (Raise e, s')
           end.
Definition get : M St := fun s => (Ok s, s).
Definition modify (f : St -> St) : M unit := fun s => (Ok tt, f s).

(** [try: m  except Exception as e: h e] *)
Definition try_except {A} (m : M A) (h : exn -> M A) : M A :=
  fun s => match m s with
           | (Ok a, s') => (Ok a, s')
           | (Raise e, s') => h e s'
           end.

Declare Scope trainer_scope.
Delimit Scope trainer_scope with trainer.
Notation "x <- m ;; k" := (bind m (fun x => k))
  (at level 100, m at next level, right associativity) : trainer_scope.
Notation "m ;; k" := (bind m (fun _ => k))
  (at level 100, right associativity) : trainer_scope.
Local Open Scope trainer_scope.

(** A call that cannot fail, appended to the call log. *)
Definition emit (o : Op) : M unit := modify (fun s => set_ops (ops s ++ [o]) s).

(** A mail or file call, together with the [os.makedirs] that precedes a
    save: it fails when the environment says so. *)
Definition io (o : Op) : M unit :=
  fun s => match io_fail (cfg s) o with
           | Some e => (Raise e, s)
           | None => (Ok tt, set_ops (ops s ++ [o]) s)
           end.

(** Modelled from the spec: [CallbackList] notifies its callbacks in list
    order; this is the [stop_training] attribute after the hooks of [cbs] ran
    one after the other. *)
Definition run_hooks (cbs : list Callback) (tr : list Obs) (stop : bool) : bool :=
  fold_left (fun b c => match cb_hook c tr with Some b' => b' | None => b end)
            cbs stop.

(** [self.callbacks.<hook>(..., logs)]: the dispatch is logged with the
    counters of the trainer, then the hooks run. *)
Definition dispatch (h : Hook) (logs : Logs) : M unit :=
  modify (fun s =>
    let tr := trace s ++ [mkObs h (global_step s) (local_step s) (epoch s) logs] in
    set_stop_training
      (run_hooks (dispatch_order (callbacks s)) tr (stop_training s))
      (set_trace tr s)).

(** ** Step engine *)

(** Keys [loss1], [loss2], ... of the auxiliary losses of a sequence; the
    comprehension [{f'loss{i}': v for i, v in enumerate(rest, start=1)}]
    meets each key once, so it is the list of its items. *)
Definition loss_key (i : nat) : string :=
  String.append "loss" (NilZero.string_of_uint (Nat.to_uint i)).

Fixpoint enumerate_losses (i : nat) (l : list Value) : list (string * Value) :=
  match l with
  | [] => []
  | v :: l' => (loss_key i, v) :: enumerate_losses (S i) l'
  end.

(** [Trainer.loss_backward] *)
Definition loss_backward (loss : Value) : M Value :=
  modify (set_scale_before_step 0%Q) ;;
  s <- get ;;
  (if mp_on (mixed_precision_mode (cfg s)) then
     modify (set_scale_before_step (scaler_scale s)) ;;
     match loss with
     | VTensor q => emit (OpBackward q true)
     | VNum _ => raise AttributeError
     end
   else
     match loss with
     | VTensor q => emit (OpBackward q false)
     | VNum _ => raise AttributeError
     end) ;;
  ret loss.

(** The dictionary comprehension closing [train_step]: every auxiliary value
    is read with [item] and divided by the accumulation factor. *)
Definition scale_detail (a : Z) (d : list (string * Value)) : M Logs :=
  match d with
  | [] => ret []
  | _ :: _ =>
      if Z.eqb a 0 then raise ZeroDivisionError
      else ret (map (fun kv => (fst kv, (item (snd kv) / inject_Z a)%Q)) d)
  end.

(** [Trainer.train_step]; the forward pass and the criterion are
    [criterion (cfg s)], the model output is identified with the batch. *)
Definition train_step (b : Batch) : M (Batch * Value * Logs) :=
  s <- get ;;
  let a := grad_accumulation_steps (cfg s) in
  ld <- match criterion (cfg s) b with
        | RTensor q => ret (VTensor q, [])
        | RDict d =>
            match dict_get "loss" d with
            | Some v => ret (v, dict_del "loss" d)
            | None => raise KeyError
            end
        | RSeq l =>
            match l with
            | v :: rest => ret (v, enumerate_losses 1 rest)
            | [] => raise IndexError
            end
        | ROther => raise ValueError
        end ;;
  let loss := if 1 <? a then value_div (fst ld) a else fst ld in
  loss <- loss_backward loss ;;
  detail <- scale_detail a (snd ld) ;;
  ret (b, loss, detail).

(** [for scheduler in self.scheduler: scheduler.step()] *)
Fixpoint step_schedulers (ids : list nat) : M unit :=
  match ids with
  | [] => ret tt
  | i :: ids' => emit (OpSchedulerStep i) ;; step_schedulers ids'
  end.

Definition clip_gradients : M unit :=
  s <- get ;;
  match clip_grad_norm (cfg s) with
  | Some n => emit (OpClipGradNorm n)
  | None => ret tt
  end.

(** [Trainer.step] *)
Definition step : M unit :=
  s <- get ;;
  skip_scheduler <-
    (if mp_on (mixed_precision_mode (cfg s)) then
       emit OpUnscale ;;
       clip_gradients ;;
       emit OpScalerStep ;;
       modify (fun s => set_scaler_scale
                 (scaler_update (cfg s) (global_step s) (scaler_scale s)) s) ;;
       emit OpScalerUpdate ;;
       s' <- get ;;
       ret (negb (Qeq_bool (scaler_scale s') (scale_before_step s')))
     else
       clip_gradients ;;
       emit OpOptimizerStep ;;
       ret false) ;;
  emit OpZeroGrad ;;
  match scheduler (cfg s) with
  | NoScheduler => ret tt
  | OneScheduler i => if skip_scheduler then ret tt else emit (OpSchedulerStep i)
  | SchedulerList ids => if skip_scheduler then ret tt else step_schedulers ids
  end.

(** ** Run loop *)

(** [Trainer._prepare_inputs]. The [math.ceil] is applied to the result of an
    integer floor division, on which it is the identity. *)
Definition _prepare_inputs (dl : DataLoader) (steps : option Z)
    (n_epochs : Z) (verbose_arg : Z) : M unit :=
  match dl_len dl, steps with
  | None, None => raise AssertionError
  | _, _ => ret tt
  end ;;
  s <- get ;;
  spe <- match steps with
         | Some n => ret n
         | None =>
             match dl_len dl with
             | Some len =>
                 if Z.eqb (grad_accumulation_steps (cfg s)) 0
                 then raise ZeroDivisionError
                 else ret (len / grad_accumulation_steps (cfg s))
             | None => raise TypeError
             end
         end ;;
  modify (set_steps_per_epoch (Some spe)) ;;
  modify (set_epochs n_epochs) ;;
  modify (set_total_steps (spe * n_epochs)) ;;
  modify (set_train_dataloader (Some dl)) ;;
  modify (set_train_dataloader_iter (dl_batches dl)) ;;
  modify (fun s => set_verbose
            (Some match verbose s with Some v => v | None => verbose_arg end) s).

(** The [callbacks] argument of [fit]. *)
Inductive PyObj : Type :=
| ObjCallback (c : Callback)
| ObjOther.

Inductive CallbacksArg : Type :=
| ArgNone
| ArgOne (c : Callback)
| ArgList (l : list PyObj).

Fixpoint check_callbacks (l : list PyObj) : option (list Callback) :=
  match l with
  | [] => Some []
  | ObjCallback c :: l' =>
      match check_callbacks l' with Some cs => Some (c :: cs) | None => None end
  | ObjOther :: _ => None
  end.

(** The callbacks the trainer creates itself; none of them writes
    [stop_training]. *)
Definition default_smooth (interval : Z) : Callback :=
  mkCallback SmoothMetricsCallback "SmoothMetricsCallback" (Some interval)
             (fun _ => None).
Definition history : Callback :=
  mkCallback History "History" None (fun _ => None).
Definition make_progbar (bar : string) : Callback :=
  if String.eqb bar "keras" then
    mkCallback KerasProgbar "KerasProgbar" None (fun _ => None)
  else if String.eqb bar "tqdm" then
    mkCallback TqdmProgbar "TqdmProgbar" None (fun _ => None)
  else if String.eqb bar "progressbar2" then
    mkCallback ProgressBar2Progbar "ProgressBar2Progbar" None (fun _ => None)
  else mkCallback KerasProgbar "KerasProgbar" None (fun _ => None).

(** The list [callbacks_] that [_prepare_callbacks] assembles. *)
Definition callback_order (cs : list Callback) (interval : option Z)
    (verbose_on : bool) (bar : string) : list Callback :=
  let smooth :=
    match filter is_smooth cs with
    | sm :: _ => [sm]
    | [] => match interval with Some i => [default_smooth i] | None => [] end
    end in
  let rest :=
    match filter is_smooth cs with
    | _ :: _ => filter (fun c => negb (is_smooth c)) cs
    | [] => cs
    end in
  smooth ++ (if verbose_on then [make_progbar bar] else []) ++ rest ++ [history].

(** The smoothing callback [_prepare_callbacks] settles on: the first one
    the caller passed, else one built from [smooth_metrics_config] when that
    holds an interval (which is then the interval of the callback), else
    none; and what it leaves in [callbacks]. *)
Definition smooth_callback_of (cs : list Callback) (interval : option Z)
    : option Callback :=
  match filter is_smooth cs with
  | sm :: _ => Some sm
  | [] => match interval with Some i => Some (default_smooth i) | None => None end
  end.

Definition other_callbacks (cs : list Callback) : list Callback :=
  match filter is_smooth cs with
  | _ :: _ => filter (fun c => negb (is_smooth c)) cs
  | [] => cs
  end.

(** The loop that compares the intervals: for every callback that has an
    [interval] other than [None], when there is a smoothing callback,
    [callback.interval % smooth_callback.interval] is computed.  That raises
    [TypeError] when the interval of the smoothing callback is [None] and
    [ZeroDivisionError] when it is 0; otherwise a remainder other than 0
    only writes a warning.  (No callback of [callbacks] is the smoothing
    callback itself: those the caller passed were taken out, and the one
    built here is new.) *)
Fixpoint check_intervals (smooth_callback : option Callback)
    (callbacks : list Callback) : Result unit :=
  match callbacks with
  | [] => Ok tt
  | callback :: callbacks' =>
      match smooth_callback, cb_interval callback with
      | Some sm, Some _ =>
          match cb_interval sm with
          | None => Raise TypeError
          | Some i =>
              if Z.eqb i 0 then Raise ZeroDivisionError
              else check_intervals smooth_callback callbacks'
          end
      | _, _ => check_intervals smooth_callback callbacks'
      end
  end.

(** [Trainer._prepare_callbacks]; returns the history callback and the
    progress bar, if one was created. *)
Definition _prepare_callbacks (arg : CallbacksArg)
    : M (Callback * option Callback) :=
  let given := match arg with
               | ArgNone => []
               | ArgOne c => [ObjCallback c]
               | ArgList l => l
               end in
  cs <- match check_callbacks given with
        | Some cs => ret cs
        | None => raise AssertionError
        end ;;
  s <- get ;;
  match check_intervals (smooth_callback_of cs (smooth_interval (cfg s)))
                        (other_callbacks cs) with
  | Ok _ => ret tt
  | Raise e => raise e
  end ;;
  v <- match verbose s with
       | Some v => ret (truthy v)
       | None => raise AttributeError
       end ;;
  let bar := progbar_bar (cfg s) in
  modify (set_callbacks
            (mkCallbackList (callback_order cs (smooth_interval (cfg s)) v bar)
                            (run_callbacks (cfg s)))) ;;
  modify (set_stop_training false) ;;
  ret (history, if v then Some (make_progbar bar) else None).

(** [Trainer._log_init] *)
Definition _log_init : M Logs :=
  s <- get ;;
  ret match optimizer_lr (cfg s) with
      | Some lr => [("lr", lr)]
      | None => []
      end.

(** [Trainer._prepare_nextbatch]. A loader that runs dry is rebuilt once;
    a second [next] that finds nothing lets [StopIteration] escape. *)
Definition _prepare_nextbatch : M Batch :=
  s <- get ;;
  match train_dataloader_iter s with
  | b :: rest =>
      modify (set_train_dataloader_iter rest) ;;
      modify (fun s => set_batch_step (batch_step s + 1) s) ;;
      emit (OpFetch b) ;;
      ret b
  | [] =>
      dispatch on_dataloader_end [] ;;
      match train_dataloader s with
      | None => raise AttributeError
      | Some dl =>
          modify (set_train_dataloader_iter (dl_batches dl)) ;;
          modify (set_batch_step 0) ;;
          match dl_batches dl with
          | b :: rest =>
              modify (set_train_dataloader_iter rest) ;;
              emit (OpFetch b) ;;
              ret b
          | [] => raise StopIteration
          end
      end
  end.

(** [tr_loss_detail[k] = tr_loss_detail.get(k, 0) + v] over the items. *)
Definition add_detail (acc d : Logs) : Logs :=
  fold_left
    (fun acc kv =>
       dict_set (fst kv)
         (match dict_get (fst kv) acc with Some x => x | None => 0%Q end
          + snd kv)%Q acc)
    d acc.

(** The gradient accumulation loop of [_fit], [n] rounds left; it carries
    [tr_loss], [tr_loss_detail] and the last model output. *)
Fixpoint accumulate (n : nat) (tr_loss : Q) (tr_detail : Logs)
    (output : option Batch) : M (Q * Logs * option Batch) :=
  match n with
  | O => ret (tr_loss, tr_detail, output)
  | S n' =>
      b <- _prepare_nextbatch ;;
      modify (set_train_X (Some b)) ;;
      r <- train_step b ;;
      dispatch on_train_step_end [] ;;
      let '(out, loss, detail) := r in
      accumulate n' (tr_loss + item loss)%Q (add_detail tr_detail detail)
                 (Some out)
  end.

(** One iteration of [for local_step in range(resume_step, steps_per_epoch)].
    Switching the module to train mode, [_log_first_step] (off unless
    [log_first_step] is set) and the column bookkeeping of the progress bar
    touch nothing the trainer reads back and are left out; [metric_perf]
    stands for the loop over [self.metrics], which reads the output of the
    last micro-batch and so needs the accumulation loop to have run. *)
Definition step_body (spe : Z) (l : Z) : M Logs :=
  modify (set_local_step l) ;;
  modify (fun s => set_global_step (epoch s * spe + local_step s) s) ;;
  logs <- _log_init ;;
  dispatch on_batch_begin logs ;;
  s <- get ;;
  r <- accumulate (Z.to_nat (grad_accumulation_steps (cfg s))) 0%Q [] None ;;
  let '(tr_loss, tr_detail, output) := r in
  step ;;
  let logs := dict_update logs (dict_update [("loss", tr_loss)] tr_detail) in
  logs <- match output with
          | None => raise UnboundLocalError
          | Some out => ret (dict_update logs (metric_perf (cfg s) out))
          end ;;
  dispatch on_batch_end logs ;;
  ret logs.

Fixpoint step_loop (spe : Z) (ls : list Z) (logs : Logs) : M Logs :=
  match ls with
  | [] => ret logs
  | l :: ls' => logs' <- step_body spe l ;; step_loop spe ls' logs'
  end.

(** The body of [for epoch in range(self.resume_epoch, epochs)] up to and
    including [on_epoch_end]; setting [progbarlogger.seen] is left out. *)
Definition epoch_body (e : Z) (logs : Logs) : M Logs :=
  modify (set_epoch e) ;;
  s <- get ;;
  let start := if Z.eqb e (resume_epoch s) then resume_step s else 0 in
  dispatch on_epoch_begin [] ;;
  match steps_per_epoch s with
  | None => raise TypeError
  | Some spe =>
      logs' <- step_loop spe (range start spe) logs ;;
      dispatch on_epoch_end logs' ;;
      ret logs'
  end.

(** The epoch loop with its [break] on [stop_training]. *)
Fixpoint epoch_loop (es : list Z) (logs : Logs) : M Logs :=
  match es with
  | [] => ret logs
  | e :: es' =>
      logs' <- epoch_body e logs ;;
      s <- get ;;
      if stop_training s then ret logs' else epoch_loop es' logs'
  end.

(** [Trainer._fit] *)
Definition _fit (dl : DataLoader) (steps : option Z) (n_epochs : Z)
    (cbs : CallbacksArg) (verbose_arg : Z) : M Callback :=
  _prepare_inputs dl steps n_epochs verbose_arg ;;
  hp <- _prepare_callbacks cbs ;;
  dispatch on_train_begin [] ;;
  logs <- _log_init ;;
  s <- get ;;
  logs <- epoch_loop (range (resume_epoch s) n_epochs) logs ;;
  dispatch on_train_end logs ;;
  ret (fst hp).

(** ** Checkpoints *)

(** [a or b] on optional strings: [None] and the empty string are falsy. *)
Definition str_or (a b : option string) : option string :=
  match a with
  | Some "" => b
  | Some s => Some s
  | None => b
  end.

(** [os.path.join(save_dir, name)] for a directory without trailing slash. *)
Definition path_join (dir name : string) : string :=
  String.append dir (String.append "/" name).

(** [explicit or os.path.join(save_dir, name)], guarded by
    [if explicit or save_dir:]. *)
Definition default_path (explicit save_dir : option string) (name : string)
    : option string :=
  match str_or explicit None with
  | Some p => Some p
  | None =>
      match str_or save_dir None with
      | Some d => Some (path_join d name)
      | None => None
      end
  end.

(** The record [save_steps_params] computes from the current counters. *)
Definition step_params_of (local spe ep : Z) : StepParams :=
  mkStepParams ((local + 1) mod spe) (ep + (local + 1) / spe).

(** [Trainer.save_steps_params] *)
Definition save_steps_params (save_path : string) : M unit :=
  s <- get ;;
  match steps_per_epoch s with
  | None => raise TypeError
  | Some spe =>
      if Z.eqb spe 0 then raise ZeroDivisionError
      else
        io (OpTorchSave save_path) ;;
        modify (fun s =>
          set_disk (dict_set save_path
                      (step_params_of (local_step s) spe (epoch s)) (disk s)) s)
  end.

(** [Trainer.load_steps_params] *)
Definition load_steps_params (save_path : string) : M StepParams :=
  s <- get ;;
  match dict_get save_path (disk s) with
  | None => raise FileNotFoundError
  | Some p =>
      modify (set_resume_step (sp_resume_step p)) ;;
      modify (set_resume_epoch (sp_resume_epoch p)) ;;
      ret p
  end.

(** [Trainer.save_to_checkpoint]; the weights, the optimizer state and the
    scheduler state go through the file oracle only. *)
Definition save_to_checkpoint
    (save_dir model_path optimizer_path scheduler_path steps_params_path
       : option string) : M unit :=
  match default_path model_path save_dir "model.pt" with
  | Some p => io (OpSaveWeights p)
  | None => ret tt
  end ;;
  match default_path optimizer_path save_dir "optimizer.pt" with
  | Some p => io (OpTorchSave p)
  | None => ret tt
  end ;;
  s <- get ;;
  match default_path scheduler_path save_dir "scheduler.pt", scheduler (cfg s) with
  | Some p, OneScheduler _ => io (OpTorchSave p)
  | Some p, SchedulerList _ => raise AttributeError
  | _, _ => ret tt
  end ;;
  match default_path steps_params_path save_dir "steps_params.pt" with
  | Some p => save_steps_params p
  | None => ret tt
  end.

(** Keyword arguments of [fit] read by its error handler. *)
Record FitKwargs : Type := mkFitKwargs {
  mail_receivers_when_error : option string;
  save_ckpt_dir_when_error : option string;
  save_batch_path_when_error : option string
}.

(** The three diagnostics of the [except] block of [fit], in source order. *)
Definition notify_by_mail (kw : FitKwargs) : M unit :=
  match mail_receivers_when_error kw with
  | Some _ => io OpSendEmail
  | None => ret tt
  end.

Definition save_ckpt_when_error (kw : FitKwargs) : M unit :=
  match save_ckpt_dir_when_error kw with
  | Some d => save_to_checkpoint (Some d) None None None None
  | None => ret tt
  end.

Definition save_batch_when_error (kw : FitKwargs) : M unit :=
  match save_batch_path_when_error kw with
  | Some p =>
      s <- get ;;
      match train_X s with
      | None => raise AttributeError
      | Some _ => io (OpTorchSave p)
      end
  | None => ret tt
  end.

(** [Trainer.fit] *)
Definition fit (dl : DataLoader) (steps : option Z) (n_epochs : Z)
    (cbs : CallbacksArg) (verbose_arg : Z) (kw : FitKwargs) : M Callback :=
  try_except (_fit dl steps n_epochs cbs verbose_arg)
    (fun e =>
       notify_by_mail kw ;;
       save_ckpt_when_error kw ;;
       save_batch_when_error kw ;;
       raise e).

(** ** Loading weights *)

Inductive LoadPath : Type :=
| PathStr (p : string)
| PathSeq (ps : list string)     (* tuple or list *)
| PathOther.

(** One round of the key renaming loop of [load_weights]:
    [state_dict[new] = state_dict.pop(k)]. *)
Definition rename_key (mapping : Mapping) (sd : StateDict) (k : string)
    : Result StateDict :=
  let move new :=
    match dict_get k sd with
    | Some v => Ok (dict_set new v (dict_del k sd))
    | None => Raise KeyError
    end in
  match mapping with
  | MapNone => Ok sd
  | MapDict m =>
      match dict_get k m with
      | Some new => move new
      | None => Ok sd
      end
  | MapFun f => move (f k)
  end.

Fixpoint rename_keys (mapping : Mapping) (ks : list string) (sd : StateDict)
    : Result StateDict :=
  match ks with
  | [] => Ok sd
  | k :: ks' =>
      match rename_key mapping sd k with
      | Ok sd' => rename_keys mapping ks' sd'
      | Raise e => Raise e
      end
  end.

Fixpoint load_each (mapping : Mapping) (strict : bool) (ps : list string)
    : M unit :=
  match ps with
  | [] => ret tt
  | p :: ps' =>
      s <- get ;;
      let sd := load_checkpoint (cfg s) p in
      match rename_keys mapping (map fst sd) sd with
      | Ok sd' => emit (OpLoadStateDict sd' strict) ;; load_each mapping strict ps'
      | Raise e => raise e
      end
  end.

(** [Trainer.load_weights] *)
Definition load_weights (load_path : LoadPath) (strict : bool)
    (mapping : Mapping) : M unit :=
  match load_path with
  | PathSeq ps => load_each mapping false ps
  | PathStr p => load_each mapping strict [p]
  | PathOther => raise ValueError
  end.

(** ** Vocabulary of the statements *)

(** Ceiling of [a / b] for [b > 0]. *)
Definition ceil_div (a b : Z) : Z := - ((- a) / b).

(** The schedulers [step] walks over, in order. *)
Definition sched_ids (sc : Schedulers) : list nat :=
  match sc with
  | NoScheduler => []
  | OneScheduler i => [i]
  | SchedulerList ids => ids
  end.

(** What [train_step] divides a loss by before the backward pass. *)
Definition scale_loss (a : Z) (q : Q) : Q :=
  if 1 <? a then (q / inject_Z a)%Q else q.

Definition is_scheduler_step (o : Op) : bool :=
  match o with OpSchedulerStep _ => true | _ => false end.

Definition is_update (o : Op) : bool :=
  match o with OpOptimizerStep | OpScalerStep => true | _ => false end.

Definition is_zero_grad (o : Op) : bool :=
  match o with OpZeroGrad => true | _ => false end.

(** The batches fetched and the losses sent backward, read off a call log. *)
Fixpoint fetched (l : list Op) : list Batch :=
  match l with
  | [] => []
  | OpFetch b :: l' => b :: fetched l'
  | _ :: l' => fetched l'
  end.

Fixpoint backward_losses (l : list Op) : list Q :=
  match l with
  | [] => []
  | OpBackward q _ :: l' => q :: backward_losses l'
  | _ :: l' => backward_losses l'
  end.

Definition Qsum (l : list Q) : Q := fold_right Qplus 0%Q l.

(** The primary loss the criterion reports for a batch, when there is one. *)
Definition primary_loss (r : CriterionResult) : option Value :=
  match r with
  | RTensor q => Some (VTensor q)
  | RDict d => dict_get "loss" d
  | RSeq (v :: _) => Some v
  | RSeq [] => None
  | ROther => None
  end.

(** Concrete configurations used in the examples. *)
Definition plain_config : Config :=
  mkConfig (fun _ => RTensor 1%Q) 1 MPOff None NoScheduler (Some (1 # 1000)%Q)
           (Some 100) "keras" true (fun _ => []) (fun _ q => q)
           (fun _ => []) (fun _ => None).

Definition with_accumulation (a : Z) (c : Config) : Config :=
  mkConfig (criterion c) a (mixed_precision_mode c) (clip_grad_norm c)
           (scheduler c) (optimizer_lr c) (smooth_interval c) (progbar_bar c)
           (run_callbacks c) (metric_perf c) (scaler_update c)
           (load_checkpoint c) (io_fail c).

Definition with_criterion (f : Batch -> CriterionResult) (c : Config) : Config :=
  mkConfig f (grad_accumulation_steps c) (mixed_precision_mode c)
           (clip_grad_norm c) (scheduler c) (optimizer_lr c) (smooth_interval c)
           (progbar_bar c) (run_callbacks c) (metric_perf c) (scaler_update c)
           (load_checkpoint c) (io_fail c).

(** Mixed precision with two schedulers; the scaler halves its scale at
    global step 0 and keeps it afterwards. *)
Definition fp16_config : Config :=
  mkConfig (fun _ => RTensor 1%Q) 1 FP16 (Some 1%Q) (SchedulerList [0; 1]%nat)
           (Some (1 # 1000)%Q) (Some 100) "keras" true (fun _ => [])
           (fun g q => if Z.eqb g 0 then (q / 2)%Q else q)
           (fun _ => []) (fun _ => None).

(** The state dicts [load_weights] gets to hand to the module: the renamed
    content of each file, up to the first file whose renaming fails. *)
Fixpoint loaded_prefix (c : Config) (mapping : Mapping) (ps : list string)
    : list StateDict :=
  match ps with
  | [] => []
  | p :: ps' =>
      match rename_keys mapping (map fst (load_checkpoint c p))
                        (load_checkpoint c p) with
      | Ok sd => sd :: loaded_prefix c mapping ps'
      | Raise _ => []
      end
  end.

Definition checkpoint_config : Config :=
  mkConfig (fun _ => RTensor 1%Q) 1 MPOff None NoScheduler None (Some 100)
           "keras" true (fun _ => []) (fun _ q => q)
           (fun p => if String.eqb p "a.pt" then [("w", 0%nat)]
                     else [("b", 1%nat)])
           (fun _ => None).

Definition dict_criterion (_ : Batch) : CriterionResult :=
  RDict [("loss", VTensor 2%Q); ("aux", VNum 4%Q)].
Definition seq_criterion (_ : Batch) : CriterionResult :=
  RSeq [VTensor 3%Q; VTensor 5%Q; VNum 7%Q].
Definition other_criterion (_ : Batch) : CriterionResult := ROther.

(** Callbacks a caller may pass to [fit]. *)
Definition my_smooth : Callback :=
  mkCallback SmoothMetricsCallback "smooth" (Some 10) (fun _ => None).
Definition user1 : Callback :=
  mkCallback UserCallback "user1" None (fun _ => None).
Definition user2 : Callback :=
  mkCallback UserCallback "user2" None (fun _ => None).

Definition quiet_state (c : Config) : St := set_verbose (Some 0) (initialize c).

(** *** Reading the dispatch log *)

Definition hook_eqb (a b : Hook) : bool :=
  match a, b with
  | on_train_begin, on_train_begin | on_train_end, on_train_end
  | on_epoch_begin, on_epoch_begin | on_epoch_end, on_epoch_end
  | on_batch_begin, on_batch_begin | on_batch_end, on_batch_end
  | on_train_step_end, on_train_step_end
  | on_dataloader_end, on_dataloader_end => true
  | _, _ => false
  end.

(** Hooks dispatched from inside one iteration of the step loop. *)
Definition in_step (h : Hook) : bool :=
  match h with
  | on_batch_begin | on_batch_end | on_train_step_end | on_dataloader_end => true
  | _ => false
  end.

(** Hooks dispatched from inside the accumulation loop. *)
Definition in_accumulation (h : Hook) : bool :=
  match h with
  | on_train_step_end | on_dataloader_end => true
  | _ => false
  end.

(** The counter identity of the run loop, read at one dispatch. *)
Definition counters_agree (spe : Z) (o : Obs) : Prop :=
  o_global_step o = o_epoch o * spe + o_local_step o.

Definition at_counters (g l e : Z) (o : Obs) : Prop :=
  o_global_step o = g /\ o_local_step o = l /\ o_epoch o = e.

(** Where the step loop of epoch [e] starts. *)
Definition epoch_start (re rs e : Z) : Z := if Z.eqb e re then rs else 0.

(** The local steps at which a batch began during epoch [e]. *)
Definition batch_begins_of (e : Z) (tr : list Obs) : list Z :=
  map o_local_step
      (filter (fun o => hook_eqb (hook o) on_batch_begin && Z.eqb (o_epoch o) e) tr).

(** The last dispatch of hook [h]. *)
Definition last_obs (h : Hook) (tr : list Obs) : option Obs :=
  hd_error (rev (filter (fun o => hook_eqb (hook o) h) tr)).

(** What a method leaves alone. *)
Definition keeps (s s' : St) : Prop :=
  cfg s' = cfg s /\ steps_per_epoch s' = steps_per_epoch s /\
  resume_step s' = resume_step s /\ resume_epoch s' = resume_epoch s /\
  callbacks s' = callbacks s /\ train_dataloader s' = train_dataloader s.

Definition same_counters (s s' : St) : Prop :=
  epoch s' = epoch s /\ local_step s' = local_step s /\
  global_step s' = global_step s.

(** The method dispatched nothing. *)
Definition silent (s s' : St) : Prop :=
  keeps s s' /\ same_counters s s' /\
  trace s' = trace s /\ stop_training s' = stop_training s.

(** The method dispatched [evs], each from inside the accumulation loop and
    under the counters of [s], and left the counters alone. *)
Definition dispatches_within (s s' : St) (evs : list Obs) : Prop :=
  keeps s s' /\ same_counters s s' /\ trace s' = trace s ++ evs /\
  Forall (fun o => in_accumulation (hook o) = true /\
                   at_counters (global_step s) (local_step s) (epoch s) o) evs.

(** The dispatches of one iteration of the step loop: [on_batch_begin], then
    hooks of the accumulation loop, then [on_batch_end] if the iteration ran
    to its end; all under the same counters. *)
Definition step_events (g l e : Z) (complete : bool) (evs : list Obs) : Prop :=
  exists ob mid tl,
    evs = ob :: mid ++ tl /\
    hook ob = on_batch_begin /\ at_counters g l e ob /\
    Forall (fun o => in_accumulation (hook o) = true /\ at_counters g l e o) mid /\
    if complete
    then exists oe, tl = [oe] /\ hook oe = on_batch_end /\ at_counters g l e oe
    else tl = [].

(** The dispatches of the step loop of epoch [e] over the local steps [ls];
    the flag tells whether every iteration ran to its end. *)
Inductive steps_events (spe e : Z) : list Z -> bool -> list Obs -> Prop :=
| steps_done : steps_events spe e [] true []
| steps_next l ls c evs1 evs2 :
    step_events (e * spe + l) l e true evs1 ->
    steps_events spe e ls c evs2 ->
    steps_events spe e (l :: ls) c (evs1 ++ evs2)
| steps_fail l ls evs1 :
    step_events (e * spe + l) l e false evs1 ->
    steps_events spe e (l :: ls) false evs1.

Definition is_ok {A} (r : Result A) : bool :=
  match r with Ok _ => true | Raise _ => false end.

(** The three counters a dispatch records. *)
Record Counters : Type := mkCounters {
  c_global : Z;
  c_local : Z;
  c_epoch : Z
}.

Definition counters_of (s : St) : Counters :=
  mkCounters (global_step s) (local_step s) (epoch s).

Definition obs_at (h : Hook) (c : Counters) (logs : Logs) : Obs :=
  mkObs h (c_global c) (c_local c) (c_epoch c) logs.

(** The dispatches of one pass through the epoch loop, for epoch [e], entered
    with counters [c0] and left with [c1]: [on_epoch_begin] under the
    counters of the previous step but the new epoch, the step loop from
    [epoch_start], and [on_epoch_end] when the step loop ran to its end. *)
Definition epoch_events (spe re rs e : Z) (c0 : Counters) (complete : bool)
    (evs : list Obs) (c1 : Counters) : Prop :=
  exists evsS tl c,
    evs = mkObs on_epoch_begin (c_global c0) (c_local c0) e [] :: evsS ++ tl /\
    steps_events spe e (range (epoch_start re rs e) spe) c evsS /\
    c_epoch c1 = e /\
    (evsS = [] -> c_global c1 = c_global c0 /\ c_local c1 = c_local c0) /\
    (evsS <> [] -> c_global c1 = e * spe + c_local c1) /\
    if complete
    then c = true /\
         exists logs, tl = [obs_at on_epoch_end c1 logs]
    else c = false /\ tl = [].

(** How the epoch loop ended. *)
Inductive Outcome : Type := Finished | Stopped | Failed.

(** The dispatches of the epoch loop over the epochs [es], after the
    dispatches [tr], under the callbacks [cbs]. *)
Inductive epochs_events (spe re rs : Z) (cbs : list Callback)
  : list Obs -> list Z -> Counters -> Outcome -> list Obs -> Counters -> Prop :=
| epochs_nil tr c0 :
    epochs_events spe re rs cbs tr [] c0 Finished [] c0
| epochs_fail tr e es c0 evs c1 :
    epoch_events spe re rs e c0 false evs c1 ->
    epochs_events spe re rs cbs tr (e :: es) c0 Failed evs c1
| epochs_stop tr e es c0 evs c1 :
    epoch_events spe re rs e c0 true evs c1 ->
    (exists b, run_hooks cbs (tr ++ evs) b = true) ->
    epochs_events spe re rs cbs tr (e :: es) c0 Stopped evs c1
| epochs_next tr e es c0 evs1 c1 k evs2 c2 :
    epoch_events spe re rs e c0 true evs1 c1 ->
    (exists b, run_hooks cbs (tr ++ evs1) b = false) ->
    epochs_events spe re rs cbs (tr ++ evs1) es c1 k evs2 c2 ->
    epochs_events spe re rs cbs tr (e :: es) c0 k (evs1 ++ evs2) c2.

(** The dispatches of [_fit] once its inputs and callbacks are in place:
    [on_train_begin], the epoch loop over [range(re, n_epochs)], and
    [on_train_end] unless the loop failed. *)
Definition fit_events (spe re rs n_epochs : Z) (cbs : list Callback)
    (tr0 : list Obs) (ok : bool) (evs : list Obs) : Prop :=
  exists c0 c1 k loop tl,
    evs = obs_at on_train_begin c0 [] :: loop ++ tl /\
    epochs_events spe re rs cbs (tr0 ++ [obs_at on_train_begin c0 []])
                  (range re n_epochs) c0 k loop c1 /\
    if ok
    then k <> Failed /\ exists logs, tl = [obs_at on_train_end c1 logs]
    else k = Failed /\ tl = [].

(** Whether a step has completed among the dispatches [tr]. *)
Definition stepped (tr : list Obs) : bool :=
  existsb (fun o => hook_eqb (hook o) on_batch_end) tr.

(** Every dispatch of [tr] other than [on_epoch_begin] that is an
    [on_batch_end] or follows one (or [seen] says one came earlier) shows
    counters that agree. *)
Fixpoint agree_after_step (spe : Z) (seen : bool) (tr : list Obs) : Prop :=
  match tr with
  | [] => True
  | o :: tr' =>
      (hook o <> on_epoch_begin ->
       hook o = on_batch_end \/ seen = true -> counters_agree spe o) /\
      agree_after_step spe (seen || hook_eqb (hook o) on_batch_end) tr'
  end.

(** The counter identity, read on the trainer's counters. *)
Definition counters_ok (spe : Z) (c : Counters) : Prop :=
  c_global c = c_epoch c * spe + c_local c.

(** Inputs of the example runs. *)
Definition two_batches : DataLoader := mkDataLoader (Some 2) [0; 1]%nat.
Definition no_kwargs : FitKwargs := mkFitKwargs None None None.

(** A callback that asks to stop at the end of epoch [k]. *)
Definition stop_at_epoch (k : Z) : Callback :=
  mkCallback UserCallback "stop_at_epoch" None
    (fun tr => match rev tr with
               | o :: _ =>
                   if hook_eqb (hook o) on_epoch_end && Z.eqb (o_epoch o) k
                   then Some true else None
               | [] => None
               end).

(** The hook and the three counters of each dispatch. *)
Definition skeleton (tr : list Obs) : list (Hook * Z * Z * Z) :=
  map (fun o => (hook o, o_global_step o, o_local_step o, o_epoch o)) tr.

(** Two epochs of two steps each over a loader of two batches. *)
Abbreviation example_run :=
  (fit two_batches (Some 2) 2 ArgNone 0 no_kwargs (initialize plain_config)).

(** Three epochs asked for, with a callback that stops after the first. *)
Abbreviation stopped_run :=
  (fit two_batches None 3 (ArgOne (stop_at_epoch 0)) 0 no_kwargs
       (initialize plain_config)).

(** A trainer interrupted after the first of two steps of epoch 0. *)
Definition interrupted : St :=
  set_steps_per_epoch (Some 2) (initialize plain_config).

(** A fresh trainer that finds the step-parameter file of [interrupted]. *)
Definition restarted : St :=
  set_disk [("ckpt/steps_params.pt", mkStepParams 1 0)] (initialize plain_config).

(** One step over two micro-batches whose losses are 1 and 3. *)
Definition two_losses (b : Batch) : CriterionResult :=
  match b with
  | O => RTensor 1%Q
  | _ => RDict [("loss", VTensor 3%Q); ("aux", VNum 5%Q)]
  end.

Definition accumulating : St :=
  set_train_dataloader_iter [0; 1]%nat
    (set_train_dataloader (Some two_batches)
       (initialize (with_accumulation 2 (with_criterion two_losses plain_config)))).

(** The mail and file calls the error handler of [fit] makes when each of
    them succeeds, in the order the handler makes them. *)
Definition opt_op (f : string -> Op) (p : option string) : list Op :=
  match p with Some x => [f x] | None => [] end.

Definition checkpoint_ops (c : Config) (d : string) : list Op :=
  opt_op OpSaveWeights (default_path None (Some d) "model.pt")
  ++ opt_op OpTorchSave (default_path None (Some d) "optimizer.pt")
  ++ match scheduler c with
     | OneScheduler _ =>
         opt_op OpTorchSave (default_path None (Some d) "scheduler.pt")
     | _ => []
     end
  ++ opt_op OpTorchSave (default_path None (Some d) "steps_params.pt").

Definition diagnostic_ops (kw : FitKwargs) (c : Config) : list Op :=
  match mail_receivers_when_error kw with Some _ => [OpSendEmail] | None => [] end
  ++ match save_ckpt_dir_when_error kw with
     | Some d => checkpoint_ops c d
     | None => []
     end
  ++ opt_op OpTorchSave (save_batch_path_when_error kw).

(** Inputs of the failing runs. *)
Definition no_len_loader : DataLoader := mkDataLoader None [0; 1]%nat.
Definition all_diagnostics : FitKwargs :=
  mkFitKwargs (Some "ops@example.org") (Some "ckpt") (Some "dbg/batch.pt").
Definition save_on_error : FitKwargs :=
  mkFitKwargs None (Some "ckpt") (Some "dbg/batch.pt").

(** The criterion hands back something [train_step] cannot use. *)
Abbreviation failing_run :=
  (fit two_batches (Some 2) 1 ArgNone 0 all_diagnostics
       (initialize (with_criterion other_criterion plain_config))).

(** The loader has no length and no [steps_per_epoch] is given. *)
Abbreviation masked_run :=
  (fit no_len_loader None 1 ArgNone 0 save_on_error (initialize plain_config)).

(** *** Checkpoints and resuming *)

(** An optional path that is [None] or empty: falsy in [if path or save_dir:]. *)
Definition absent (o : option string) : Prop := o = None \/ o = Some "".

(** The file calls [save_to_checkpoint] makes when each of them succeeds, in
    the order it makes them. *)
Definition checkpoint_files (c : Config)
    (save_dir model_path optimizer_path scheduler_path steps_params_path
       : option string) : list Op :=
  opt_op OpSaveWeights (default_path model_path save_dir "model.pt")
  ++ opt_op OpTorchSave (default_path optimizer_path save_dir "optimizer.pt")
  ++ match scheduler c with
     | NoScheduler => []
     | _ => opt_op OpTorchSave (default_path scheduler_path save_dir "scheduler.pt")
     end
  ++ opt_op OpTorchSave (default_path steps_params_path save_dir "steps_params.pt").

(** The trainer [restarted] after it has read its step-parameter file, and
    its next run. *)
Abbreviation resumed_run :=
  (fit two_batches None 2 ArgNone 0 no_kwargs
       (snd (load_steps_params "ckpt/steps_params.pt" restarted))).

(** *** Reading a run as a whole *)

(** The criterion reports a tensor as primary loss, whatever the batch. *)
Definition tensor_loss (c : Config) : Prop :=
  forall b, exists q, primary_loss (criterion c b) = Some (VTensor q).

(** The iterator of the trainer is what is left of one pass over its loader,
    and a pass yields at least one batch. *)
Definition loader_ready (dl : DataLoader) (s : St) : Prop :=
  train_dataloader s = Some dl /\ dl_batches dl <> [] /\
  exists seen, dl_batches dl = seen ++ train_dataloader_iter s.

(** No callback of the list writes [stop_training]. *)
Definition quiet (cbs : list Callback) : Prop :=
  forall c tr, In c cbs -> cb_hook c tr = None.

(** Relations between the state before and after a method. *)
Definition stop_kept (s s' : St) : Prop :=
  quiet (dispatch_order (callbacks s)) -> stop_training s' = stop_training s.

Definition calm (s s' : St) : Prop := keeps s s' /\ stop_kept s s'.

Definition steady (s s' : St) : Prop :=
  calm s s' /\ train_dataloader_iter s' = train_dataloader_iter s.

(** The method relates every state to the one it leaves, whether it returns
    or raises. *)
Definition framed (R : St -> St -> Prop) {A} (m : M A) : Prop :=
  forall s, R s (snd (m s)).

(** [steps_per_epoch] as [_prepare_inputs] settles it from its arguments. *)
Definition resolved_steps (dl : DataLoader) (steps : option Z) (a : Z)
    : option Z :=
  match steps with
  | Some n => Some n
  | None =>
      match dl_len dl with
      | Some len => if Z.eqb a 0 then None else Some (len / a)
      | None => None
      end
  end.

(** The list [_prepare_callbacks] walks over. *)
Definition given_callbacks (arg : CallbacksArg) : list PyObj :=
  match arg with
  | ArgNone => []
  | ArgOne c => [ObjCallback c]
  | ArgList l => l
  end.

Definition count_hook (h : Hook) (tr : list Obs) : nat :=
  List.length (filter (fun o => hook_eqb (hook o) h) tr).

Definition count_ops (f : Op -> bool) (l : list Op) : nat :=
  List.length (filter f l).

(** Between [s] and [s'] exactly [n] steps began and ended, and the calls
    made are those of [n] steps: one update and one [zero_grad] per step,
    one fetch and one backward pass per micro-batch, and no call at all when
    no step ran. *)
Definition tally (n : nat) (s s' : St) : Prop :=
  exists new evs,
    ops s' = ops s ++ new /\ trace s' = trace s ++ evs /\ cfg s' = cfg s /\
    count_hook on_batch_begin evs = n /\ count_hook on_batch_end evs = n /\
    count_ops is_update new = n /\ count_ops is_zero_grad new = n /\
    List.length (fetched new)
      = (n * Z.to_nat (grad_accumulation_steps (cfg s)))%nat /\
    List.length (backward_losses new)
      = (n * Z.to_nat (grad_accumulation_steps (cfg s)))%nat /\
    (n <> 0%nat -> 1 <= grad_accumulation_steps (cfg s)) /\
    (n = 0%nat -> new = []).

(** The steps the epochs [es] hold, when none of them is cut short. *)
Definition steps_left (spe re rs : Z) (es : list Z) : nat :=
  fold_right
    (fun e n => (List.length (range (epoch_start re rs e) spe) + n)%nat)
    0%nat es.

(** A loader of one batch, shorter than an accumulation factor of 2, and a
    loader that declares two batches but yields none. *)
Definition short_loader : DataLoader := mkDataLoader (Some 1) [0%nat].
Definition empty_loader : DataLoader := mkDataLoader (Some 2) [].

Abbreviation short_run :=
  (fit short_loader None 3 ArgNone 0 no_kwargs
       (initialize (with_accumulation 2 plain_config))).

Abbreviation finished_run :=
  (fit two_batches (Some 2) 0 ArgNone 0 no_kwargs (initialize plain_config)).

Abbreviation empty_run :=
  (fit empty_loader None 1 ArgNone 0 no_kwargs (initialize plain_config)).

(** Criteria whose result [train_step] cannot use. *)
Definition no_loss_criterion (_ : Batch) : CriterionResult :=
  RDict [("aux", VTensor 1%Q)].
Definition empty_seq_criterion (_ : Batch) : CriterionResult := RSeq [].
Definition number_criterion (_ : Batch) : CriterionResult :=
  RSeq [VNum 1%Q; VTensor 2%Q].

(** ** Saving weights *)

(** One round of the key loop of [save_weights]: with [trainable_only], a
    key that is not a trainable parameter is passed over by [continue], that
    is, it stays in the state dict under its own name. *)
Definition save_key (mapping : Mapping) (trainable_only : bool)
    (trainable : list string) (sd : StateDict) (k : string) : Result StateDict :=
  if trainable_only && negb (existsb (String.eqb k) trainable) then Ok sd
  else rename_key mapping sd k.

Fixpoint save_keys (mapping : Mapping) (trainable_only : bool)
    (trainable : list string) (ks : list string) (sd : StateDict)
    : Result StateDict :=
  match ks with
  | [] => Ok sd
  | k :: ks' =>
      match save_key mapping trainable_only trainable sd k with
      | Ok sd' => save_keys mapping trainable_only trainable ks' sd'
      | Raise e => Raise e
      end
  end.

(** The state dict [Trainer.save_weights] hands to [save_checkpoint], from
    the state dict of the module and the names of its trainable
    parameters. *)
Definition save_weights_state_dict (mapping : Mapping) (trainable_only : bool)
    (trainable : list string) (sd : StateDict) : Result StateDict :=
  save_keys mapping trainable_only trainable (map fst sd) sd.

(** A state dict under renamed keys, entry by entry. *)
Definition renamed (f : string -> string) (sd : StateDict) : StateDict :=
  map (fun kv => (f (fst kv), snd kv)) sd.

(** A module with a frozen embedding and a trainable head, and the usual
    renaming by prefix. *)
Definition small_model : StateDict :=
  [("embed.weight", 0%nat); ("head.weight", 1%nat); ("head.bias", 2%nat)].
Definition add_prefix (k : string) : string := String.append "module." k.
Definition strip_prefix (k : string) : string :=
  substring 7 (String.length k - 7) k.

(** The key a mapping renames [k] to, if it renames it. *)
Definition rename_target (mapping : Mapping) (k : string) : option string :=
  match mapping with
  | MapNone => None
  | MapDict m => dict_get k m
  | MapFun f => Some (f k)
  end.

(** [k in trainable_parameters] *)
Definition is_trainable (trainable : list string) (k : string) : bool :=
  existsb (String.eqb k) trainable.

(** ** Moving a batch to the device of the model *)

(** What a batch is made of: tensors (known by a tag, living on a device),
    tuples, lists, dicts with string keys, and any other object. *)
#[warnings="-register-all"] Inductive PyData : Type :=
| DTensor (id : nat) (device : nat)
| DTuple (l : list PyData)
| DList (l : list PyData)
| DDict (d : list (string * PyData))
| DOther (id : nat).

(** [Trainer._move_to_model_device], as a function of the attribute
    [move_to_model_device] and of [self.device] ([None] when the trainer has
    no such attribute).  The source updates lists and dicts in place and
    hands the same object back; here the value handed back is built anew. *)
Fixpoint _move_to_model_device (move : bool) (device : option nat)
    (inputs : PyData) : PyData :=
  if move then
    match inputs with
    | DTensor id dev =>
        match device with
        | Some d => if Nat.eqb dev d then inputs else DTensor id d
        | None => inputs
        end
    | DTuple l => DList (map (_move_to_model_device move device) l)
    | DList l => DList (map (_move_to_model_device move device) l)
    | DDict d =>
        DDict (map (fun kv => (fst kv, _move_to_model_device move device (snd kv))) d)
    | DOther _ => inputs
    end
  else inputs.

(** The tensors of a batch with their devices, in traversal order. *)
Fixpoint tensors (x : PyData) : list (nat * nat) :=
  match x with
  | DTensor id dev => [(id, dev)]
  | DTuple l => flat_map tensors l
  | DList l => flat_map tensors l
  | DDict d => flat_map (fun kv => tensors (snd kv)) d
  | DOther _ => []
  end.

(** Whether a tuple occurs anywhere in a batch. *)
Fixpoint has_tuple (x : PyData) : bool :=
  match x with
  | DTensor _ _ => false
  | DTuple _ => true
  | DList l => existsb has_tuple l
  | DDict d => existsb (fun kv => has_tuple (snd kv)) d
  | DOther _ => false
  end.

(** Induction over batches, with the hypothesis for every component. *)
Section PyDataInd.
Variable P : PyData -> Prop.
Hypothesis P_tensor : forall id dev, P (DTensor id dev).
Hypothesis P_tuple : forall l, Forall P l -> P (DTuple l).
Hypothesis P_list : forall l, Forall P l -> P (DList l).
Hypothesis P_dict : forall d, Forall (fun kv => P (snd kv)) d -> P (DDict d).
Hypothesis P_other : forall id, P (DOther id).

Fixpoint PyData_induction (x : PyData) : P x :=
  match x with
  | DTensor id dev => P_tensor id dev
  | DTuple l =>
      P_tuple l ((fix go (l : list PyData) : Forall P l :=
                    match l with
                    | [] => Forall_nil P
                    | a :: l' => Forall_cons a (PyData_induction a) (go l')
                    end) l)
  | DList l =>
      P_list l ((fix go (l : list PyData) : Forall P l :=
                   match l with
                   | [] => Forall_nil P
                   | a :: l' => Forall_cons a (PyData_induction a) (go l')
                   end) l)
  | DDict d =>
      P_dict d ((fix go (d : list (string * PyData))
                   : Forall (fun kv => P (snd kv)) d :=
                   match d with
                   | [] => Forall_nil _
                   | kv :: d' =>
                       Forall_cons kv (PyData_induction (snd kv)) (go d')
                   end) d)
  | DOther id => P_other id
  end.
End PyDataInd.

(** A batch as a tuple of a tensor on device 0 and a dict holding a tuple. *)
Definition mixed_batch : PyData :=
  DTuple [DTensor 0 0; DDict [("labels", DTuple [DTensor 1 1; DOther 7])]]%nat.

(** ** The DeepSpeed configuration *)

(** A configuration as read from a JSON file. *)
#[warnings="-register-all"] Inductive Json : Type :=
| JNull
| JBool (b : bool)
| JNum (q : Q)
| JStr (s : string)
| JList (l : list Json)
| JObj (d : list (string * Json)).

(** The character [.] (code 46). *)
Definition dot : Ascii.ascii := Ascii.ascii_of_nat 46.

(** [s.split(".")]: the pieces between the dots, at least one. *)
Fixpoint split_dot (s : string) : list string :=
  match s with
  | EmptyString => [""]
  | String c s' =>
      if Ascii.eqb c dot then "" :: split_dot s'
      else match split_dot s' with
           | w :: ws => String c w :: ws
           | [] => [String c ""]
           end
  end.

(** The loop of [find_config_node]: [config = config.get(node)] for each
    node, giving up when that is [None] (a missing key or a null).  Calling
    [get] on anything but a dict raises [AttributeError]. *)
Fixpoint find_node (nodes : list string) (config : Json) : Result (option Json) :=
  match nodes with
  | [] => Ok (Some config)
  | node :: nodes' =>
      match config with
      | JObj d =>
          match dict_get node d with
          | None => Ok None
          | Some JNull => Ok None
          | Some c => find_node nodes' c
          end
      | _ => Raise AttributeError
      end
  end.

(** [find_config_node]: the node the dotted key leads to, and its last
    piece. *)
Definition find_config_node (ds_key_long : string) (root : Json)
    : Result (option Json * string) :=
  let nodes := split_dot ds_key_long in
  match find_node (removelast nodes) root with
  | Ok c => Ok (c, last nodes "")
  | Raise e => Raise e
  end.

(** The configuration after [config[key] = v] on the node the path [nodes]
    leads to: the node is a dict inside the configuration, updated in
    place. *)
Fixpoint set_node (nodes : list string) (key : string) (v : Json)
    (config : Json) : Json :=
  match config with
  | JObj d =>
      match nodes with
      | [] => JObj (dict_set key v d)
      | node :: nodes' =>
          match dict_get node d with
          | Some c => JObj (dict_set node (set_node nodes' key v c) d)
          | None => config
          end
      end
  | _ => config
  end.

Definition is_auto (j : Json) : bool :=
  match j with JStr s => String.eqb s "auto" | _ => false end.

(** [DeepSpeedTrainer.fill_match]: the configuration it leaves.  A value
    that is not ["auto"] is at most compared with [hf_val], which writes a
    warning and nothing else. *)
Definition fill_match (ds_key_long : string) (hf_val : Json)
    (must_match : bool) (root : Json) : Result Json :=
  match find_config_node ds_key_long root with
  | Raise e => Raise e
  | Ok (None, _) => Ok root
  | Ok (Some (JObj d), ds_key) =>
      match dict_get ds_key d with
      | Some v =>
          if is_auto v
          then Ok (set_node (removelast (split_dot ds_key_long)) ds_key hf_val root)
          else Ok root
      | None => Ok root
      end
  | Ok (Some _, _) => Raise AttributeError
  end.

(** [DeepSpeedArgs.get_value] *)
Definition get_value (ds_key_long : string) (default : Json) (root : Json)
    : Result Json :=
  match find_config_node ds_key_long root with
  | Raise e => Raise e
  | Ok (None, _) => Ok default
  | Ok (Some (JObj d), ds_key) =>
      Ok match dict_get ds_key d with Some v => v | None => default end
  | Ok (Some _, _) => Raise AttributeError
  end.

(** A configuration with an [auto] learning rate and a fixed batch size. *)
Definition ds_example : Json :=
  JObj [("train_batch_size", JNum 32%Q);
        ("optimizer",
         JObj [("type", JStr "AdamW");
               ("params", JObj [("lr", JStr "auto"); ("eps", JNum (1 # 100)%Q)])])].

(** ** The metrics registry of [compile] *)

(** A key of [self.metrics]: a name or a function. *)
Inductive MetricKey : Type :=
| KeyStr (name : string)
| KeyFun (f : nat).

Definition metric_key_eqb (a b : MetricKey) : bool :=
  match a, b with
  | KeyStr x, KeyStr y => String.eqb x y
  | KeyFun f, KeyFun g => Nat.eqb f g
  | _, _ => false
  end.

(** [self.metrics]: an ordered dict from keys to a function or [None]. *)
Definition Registry : Type := list (MetricKey * option nat).

(** [d[k] = v] on an ordered dict: an existing key keeps its place. *)
Fixpoint registry_set (k : MetricKey) (v : option nat) (d : Registry) : Registry :=
  match d with
  | [] => [(k, v)]
  | (k', v') :: d' =>
      if metric_key_eqb k k' then (k, v) :: d' else (k', v') :: registry_set k v d'
  end.

(** [d.update(e)] *)
Definition registry_update (d e : Registry) : Registry :=
  fold_left (fun acc kv => registry_set (fst kv) (snd kv) acc) e d.

(** One element of the [metrics] argument of [compile]. *)
Inductive MetricArg : Type :=
| MetricStr (name : string)
| MetricDict (d : Registry)
| MetricFun (f : nat)
| MetricOther.

(** The [metrics] argument: [None]; a single string, dict or function,
    which [compile] wraps in a list; a list or tuple of elements; or an object
    that is none of these and cannot be iterated, on which the [for] loop
    raises [TypeError]. *)
Inductive MetricsArg : Type :=
| MetricsNone
| MetricsOne (m : MetricArg)
| MetricsSeq (l : list MetricArg)
| MetricsOther.

(** One round of [for metric in metrics:]. *)
Definition add_metric (reg : Registry) (m : MetricArg) : Result Registry :=
  match m with
  | MetricStr name =>
      if negb (String.eqb name "loss") then Ok (registry_set (KeyStr name) None reg)
      else Raise TypeError
  | MetricDict d => Ok (registry_update reg d)
  | MetricFun f => Ok (registry_update reg [(KeyFun f, Some f)])
  | MetricOther => Raise TypeError
  end.

Fixpoint add_metrics (reg : Registry) (l : list MetricArg) : Result Registry :=
  match l with
  | [] => Ok reg
  | m :: l' =>
      match add_metric reg m with
      | Ok reg' => add_metrics reg' l'
      | Raise e => Raise e
      end
  end.

(** The part of [Trainer.compile] that builds [self.metrics]. *)
Definition compile_metrics (metrics : MetricsArg) : Result Registry :=
  let start := [(KeyStr "loss", None)] in
  match metrics with
  | MetricsNone => add_metrics start []
  | MetricsOne m => add_metrics start [m]
  | MetricsSeq l => add_metrics start l
  | MetricsOther => Raise TypeError
  end.

(** *** Verbosity *)

(** A [verbose] attribute, once there, is still there with the same value. *)
Definition sticky (s s' : St) : Prop :=
  forall v0, verbose s = Some v0 -> verbose s' = Some v0.

(** The part of [_fit] that follows [_prepare_inputs]. *)
Definition fit_tail (n_epochs : Z) (cbs : CallbacksArg) : M Callback :=
  hp <- _prepare_callbacks cbs ;;
  dispatch on_train_begin [] ;;
  logs <- _log_init ;;
  s <- get ;;
  logs <- epoch_loop (range (resume_epoch s) n_epochs) logs ;;
  dispatch on_train_end logs ;;
  ret (fst hp).

(** A callbacks argument with something in it that is not a callback. *)
Definition bad_callbacks : CallbacksArg := ArgList [ObjCallback user1; ObjOther].

(** *** The order of the batches *)

(** The batches number [c], [c+1], ..., [c+k-1] of an endless walk round the
    loader. *)
Definition cyclic (batches : list Batch) (c k : nat) : list Batch :=
  map (fun i => nth (i mod List.length batches) batches 0%nat) (seq c k).

(** What is left of the current pass after [c] fetches from a fresh
    iterator. *)
Definition iter_at (batches : list Batch) (c : nat) : list Batch :=
  match c with
  | O => batches
  | S c' => skipn (S (c' mod List.length batches)) batches
  end.

Definition loader_at (dl : DataLoader) (c : nat) (s : St) : Prop :=
  train_dataloader s = Some dl /\
  train_dataloader_iter s = iter_at (dl_batches dl) c.

(** From [s] to [s'] the batches fetched are the [k] batches that follow the
    first [c] of the walk. *)
Definition walk (dl : DataLoader) (c k : nat) (s s' : St) : Prop :=
  exists new,
    ops s' = ops s ++ new /\ fetched new = cyclic (dl_batches dl) c k /\
    loader_at dl (c + k) s'.

(** A loader of three batches. *)
Definition three_batches : DataLoader := mkDataLoader (Some 3) [10; 11; 12]%nat.

Abbreviation long_run :=
  (fit three_batches (Some 2) 2 ArgNone 0 no_kwargs
       (initialize (with_accumulation 2 plain_config))).

(** The comparison of the intervals in [_prepare_callbacks] raises
    nothing. *)
Definition intervals_checked (c : Config) (cs : list Callback) : Prop :=
  check_intervals (smooth_callback_of cs (smooth_interval c))
                  (other_callbacks cs) = Ok tt.

(** A configuration with another smoothing interval, a callback that acts
    every five steps, and a smoothing callback without an interval. *)
Definition with_smooth_interval (i : option Z) (c : Config) : Config :=
  mkConfig (criterion c) (grad_accumulation_steps c) (mixed_precision_mode c)
           (clip_grad_norm c) (scheduler c) (optimizer_lr c) i (progbar_bar c)
           (run_callbacks c) (metric_perf c) (scaler_update c)
           (load_checkpoint c) (io_fail c).
Definition every_five : Callback :=
  mkCallback UserCallback "every_five" (Some 5) (fun _ => None).
Definition no_interval_smooth : Callback :=
  mkCallback SmoothMetricsCallback "smooth" None (fun _ => None).

(** * Properties *)

(** ** Reasoning about the monad *)

Lemma bind_inv {A B} (m : M A) (k : A -> M B) s r s' :
  bind m k s = (r, s') ->
  (exists a s1, m s = (Ok a, s1) /\ k a s1 = (r, s')) \/
  (exists e, m s = (Raise e, s') /\ r = Raise e).
Proof.
  unfold bind. destruct (m s) as [[a|e] s1]; intros H.
  - left. eauto.
  - right. inversion H; subst. eauto.
Qed.

Lemma bind_ok {A B} (m : M A) (k : A -> M B) s a s1 :
  m s = (Ok a, s1) -> bind m k s = k a s1.
Proof. unfold bind. now intros ->. Qed.

(** ** Dictionaries *)

Section DictFacts.
Context {V : Type}.
Implicit Types d e : list (string * V).

Lemma dict_get_set_same k v d : dict_get k (dict_set k v d) = Some v.
Proof.
  induction d as [|[k' v'] d IH]; cbn.
  - now rewrite String.eqb_refl.
  - destruct (String.eqb k k') eqn:E; cbn; rewrite ?String.eqb_refl, ?E; auto.
Qed.

Lemma dict_get_set_other k k' v d :
  k <> k' -> dict_get k (dict_set k' v d) = dict_get k d.
Proof.
  intros Hne. induction d as [|[k2 v2] d IH]; cbn.
  - destruct (String.eqb k k') eqn:E; auto.
    apply String.eqb_eq in E. contradiction.
  - destruct (String.eqb k' k2) eqn:E; cbn.
    + apply String.eqb_eq in E. subst k2.
      destruct (String.eqb k k') eqn:E2; auto.
      apply String.eqb_eq in E2. contradiction.
    + now rewrite IH.
Qed.

Lemma dict_get_none_notin k d :
  dict_get k d = None <-> ~ In k (map fst d).
Proof.
  induction d as [|[k' v'] d IH]; cbn.
  - tauto.
  - destruct (String.eqb k k') eqn:E.
    + apply String.eqb_eq in E. subst. split; [discriminate |].
      intros H. exfalso. apply H. now left.
    + apply String.eqb_neq in E. rewrite IH. split.
      * intros H [H'|H']; [congruence | auto].
      * intros H H'. apply H. now right.
Qed.

(** Updating with entries that do not mention [k] leaves [k] alone. *)
Lemma dict_get_update_other k d e :
  ~ In k (map fst e) -> dict_get k (dict_update d e) = dict_get k d.
Proof.
  unfold dict_update. revert d.
  induction e as [|[k' v'] e IH]; cbn; intros d Hn; auto.
  rewrite IH by tauto. apply dict_get_set_other. intros ->. tauto.
Qed.

Lemma dict_set_keys k v d x :
  In x (map fst (dict_set k v d)) -> x = k \/ In x (map fst d).
Proof.
  induction d as [|[k' v'] d IH]; cbn.
  - intros [H|[]]; auto.
  - destruct (String.eqb k k') eqn:E; cbn.
    + apply String.eqb_eq in E. subst. tauto.
    + intros [H|H]; auto. destruct (IH H); auto.
Qed.

Lemma dict_del_notin k d : ~ In k (map fst (dict_del k d)).
Proof.
  unfold dict_del. induction d as [|[k' v'] d IH]; cbn; auto.
  destruct (String.eqb k k') eqn:E; cbn; auto.
  apply String.eqb_neq in E. intros [H|H]; [congruence | auto].
Qed.
End DictFacts.

#[local] Arguments Qeq_bool : simpl never.
#[local] Arguments Qdiv : simpl never.
#[local] Arguments Qplus : simpl never.
#[local] Arguments Z.div : simpl never.
#[local] Arguments Z.modulo : simpl never.
#[local] Arguments Z.mul : simpl never.
#[local] Arguments Z.add : simpl never.


(** ** Resolving [steps_per_epoch] *)

Lemma prepare_inputs_steps dl a n_epochs v s len :
  dl_len dl = Some len ->
  grad_accumulation_steps (cfg s) = a -> a <> 0 ->
  exists s', _prepare_inputs dl None n_epochs v s = (Ok tt, s') /\
             steps_per_epoch s' = Some (len / a).
Proof.
  intros Hlen Ha Hnz. unfold _prepare_inputs, bind, get, ret, modify.
  rewrite Hlen. cbn. rewrite Ha.
  destruct (Z.eqb a 0) eqn:E; [apply Z.eqb_eq in E; contradiction|].
  cbn. eexists. split; reflexivity.
Qed.

(** C5, at the input where the code and the claim part: a loader of declared
    length 5 with accumulation factor 2 gets [steps_per_epoch = 2], the floor
    of 5/2, while the ceiling is 3. *)
Theorem prepare_inputs_floor_not_ceiling :
  let s := initialize (with_accumulation 2 plain_config) in
  let dl := mkDataLoader (Some 5) [0; 1; 2; 3; 4]%nat in
  steps_per_epoch (snd (_prepare_inputs dl None 1 1 s)) = Some 2 /\
  ceil_div 5 2 = 3.
Proof. cbn. split; reflexivity. Qed.

(** The other half of C5 does hold: without a declared length and without
    [steps_per_epoch] the call fails, and [fit] lets the failure through. *)
Lemma fit_without_length dl n_epochs cbs v s :
  dl_len dl = None ->
  fst (fit dl None n_epochs cbs v (mkFitKwargs None None None) s)
  = Raise AssertionError.
Proof.
  intros H. unfold fit, try_except, _fit, _prepare_inputs, bind.
  rewrite H. reflexivity.
Qed.

(** ** The parameter update *)

Lemma step_schedulers_ops ids s :
  step_schedulers ids s
  = (Ok tt, set_ops (ops s ++ map OpSchedulerStep ids) s).
Proof.
  revert s. induction ids as [|i ids IH]; intros s; cbn.
  - unfold ret. rewrite app_nil_r. now destruct s.
  - unfold bind, emit, modify. rewrite IH. cbn.
    now rewrite <- app_assoc.
Qed.

(** The calls [step] makes: the optimizer update with what precedes it, then
    [zero_grad], then the schedulers when they are not skipped. *)
Lemma step_ops (s : St) :
  exists s' before,
    step s = (Ok tt, s') /\ cfg s' = cfg s /\
    ops s' = ops s ++ before ++ OpZeroGrad ::
      (if mp_on (mixed_precision_mode (cfg s))
          && negb (Qeq_bool (scaler_scale s') (scale_before_step s))
       then []
       else map OpSchedulerStep (sched_ids (scheduler (cfg s)))) /\
    filter is_update before
      = [if mp_on (mixed_precision_mode (cfg s)) then OpScalerStep
         else OpOptimizerStep] /\
    filter is_scheduler_step before = [] /\
    filter is_zero_grad before = [] /\
    fetched before = [] /\ backward_losses before = [].
Proof.
  set (clip := match clip_grad_norm (cfg s) with
               | Some n => [OpClipGradNorm n] | None => [] end).
  exists (snd (step s)),
    (if mp_on (mixed_precision_mode (cfg s))
     then OpUnscale :: clip ++ [OpScalerStep; OpScalerUpdate]
     else clip ++ [OpOptimizerStep]).
  subst clip.
  unfold step, bind, get, clip_gradients, emit, modify, ret. cbn.
  destruct (mp_on (mixed_precision_mode (cfg s))) eqn:Hmp; cbn;
    destruct (clip_grad_norm (cfg s)) as [n|] eqn:Hc; cbn;
      destruct (scheduler (cfg s)) as [|i|ids] eqn:Hs; cbn;
      try (destruct (Qeq_bool _ _) eqn:Hq; cbn);
      rewrite ?step_schedulers_ops; cbn; rewrite ?Hq; cbn;
      repeat rewrite <- app_assoc; cbn; repeat split; auto.
Qed.

(** C4. [loss_backward] records the scale in force before the backward pass;
    [step] then runs the optimizer (through the scaler under mixed
    precision), zeroes the gradients right after it in both modes, and steps
    the schedulers, one after the other in list order, unless mixed precision
    is on and the scale now differs from the recorded one, in which case no
    scheduler is stepped. *)
Theorem step_scheduler_lockstep (s : St) :
  (forall q, mp_on (mixed_precision_mode (cfg s)) = true ->
     scale_before_step (snd (loss_backward (VTensor q) s)) = scaler_scale s) /\
  exists s' before,
    step s = (Ok tt, s') /\
    ops s' = ops s ++ before ++ OpZeroGrad ::
      (if mp_on (mixed_precision_mode (cfg s))
          && negb (Qeq_bool (scaler_scale s') (scale_before_step s))
       then []
       else map OpSchedulerStep (sched_ids (scheduler (cfg s)))) /\
    filter is_update before
      = [if mp_on (mixed_precision_mode (cfg s)) then OpScalerStep
         else OpOptimizerStep] /\
    filter is_scheduler_step before = [] /\
    filter is_zero_grad before = [].
Proof.
  split.
  - intros q Hmp. unfold loss_backward, bind, get, modify, emit, ret. cbn.
    rewrite Hmp. reflexivity.
  - destruct (step_ops s) as (s' & before & H1 & _ & H2 & H3 & H4 & H5 & _).
    exists s', before. auto.
Qed.

(** With the scale halved by the update, neither of the two schedulers is
    stepped; once the scale is stable both are, in list order. *)
Example step_skips_schedulers :
  ops (snd (step (snd (loss_backward (VTensor 1%Q) (initialize fp16_config)))))
  = [OpBackward 1%Q true; OpUnscale; OpClipGradNorm 1%Q; OpScalerStep;
     OpScalerUpdate; OpZeroGrad].
Proof. reflexivity. Qed.

Example step_runs_schedulers :
  ops (snd (step (snd (loss_backward (VTensor 1%Q)
                         (set_global_step 1 (initialize fp16_config))))))
  = [OpBackward 1%Q true; OpUnscale; OpClipGradNorm 1%Q; OpScalerStep;
     OpScalerUpdate; OpZeroGrad; OpSchedulerStep 0; OpSchedulerStep 1].
Proof. reflexivity. Qed.

Lemma step_lockstep_witness :
  scale_before_step
    (snd (loss_backward (VTensor 1%Q) (initialize fp16_config))) = 65536%Q.
Proof.
  exact (proj1 (step_scheduler_lockstep (initialize fp16_config)) 1%Q eq_refl).
Defined.

(** ** Normalising the criterion's result *)

Lemma loss_backward_tensor q s :
  exists s', loss_backward (VTensor q) s = (Ok (VTensor q), s') /\
             cfg s' = cfg s.
Proof.
  unfold loss_backward, bind, get, modify, emit, ret. cbn.
  destruct (mp_on (mixed_precision_mode (cfg s))); cbn; eauto.
Qed.

Lemma scale_detail_ok a d s :
  a <> 0 ->
  scale_detail a d s
  = (Ok (map (fun kv => (fst kv, (item (snd kv) / inject_Z a)%Q)) d), s).
Proof.
  intros Ha. unfold scale_detail. destruct d as [|kv d]; [reflexivity|].
  destruct (Z.eqb a 0) eqn:E; [apply Z.eqb_eq in E; contradiction|].
  reflexivity.
Qed.

Lemma enumerate_losses_keys i l :
  map fst (enumerate_losses i l) = map loss_key (seq i (List.length l)).
Proof.
  revert i. induction l as [|v l IH]; intros i; cbn; [reflexivity|].
  now rewrite IH.
Qed.

(** C8, as the code has it. [train_step] takes a bare tensor as the loss with
    empty detail; from a mapping with key [loss] it takes that entry and
    keeps the others as detail; from a sequence it takes the first element
    and names the others [loss1], [loss2], ... counting from 1; detail values
    are divided by the accumulation factor.  Any other result raises
    [ValueError]. *)
Theorem train_step_shapes (s : St) (b : Batch)
    (Ha : grad_accumulation_steps (cfg s) <> 0) :
  let a := grad_accumulation_steps (cfg s) in
  let scaled d := map (fun kv => (fst kv, (item (snd kv) / inject_Z a)%Q)) d in
  (forall q, criterion (cfg s) b = RTensor q ->
     fst (train_step b s) = Ok (b, VTensor (scale_loss a q), [])) /\
  (forall d q, criterion (cfg s) b = RDict d ->
     dict_get "loss" d = Some (VTensor q) ->
     fst (train_step b s)
     = Ok (b, VTensor (scale_loss a q), scaled (dict_del "loss" d))) /\
  (forall q rest, criterion (cfg s) b = RSeq (VTensor q :: rest) ->
     fst (train_step b s)
     = Ok (b, VTensor (scale_loss a q), scaled (enumerate_losses 1 rest)) /\
     map fst (enumerate_losses 1 rest) = map loss_key (seq 1 (List.length rest))) /\
  (criterion (cfg s) b = ROther -> fst (train_step b s) = Raise ValueError).
Proof.
  intros a scaled.
  assert (Hgo : forall q d,
             fst (bind (loss_backward
                          (if 1 <? a then value_div (VTensor q) a else VTensor q))
                    (fun loss => bind (scale_detail a d)
                                   (fun detail => ret (b, loss, detail))) s)
             = Ok (b, VTensor (scale_loss a q), scaled d)).
  { intros q d. unfold scale_loss.
    destruct (1 <? a); cbn [value_div];
      match goal with |- context [loss_backward (VTensor ?x)] =>
        destruct (loss_backward_tensor x s) as (s1 & E1 & _)
      end;
      rewrite (bind_ok _ _ _ _ _ E1);
      rewrite (bind_ok _ _ _ _ _ (scale_detail_ok a d s1 Ha)); reflexivity. }
  split; [|split; [|split; [intros q rest H; split|]]].
  - intros q Hc. unfold train_step, bind at 1, get. rewrite Hc.
    unfold bind at 1, ret at 1. cbn [fst snd]. apply Hgo.
  - intros d q Hc Hl. unfold train_step, bind at 1, get. rewrite Hc, Hl.
    unfold bind at 1, ret at 1. cbn [fst snd]. apply Hgo.
  - unfold train_step, bind at 1, get. rewrite H.
    unfold bind at 1, ret at 1. cbn [fst snd]. apply Hgo.
  - apply enumerate_losses_keys.
  - intros Hc. unfold train_step, bind, get, raise. now rewrite Hc.
Qed.

Example loss_key_1 : loss_key 1 = "loss1".
Proof. reflexivity. Qed.

Lemma train_step_shapes_witness :
  fst (train_step 0%nat (initialize plain_config))
    = Ok (0%nat, VTensor 1%Q, []) /\
  fst (train_step 0%nat
         (initialize (with_accumulation 2 (with_criterion dict_criterion plain_config))))
    = Ok (0%nat, VTensor (2 / 2)%Q, [("aux", (4 / 2)%Q)]) /\
  fst (train_step 0%nat (initialize (with_criterion seq_criterion plain_config)))
    = Ok (0%nat, VTensor 3%Q, [("loss1", (5 / 1)%Q); ("loss2", (7 / 1)%Q)]) /\
  fst (train_step 0%nat (initialize (with_criterion other_criterion plain_config)))
    = Raise ValueError.
Proof.
  split; [|split; [|split]].
  - refine (proj1 (train_step_shapes (initialize plain_config) 0%nat _) 1%Q eq_refl).
    vm_compute. discriminate.
  - refine (proj1 (proj2 (train_step_shapes
              (initialize (with_accumulation 2
                             (with_criterion dict_criterion plain_config)))
              0%nat _)) _ 2%Q eq_refl eq_refl).
    vm_compute. discriminate.
  - refine (proj1 (proj1 (proj2 (proj2 (train_step_shapes
              (initialize (with_criterion seq_criterion plain_config))
              0%nat _))) 3%Q _ eq_refl)).
    vm_compute. discriminate.
  - refine (proj2 (proj2 (proj2 (train_step_shapes
              (initialize (with_criterion other_criterion plain_config))
              0%nat _))) eq_refl).
    vm_compute. discriminate.
Defined.

(** The error raised for an unsupported result is a [ValueError], which is
    not a [TypeError]. *)
Lemma train_step_other_is_not_typeerror :
  fst (train_step 0%nat (initialize (with_criterion other_criterion plain_config)))
    = Raise ValueError /\
  fst (train_step 0%nat (initialize (with_criterion other_criterion plain_config)))
    <> Raise TypeError.
Proof. split; [reflexivity | discriminate]. Qed.

(** ** Loading weights *)

Lemma load_each_ops mapping strict ps s :
  ops (snd (load_each mapping strict ps s))
  = ops s ++ map (fun sd => OpLoadStateDict sd strict)
                 (loaded_prefix (cfg s) mapping ps).
Proof.
  revert s. induction ps as [|p ps IH]; intros s; cbn.
  - now rewrite app_nil_r.
  - unfold bind at 1, get.
    destruct (rename_keys mapping _ _) as [sd|e]; cbn.
    + unfold bind, emit, modify. rewrite IH. cbn.
      now rewrite <- app_assoc.
    + now rewrite app_nil_r.
Qed.

Lemma load_each_result mapping strict ps s :
  fst (load_each mapping strict ps s) = Ok tt ->
  List.length (loaded_prefix (cfg s) mapping ps) = List.length ps.
Proof.
  revert s. induction ps as [|p ps IH]; intros s; cbn; [reflexivity|].
  unfold bind at 1, get.
  destruct (rename_keys mapping _ _) as [sd|e]; cbn.
  - unfold bind, emit, modify. intros H. apply IH in H. cbn in H. now rewrite H.
  - discriminate.
Qed.

(** C10. Given a tuple or list of paths, every [load_state_dict] call that
    [load_weights] makes carries [strict=False], whatever the caller passed,
    and a call that returns has made one such call per path; given a single
    string the one call carries the caller's [strict]. *)
Theorem load_weights_strictness (s : St) (mapping : Mapping) (strict : bool) :
  (forall ps,
     ops (snd (load_weights (PathSeq ps) strict mapping s))
     = ops s ++ map (fun sd => OpLoadStateDict sd false)
                    (loaded_prefix (cfg s) mapping ps) /\
     (fst (load_weights (PathSeq ps) strict mapping s) = Ok tt ->
      List.length (loaded_prefix (cfg s) mapping ps) = List.length ps)) /\
  (forall p,
     ops (snd (load_weights (PathStr p) strict mapping s))
     = ops s ++ map (fun sd => OpLoadStateDict sd strict)
                    (loaded_prefix (cfg s) mapping [p]) /\
     (fst (load_weights (PathStr p) strict mapping s) = Ok tt ->
      List.length (loaded_prefix (cfg s) mapping [p]) = 1%nat)).
Proof.
  split; intros x; unfold load_weights; split.
  - apply load_each_ops.
  - apply load_each_result.
  - apply load_each_ops.
  - apply (load_each_result mapping strict [x]).
Qed.

Lemma load_weights_strictness_witness :
  ops (snd (load_weights (PathSeq ["a.pt"; "b.pt"]) true MapNone
              (initialize checkpoint_config)))
  = ops (initialize checkpoint_config)
    ++ map (fun sd => OpLoadStateDict sd false)
           (loaded_prefix (cfg (initialize checkpoint_config)) MapNone
                          ["a.pt"; "b.pt"]) /\
  List.length (loaded_prefix (cfg (initialize checkpoint_config)) MapNone
                             ["a.pt"; "b.pt"]) = 2%nat.
Proof.
  destruct (proj1 (load_weights_strictness (initialize checkpoint_config)
                     MapNone true) ["a.pt"; "b.pt"]) as (H1 & H2).
  split; [exact H1 | exact (H2 eq_refl)].
Defined.

Example load_weights_list_ignores_strict :
  load_weights (PathSeq ["a.pt"; "b.pt"]) true MapNone (initialize checkpoint_config)
  = (Ok tt,
     set_ops [OpLoadStateDict [("w", 0%nat)] false;
              OpLoadStateDict [("b", 1%nat)] false]
             (initialize checkpoint_config)).
Proof. reflexivity. Qed.

Example load_weights_string_keeps_strict :
  load_weights (PathStr "a.pt") true (MapDict [("w", "weight")])
               (initialize checkpoint_config)
  = (Ok tt, set_ops [OpLoadStateDict [("weight", 0%nat)] true]
                    (initialize checkpoint_config)).
Proof. reflexivity. Qed.

(** ** Order of the callbacks *)

Lemma check_callbacks_all cs : check_callbacks (map ObjCallback cs) = Some cs.
Proof. induction cs as [|c cs IH]; cbn; [reflexivity | now rewrite IH]. Qed.

Lemma filter_smooth_twice cs :
  filter is_smooth (filter (fun c => negb (is_smooth c)) cs) = [].
Proof.
  induction cs as [|c cs IH]; cbn; [reflexivity|].
  destruct (is_smooth c) eqn:E; cbn; rewrite ?E; auto.
Qed.

Lemma filter_smooth_none cs :
  filter is_smooth cs = [] -> filter (fun c => negb (is_smooth c)) cs = cs.
Proof.
  induction cs as [|c cs IH]; cbn; [reflexivity|].
  destruct (is_smooth c) eqn:E; cbn; [discriminate|].
  intros H. now rewrite IH.
Qed.

Lemma make_progbar_not_smooth bar : is_smooth (make_progbar bar) = false.
Proof.
  unfold make_progbar.
  destruct (String.eqb bar "keras"); [reflexivity|].
  destruct (String.eqb bar "tqdm"); [reflexivity|].
  destruct (String.eqb bar "progressbar2"); reflexivity.
Qed.

(** The assembled list is: the smoothing callback if there is one (the
    caller's first, else the default when an interval is configured), the
    progress bar when verbose, the caller's other callbacks in the order
    given, and the history callback. *)
Lemma callback_order_shape cs interval v bar :
  exists smooth,
    callback_order cs interval v bar
    = smooth ++ (if v then [make_progbar bar] else [])
        ++ filter (fun c => negb (is_smooth c)) cs ++ [history] /\
    (smooth = [] \/ exists sm, smooth = [sm] /\ is_smooth sm = true).
Proof.
  unfold callback_order.
  destruct (filter is_smooth cs) as [|sm l] eqn:E.
  - rewrite (filter_smooth_none cs E).
    destruct interval as [i|]; eexists; split; try reflexivity; auto.
    right. eexists. split; reflexivity.
  - eexists. split; [reflexivity|]. right. exists sm. split; [reflexivity|].
    assert (Hin : In sm (filter is_smooth cs)) by (rewrite E; now left).
    apply filter_In in Hin. tauto.
Qed.

(** C6. When the comparison of the intervals goes through (it raises when a
    callback has an interval and the interval of the smoothing callback is 0
    or [None]), [_prepare_callbacks] registers, in this order: the smoothing
    callback when there is one, the progress bar when verbose, the caller's
    remaining callbacks as given, and last the history callback.  So a smoothing
    callback in the list is its head and the only one, the history callback
    is the last element, and every dispatch runs the hooks over this list
    from left to right.  In particular a smoothing callback followed by two
    user callbacks, without a progress bar, is dispatched as
    [smoothing, user1, user2, history]. *)
Theorem prepare_callbacks_order (s : St) (cs : list Callback) (v : Z)
    (Hv : verbose s = Some v) (Hrun : run_callbacks (cfg s) = true)
    (Hint : check_intervals (smooth_callback_of cs (smooth_interval (cfg s)))
                            (other_callbacks cs) = Ok tt) :
  exists hp s',
    _prepare_callbacks (ArgList (map ObjCallback cs)) s = (Ok hp, s') /\
    let order := dispatch_order (callbacks s') in
    order = callback_order cs (smooth_interval (cfg s)) (truthy v)
                           (progbar_bar (cfg s)) /\
    (exists front, order = front ++ [history]) /\
    (forall c, In c order -> is_smooth c = true ->
       exists rest, order = c :: rest /\ filter is_smooth rest = []) /\
    (exists smooth,
       order = smooth ++ (if truthy v then [make_progbar (progbar_bar (cfg s))]
                          else [])
                 ++ filter (fun c => negb (is_smooth c)) cs ++ [history] /\
       (smooth = [] \/ exists sm, smooth = [sm] /\ is_smooth sm = true)) /\
    (forall h logs,
       stop_training (snd (dispatch h logs s'))
       = run_hooks order
           (trace s' ++ [mkObs h (global_step s') (local_step s') (epoch s') logs])
           (stop_training s')) /\
    (forall sm u1 u2,
       cs = [sm; u1; u2] -> is_smooth sm = true -> is_smooth u1 = false ->
       is_smooth u2 = false -> truthy v = false ->
       order = [sm; u1; u2; history]).
Proof.
  unfold _prepare_callbacks. rewrite check_callbacks_all.
  unfold bind, get, ret, modify. rewrite Hint, Hv. cbn.
  eexists. eexists. split; [reflexivity|]. cbn.
  unfold dispatch_order. cbn. rewrite Hrun.
  split; [reflexivity|].
  destruct (callback_order_shape cs (smooth_interval (cfg s)) (truthy v)
              (progbar_bar (cfg s))) as (smooth & Hshape & Hsm).
  assert (Hrest : filter is_smooth
            ((if truthy v then [make_progbar (progbar_bar (cfg s))] else [])
             ++ filter (fun c => negb (is_smooth c)) cs ++ [history]) = []).
  { rewrite !filter_app, filter_smooth_twice. cbn.
    destruct (truthy v); cbn; rewrite ?make_progbar_not_smooth; reflexivity. }
  split; [|split; [|split; [eauto|split]]].
  - rewrite Hshape. eexists. rewrite !app_assoc. reflexivity.
  - intros c Hin Hc. rewrite Hshape in *.
    destruct Hsm as [-> | (sm & -> & Hs)]; cbn in *.
    + assert (In c (filter is_smooth
                 ((if truthy v then [make_progbar (progbar_bar (cfg s))] else [])
                  ++ filter (fun c => negb (is_smooth c)) cs ++ [history])))
        by (apply filter_In; auto).
      rewrite Hrest in H. destruct H.
    + destruct Hin as [<- | Hin]; [eauto|].
      assert (In c (filter is_smooth
                 ((if truthy v then [make_progbar (progbar_bar (cfg s))] else [])
                  ++ filter (fun c => negb (is_smooth c)) cs ++ [history])))
        by (apply filter_In; auto).
      rewrite Hrest in H. destruct H.
  - reflexivity.
  - intros sm u1 u2 -> Hs H1 H2 Hq. unfold callback_order. cbn.
    rewrite Hs, H1, H2, Hq. reflexivity.
Qed.

Lemma prepare_callbacks_order_witness :
  dispatch_order
    (callbacks (snd (_prepare_callbacks
                       (ArgList (map ObjCallback [my_smooth; user1; user2]))
                       (quiet_state plain_config))))
  = [my_smooth; user1; user2; history].
Proof.
  destruct (prepare_callbacks_order (quiet_state plain_config)
              [my_smooth; user1; user2] 0 eq_refl eq_refl eq_refl)
    as (hp & s' & Hrun & _ & _ & _ & _ & _ & Hex).
  rewrite Hrun. cbn [snd].
  exact (Hex my_smooth user1 user2 eq_refl eq_refl eq_refl eq_refl eq_refl).
Defined.

(** With the default verbosity a progress bar sits between the smoothing
    callback and the user callbacks, and a smoothing callback passed in the
    middle of the list is still moved to the front. *)
Example prepare_callbacks_verbose :
  map cb_name
    (dispatch_order
       (callbacks (snd (_prepare_callbacks
                          (ArgList (map ObjCallback [user1; my_smooth; user2]))
                          (set_verbose (Some 1) (initialize plain_config))))))
  = ["smooth"; "KerasProgbar"; "user1"; "user2"; "History"].
Proof. reflexivity. Qed.

(** The comparison of the intervals comes after the check of the argument
    and before anything is registered: when it raises, [_prepare_callbacks]
    raises the same error and leaves the trainer as it was. *)
Lemma prepare_callbacks_interval_error (s : St) (cs : list Callback) (e : exn) :
  check_intervals (smooth_callback_of cs (smooth_interval (cfg s)))
                  (other_callbacks cs) = Raise e ->
  _prepare_callbacks (ArgList (map ObjCallback cs)) s = (Raise e, s).
Proof.
  intros H. unfold _prepare_callbacks. rewrite check_callbacks_all.
  unfold bind, get, ret, raise. now rewrite H.
Qed.

(** It raises exactly when some callback has an interval and the smoothing
    callback has the interval 0 or [None]. *)
Lemma check_intervals_ok sm cs :
  check_intervals sm cs = Ok tt <->
  (forall c, In c cs -> cb_interval c = None) \/ sm = None \/
  (exists m i, sm = Some m /\ cb_interval m = Some i /\ i <> 0).
Proof.
  induction cs as [|c cs IH]; cbn.
  - split; [intros _; left; intros c [] | reflexivity].
  - destruct sm as [m|]; [|rewrite IH; split; auto].
    destruct (cb_interval c) as [j|] eqn:Hc.
    + destruct (cb_interval m) as [i|] eqn:Hm.
      * destruct (Z.eqb i 0) eqn:Hi.
        -- apply Z.eqb_eq in Hi. subst i. split; [discriminate|].
           intros [H|[H|(m' & i & H & Hm' & Hi)]].
           ++ specialize (H c (or_introl eq_refl)). congruence.
           ++ discriminate.
           ++ injection H as <-. congruence.
        -- apply Z.eqb_neq in Hi. rewrite IH. split; [|intros _]; eauto 10.
      * split; [discriminate|].
        intros [H|[H|(m' & i & H & Hm' & Hi)]].
        -- specialize (H c (or_introl eq_refl)). congruence.
        -- discriminate.
        -- injection H as <-. congruence.
    + rewrite IH. split.
      * intros [H|[H|H]]; auto. left. intros c' [<-|Hin]; auto.
      * intros [H|[H|H]]; auto.
Qed.

Example prepare_callbacks_zero_interval :
  _prepare_callbacks (ArgOne every_five)
                     (quiet_state (with_smooth_interval (Some 0) plain_config))
  = (Raise ZeroDivisionError,
     quiet_state (with_smooth_interval (Some 0) plain_config)) /\
  fst (_prepare_callbacks (ArgList [ObjCallback no_interval_smooth;
                                    ObjCallback every_five])
                          (quiet_state plain_config))
  = Raise TypeError /\
  fst (_prepare_callbacks (ArgOne user1)
                          (quiet_state (with_smooth_interval (Some 0) plain_config)))
  = Ok (history, None).
Proof. repeat split. Qed.

(** A smoothing interval of 0 and a callback with an interval: [fit] raises
    [ZeroDivisionError] before anything is dispatched. *)
Example fit_zero_interval :
  let run := fit two_batches (Some 2) 1 (ArgOne every_five) 0 no_kwargs
                 (initialize (with_smooth_interval (Some 0) plain_config)) in
  fst run = Raise ZeroDivisionError /\ trace (snd run) = [] /\
  ops (snd run) = [].
Proof. vm_compute. repeat split. Qed.

(** ** What the pieces of the loop dispatch *)

Lemma keeps_refl s : keeps s s.
Proof. unfold keeps. tauto. Qed.

Lemma keeps_trans s1 s2 s3 : keeps s1 s2 -> keeps s2 s3 -> keeps s1 s3.
Proof.
  unfold keeps. intros (A1 & A2 & A3 & A4 & A5 & A6) (B1 & B2 & B3 & B4 & B5 & B6).
  repeat split; congruence.
Qed.

Lemma same_counters_trans s1 s2 s3 :
  same_counters s1 s2 -> same_counters s2 s3 -> same_counters s1 s3.
Proof.
  unfold same_counters. intros (A1 & A2 & A3) (B1 & B2 & B3).
  repeat split; congruence.
Qed.

Lemma silent_refl s : silent s s.
Proof. unfold silent, keeps, same_counters. tauto. Qed.

Lemma silent_trans s1 s2 s3 : silent s1 s2 -> silent s2 s3 -> silent s1 s3.
Proof.
  intros (K1 & C1 & T1 & S1) (K2 & C2 & T2 & S2).
  repeat split; try congruence;
    try (eapply keeps_trans; eassumption);
    try (eapply same_counters_trans; eassumption).
  all: destruct K1 as (? & ? & ? & ? & ? & ?), K2 as (? & ? & ? & ? & ? & ?),
         C1 as (? & ? & ?), C2 as (? & ? & ?); congruence.
Qed.

Lemma loss_backward_silent v s : silent s (snd (loss_backward v s)).
Proof.
  unfold loss_backward, bind, get, modify, emit, raise, ret. cbn.
  destruct (mp_on (mixed_precision_mode (cfg s))); destruct v; cbn;
    unfold silent, keeps, same_counters; cbn; repeat split; reflexivity.
Qed.

Lemma train_step_silent b s : silent s (snd (train_step b s)).
Proof.
  unfold train_step, bind at 1, get.
  unfold bind at 1.
  assert (Hrest : forall v d,
            silent s (snd (bind (loss_backward v)
                             (fun loss => bind (scale_detail (grad_accumulation_steps (cfg s)) d)
                                            (fun detail => ret (b, loss, detail))) s))).
  { intros v d. unfold bind at 1.
    pose proof (loss_backward_silent v s) as Hs.
    destruct (loss_backward v s) as [[v'|e] s1]; cbn [snd] in *; auto.
    unfold bind, scale_detail, raise, ret.
    destruct d; cbn; auto. destruct (Z.eqb _ 0); cbn; auto. }
  destruct (criterion (cfg s) b) as [q|d|l|]; unfold ret, raise.
  - apply Hrest.
  - destruct (dict_get "loss" d); [apply Hrest | apply silent_refl].
  - destruct l; [apply silent_refl | apply Hrest].
  - apply silent_refl.
Qed.

Lemma step_silent s : step s = (Ok tt, snd (step s)) /\ silent s (snd (step s)).
Proof.
  unfold step, bind, get, clip_gradients, emit, modify, ret. cbn.
  destruct (mp_on (mixed_precision_mode (cfg s))); cbn;
    destruct (clip_grad_norm (cfg s)); cbn;
    destruct (scheduler (cfg s)); cbn;
    try (destruct (negb (Qeq_bool _ _)); cbn);
    rewrite ?step_schedulers_ops; cbn;
    unfold silent, keeps, same_counters; cbn; repeat split; reflexivity.
Qed.

Lemma dispatch_run h logs s :
  exists s',
    dispatch h logs s = (Ok tt, s') /\ keeps s s' /\ same_counters s s' /\
    trace s' = trace s ++ [mkObs h (global_step s) (local_step s) (epoch s) logs] /\
    stop_training s'
    = run_hooks (dispatch_order (callbacks s)) (trace s') (stop_training s).
Proof.
  unfold dispatch, modify. eexists. split; [reflexivity|].
  unfold keeps, same_counters. cbn. repeat split; reflexivity.
Qed.

Ltac bind_inv H :=
  apply bind_inv in H;
  destruct H as [(? & ? & ? & H) | (? & H & ->)].

(** The same for a computation known to have returned. *)
Ltac bind_ok_inv H :=
  let Hd := fresh in
  apply bind_inv in H;
  destruct H as [(? & ? & ? & H) | (? & _ & Hd)]; [|discriminate Hd].

Lemma dispatches_within_nil s s' :
  keeps s s' -> same_counters s s' -> trace s' = trace s ->
  dispatches_within s s' [].
Proof.
  intros K C T. repeat split; try apply K; try apply C.
  - now rewrite app_nil_r.
  - constructor.
Qed.

Lemma dispatches_within_trans s1 s2 s3 e1 e2 :
  dispatches_within s1 s2 e1 -> dispatches_within s2 s3 e2 ->
  dispatches_within s1 s3 (e1 ++ e2).
Proof.
  intros (K1 & C1 & T1 & F1) (K2 & C2 & T2 & F2).
  split; [eapply keeps_trans; eassumption|].
  split; [eapply same_counters_trans; eassumption|].
  split; [rewrite T2, T1; now rewrite app_assoc|].
  apply Forall_app. split; [assumption|].
  destruct C1 as (Ce & Cl & Cg). now rewrite Ce, Cl, Cg in F2.
Qed.

Lemma silent_dispatches s s' : silent s s' -> dispatches_within s s' [].
Proof. intros (K & C & T & _). now apply dispatches_within_nil. Qed.

Lemma dispatch_within h logs s :
  in_accumulation h = true ->
  exists s' o, dispatch h logs s = (Ok tt, s') /\ dispatches_within s s' [o].
Proof.
  intros Hh. destruct (dispatch_run h logs s) as (s' & E & K & C & T & _).
  eexists. eexists. split; [eassumption|].
  repeat split; try apply K; try apply C; try eassumption.
  constructor; [|constructor]. cbn. repeat split. assumption.
Qed.

Lemma prepare_nextbatch_dispatches s r s' :
  _prepare_nextbatch s = (r, s') -> exists evs, dispatches_within s s' evs.
Proof.
  unfold _prepare_nextbatch, bind at 1, get.
  destruct (train_dataloader_iter s) as [|b rest] eqn:Hit.
  - destruct (dispatch_within on_dataloader_end [] s eq_refl)
      as (s1 & o & E & D).
    rewrite (bind_ok _ _ _ _ _ E).
    destruct (train_dataloader s) as [dl|] eqn:Hdl.
    + destruct (dl_batches dl) as [|b rest];
        unfold bind, modify, emit, raise, ret; cbn;
        intros H; inversion H; subst; clear H;
        exists ([o] ++ []); (eapply dispatches_within_trans; [eassumption|]);
        apply dispatches_within_nil; unfold keeps, same_counters; cbn; tauto.
    + unfold raise. intros H; inversion H; subst. eauto.
  - unfold bind, modify, emit, ret. cbn. intros H; inversion H; subst.
    exists []. apply dispatches_within_nil; unfold keeps, same_counters; cbn; tauto.
Qed.

Lemma accumulate_dispatches n : forall tl td out s r s',
  accumulate n tl td out s = (r, s') -> exists evs, dispatches_within s s' evs.
Proof.
  induction n as [|n IH]; intros tl td out s r s' H; cbn in H.
  - inversion H; subst. exists []. apply silent_dispatches, silent_refl.
  - bind_inv H.
    2:{ eapply prepare_nextbatch_dispatches; eassumption. }
    destruct (prepare_nextbatch_dispatches _ _ _ H0) as (e1 & D1).
    unfold bind at 1, modify at 1 in H.
    bind_inv H.
    2:{ pose proof (train_step_silent x (set_train_X (Some x) x0)) as Hs.
        rewrite H in Hs. cbn [snd] in Hs.
        exists (e1 ++ []). eapply dispatches_within_trans; [eassumption|].
        apply silent_dispatches.
        eapply silent_trans; [|eassumption].
        unfold silent, keeps, same_counters; cbn; tauto. }
    pose proof (train_step_silent x (set_train_X (Some x) x0)) as Hs.
    rewrite H1 in Hs. cbn [snd] in Hs.
    assert (D2 : dispatches_within s x2 (e1 ++ [])).
    { eapply dispatches_within_trans; [eassumption|].
      apply silent_dispatches.
      eapply silent_trans; [|eassumption].
      unfold silent, keeps, same_counters; cbn; tauto. }
    destruct (dispatch_within on_train_step_end [] x2 eq_refl)
      as (s3 & o & E3 & D3).
    rewrite (bind_ok _ _ _ _ _ E3) in H.
    destruct x1 as [[o1 loss] detail].
    apply IH in H. destruct H as (e4 & D4).
    eexists. eapply dispatches_within_trans; [|eassumption].
    eapply dispatches_within_trans; eassumption.
Qed.

Lemma step_body_events spe l s r s' :
  step_body spe l s = (r, s') ->
  keeps s s' /\ epoch s' = epoch s /\ local_step s' = l /\
  global_step s' = epoch s * spe + l /\
  exists evs,
    trace s' = trace s ++ evs /\
    step_events (epoch s * spe + l) l (epoch s)
                match r with Ok _ => true | Raise _ => false end evs.
Proof.
  intros H.
  unfold step_body, bind at 1 2 3 4 5, modify, _log_init,
    bind at 1, get, ret at 1, dispatch, modify in H. cbn in H.
  match type of H with bind _ _ ?st = _ => remember st as s1 eqn:Hs1 end.
  assert (K1 : keeps s s1) by (subst s1; unfold keeps; cbn; tauto).
  assert (Ce : epoch s1 = epoch s) by (subst s1; reflexivity).
  assert (Cl : local_step s1 = l) by (subst s1; reflexivity).
  assert (Cg : global_step s1 = epoch s * spe + l) by (subst s1; reflexivity).
  assert (T1 : exists ob, trace s1 = trace s ++ [ob] /\ hook ob = on_batch_begin /\
                          at_counters (epoch s * spe + l) l (epoch s) ob).
  { subst s1. cbn. eexists. split; [reflexivity|]. unfold at_counters. cbn. tauto. }
  destruct T1 as (ob & T1 & Hob & Aob). clear Hs1.
  assert (Fin : forall s2 mid tl (c : bool),
             dispatches_within s1 s2 mid -> keeps s2 s' -> same_counters s2 s' ->
             trace s' = trace s2 ++ tl ->
             (if c then exists oe, tl = [oe] /\ hook oe = on_batch_end /\
                                   at_counters (epoch s * spe + l) l (epoch s) oe
              else tl = []) ->
             keeps s s' /\ epoch s' = epoch s /\ local_step s' = l /\
             global_step s' = epoch s * spe + l /\
             exists evs, trace s' = trace s ++ evs /\
                         step_events (epoch s * spe + l) l (epoch s) c evs).
  { intros s2 mid tl c (K2 & (C2e & C2l & C2g) & T2 & F2) K3 (C3e & C3l & C3g) T3 Htl.
    split; [eapply keeps_trans; [|eassumption]; eapply keeps_trans; eassumption|].
    split; [congruence|]. split; [congruence|]. split; [congruence|].
    exists (ob :: mid ++ tl). split.
    - rewrite T3, T2, T1. rewrite <- !app_assoc. reflexivity.
    - exists ob, mid, tl. rewrite Cg, Cl, Ce in F2. auto. }
  bind_inv H.
  2:{ destruct (accumulate_dispatches _ _ _ _ _ _ _ H) as (mid & D).
      eapply (Fin s' mid [] false); eauto using keeps_refl.
      - unfold same_counters; tauto.
      - now rewrite app_nil_r. }
  destruct (accumulate_dispatches _ _ _ _ _ _ _ H0) as (mid & D).
  destruct x as [[tr_loss tr_detail] output].
  destruct (step_silent x0) as (Est & Sst).
  rewrite (bind_ok _ _ _ _ _ Est) in H.
  set (s3 := snd (step x0)) in *.
  assert (D3 : dispatches_within s1 s3 (mid ++ [])).
  { eapply dispatches_within_trans; [eassumption|]. now apply silent_dispatches. }
  rewrite app_nil_r in D3.
  destruct output as [out|].
  - unfold bind, ret in H. inversion H; subst; clear H.
    pose proof D3 as (_ & (D3e & D3l & D3g) & _).
    eapply (Fin s3 mid [_] true).
    + exact D3.
    + unfold keeps; cbn; tauto.
    + unfold same_counters; cbn; tauto.
    + cbn. reflexivity.
    + eexists. split; [reflexivity|]. split; [reflexivity|].
      unfold at_counters. cbn. repeat split; congruence.
  - unfold bind at 1, raise at 1 in H. inversion H; subst. clear H.
    eapply (Fin _ mid [] false); eauto using keeps_refl.
    + unfold same_counters; tauto.
    + now rewrite app_nil_r.
Qed.

Lemma step_loop_events spe ls : forall logs s r s',
  step_loop spe ls logs s = (r, s') ->
  keeps s s' /\ epoch s' = epoch s /\
  exists evs,
    trace s' = trace s ++ evs /\
    steps_events spe (epoch s) ls (is_ok r) evs /\
    (evs = [] -> same_counters s s' /\ stop_training s' = stop_training s) /\
    (evs <> [] -> global_step s' = epoch s * spe + local_step s').
Proof.
  induction ls as [|l ls IH]; intros logs s r s' H; cbn in H.
  - inversion H; subst. split; [apply keeps_refl|]. split; [reflexivity|].
    exists []. rewrite app_nil_r. split; [reflexivity|].
    split; [constructor|]. split; [|congruence].
    intros _. unfold same_counters. tauto.
  - bind_inv H.
    + destruct (step_body_events _ _ _ _ _ H0) as (K1 & Ce & Cl & Cg & evs1 & T1 & E1).
      cbn in E1.
      destruct (IH _ _ _ _ H) as (K2 & Ce2 & evs2 & T2 & E2 & N2 & P2).
      split; [eapply keeps_trans; eassumption|]. split; [congruence|].
      exists (evs1 ++ evs2).
      split; [rewrite T2, T1; now rewrite app_assoc|].
      split; [rewrite Ce in E2; now constructor|].
      split.
      * intros Hnil. apply app_eq_nil in Hnil. destruct Hnil as (-> & _).
        destruct E1 as (? & ? & ? & Hx & _). discriminate.
      * intros _. destruct evs2 as [|o evs2].
        -- destruct (N2 eq_refl) as ((_ & C2l & C2g) & _). congruence.
        -- rewrite P2 by discriminate. congruence.
    + destruct (step_body_events _ _ _ _ _ H) as (K1 & Ce & Cl & Cg & evs1 & T1 & E1).
      cbn in E1.
      split; [assumption|]. split; [assumption|].
      exists evs1. split; [assumption|].
      split; [now constructor|].
      split.
      * intros ->. destruct E1 as (? & ? & ? & Hx & _). discriminate.
      * intros _. congruence.
Qed.

Lemma epoch_body_events e logs s r s' spe :
  steps_per_epoch s = Some spe ->
  epoch_body e logs s = (r, s') ->
  keeps s s' /\
  exists evs,
    trace s' = trace s ++ evs /\
    epoch_events spe (resume_epoch s) (resume_step s) e (counters_of s)
                 (is_ok r) evs (counters_of s') /\
    (is_ok r = true ->
     exists b, stop_training s'
               = run_hooks (dispatch_order (callbacks s)) (trace s') b).
Proof.
  intros Hspe H.
  unfold epoch_body, bind at 1 2 3, modify, get, dispatch, modify in H.
  cbn in H. rewrite Hspe in H.
  match type of H with bind _ _ ?st = _ => remember st as s1 eqn:Hs1 end.
  assert (K1 : keeps s s1) by (subst s1; unfold keeps; cbn; tauto).
  assert (Ce : epoch s1 = e) by (subst s1; reflexivity).
  assert (Cl : local_step s1 = local_step s) by (subst s1; reflexivity).
  assert (Cg : global_step s1 = global_step s) by (subst s1; reflexivity).
  assert (T1 : trace s1 = trace s ++
                 [mkObs on_epoch_begin (global_step s) (local_step s) e []])
    by (subst s1; reflexivity).
  clear Hs1.
  bind_inv H.
  - destruct (step_loop_events _ _ _ _ _ _ H0) as (K2 & Ce2 & evs & T2 & E2 & N2 & P2).
    cbn in E2. rewrite Ce in E2, P2.
    unfold bind, ret in H. injection H as Hr Hs'. subst r s'.
    split.
    { eapply keeps_trans; [exact K1|]. eapply keeps_trans; [exact K2|].
      unfold keeps; cbn; tauto. }
    eexists. split.
    { cbn. rewrite T2, T1. rewrite <- !app_assoc. cbn. reflexivity. }
    split.
    + exists evs, [obs_at on_epoch_end (mkCounters (global_step x0) (local_step x0) e) x],
        true.
      split; [rewrite Ce2, Ce; reflexivity|].
      split; [assumption|].
      split; [cbn; congruence|].
      split.
      * intros Hn. destruct (N2 Hn) as ((_ & Hl & Hg) & _). cbn. split; congruence.
      * split; [cbn; exact P2|]. cbn. split; [reflexivity|].
        eexists. unfold counters_of. cbn. rewrite Ce2, Ce. reflexivity.
    + intros _. cbn. destruct K2 as (_ & _ & _ & _ & K2c & _).
      destruct K1 as (_ & _ & _ & _ & K1c & _).
      rewrite K2c, K1c. eauto.
  - destruct (step_loop_events _ _ _ _ _ _ H) as (K2 & Ce2 & evs & T2 & E2 & N2 & P2).
    cbn in E2. rewrite Ce in E2, P2.
    split; [eapply keeps_trans; eassumption|].
    exists (mkObs on_epoch_begin (global_step s) (local_step s) e [] :: evs ++ []).
    split.
    { rewrite T2, T1, app_nil_r. rewrite <- app_assoc. reflexivity. }
    split; [|discriminate].
    exists evs, [], false.
    split; [reflexivity|]. split; [assumption|].
    split; [cbn; congruence|].
    split.
    + intros Hn. destruct (N2 Hn) as ((_ & Hl & Hg) & _). cbn. split; congruence.
    + split; [cbn; exact P2|]. cbn. split; reflexivity.
Qed.

Lemma epoch_loop_events spe es : forall logs s r s',
  steps_per_epoch s = Some spe ->
  epoch_loop es logs s = (r, s') ->
  keeps s s' /\
  exists k evs,
    trace s' = trace s ++ evs /\
    epochs_events spe (resume_epoch s) (resume_step s)
                  (dispatch_order (callbacks s)) (trace s) es (counters_of s)
                  k evs (counters_of s') /\
    (is_ok r = false <-> k = Failed).
Proof.
  induction es as [|e es IH]; intros logs s r s' Hspe H; cbn in H.
  - inversion H; subst. split; [apply keeps_refl|].
    exists Finished, []. rewrite app_nil_r. split; [reflexivity|].
    split; [constructor|]. cbn. split; discriminate.
  - bind_inv H.
    + destruct (epoch_body_events _ _ _ _ _ _ Hspe H0) as (K1 & evs1 & T1 & E1 & St1).
      cbn in E1. destruct (St1 eq_refl) as (b & Hb).
      unfold bind at 1, get in H.
      destruct (stop_training x0) eqn:Hstop.
      * unfold ret in H. injection H as Hr Hs'. subst r s'.
        split; [assumption|].
        exists Stopped, evs1. split; [assumption|].
        split; [|cbn; split; discriminate].
        apply epochs_stop; [assumption|].
        exists b. rewrite <- T1. congruence.
      * pose proof K1 as (Kc & Ks & Krs & Kre & Kcb & _).
        rewrite <- Ks in Hspe.
        destruct (IH _ _ _ _ Hspe H) as (K2 & k & evs2 & T2 & E2 & Hk).
        split; [eapply keeps_trans; eassumption|].
        exists k, (evs1 ++ evs2).
        split; [rewrite T2, T1; now rewrite app_assoc|].
        split; [|assumption].
        rewrite Krs, Kre, Kcb, T1 in E2.
        eapply epochs_next; try eassumption.
        exists b. rewrite <- T1. congruence.
    + destruct (epoch_body_events _ _ _ _ _ _ Hspe H) as (K1 & evs1 & T1 & E1 & _).
      cbn in E1.
      split; [assumption|].
      exists Failed, evs1. split; [assumption|].
      split; [now apply epochs_fail|]. cbn. tauto.
Qed.

Lemma prepare_inputs_run dl steps n_epochs v s r s' :
  _prepare_inputs dl steps n_epochs v s = (r, s') ->
  cfg s' = cfg s /\ resume_step s' = resume_step s /\
  resume_epoch s' = resume_epoch s /\ trace s' = trace s /\
  same_counters s s' /\
  (is_ok r = true -> exists spe, steps_per_epoch s' = Some spe).
Proof.
  unfold _prepare_inputs, same_counters.
  destruct (dl_len dl) as [len|], steps as [n|];
    unfold bind, raise, ret, get, modify; cbn;
    try (destruct (Z.eqb (grad_accumulation_steps (cfg s)) 0); cbn);
    intros H; injection H as Hr Hs; subst r s'; cbn;
    repeat split; eauto; discriminate.
Qed.

Lemma prepare_callbacks_run arg s r s' :
  _prepare_callbacks arg s = (r, s') ->
  cfg s' = cfg s /\ resume_step s' = resume_step s /\
  resume_epoch s' = resume_epoch s /\ trace s' = trace s /\
  same_counters s s' /\ steps_per_epoch s' = steps_per_epoch s.
Proof.
  unfold _prepare_callbacks, same_counters.
  destruct (check_callbacks _) as [cs|];
    unfold bind, raise, ret, get, modify; cbn;
    try (destruct (check_intervals _ _) as [u|e]; cbn);
    try (destruct (verbose s) as [v0|]; cbn);
    intros H; injection H as Hr Hs; subst r s'; cbn;
    repeat split; reflexivity.
Qed.

Lemma fit_run dl steps n_epochs cbs v s r s' :
  _fit dl steps n_epochs cbs v s = (r, s') ->
  cfg s' = cfg s /\ resume_step s' = resume_step s /\
  resume_epoch s' = resume_epoch s /\
  ((trace s' = trace s /\ is_ok r = false) \/
   exists spe evs,
     steps_per_epoch s' = Some spe /\ trace s' = trace s ++ evs /\
     fit_events spe (resume_epoch s) (resume_step s) n_epochs
                (dispatch_order (callbacks s')) (trace s) (is_ok r) evs).
Proof.
  intros H. unfold _fit in H.
  bind_inv H.
  2:{ destruct (prepare_inputs_run _ _ _ _ _ _ _ H) as (A1 & A2 & A3 & A4 & _).
      repeat split; auto. }
  destruct (prepare_inputs_run _ _ _ _ _ _ _ H0)
    as (A1 & A2 & A3 & A4 & A5 & A6).
  destruct (A6 eq_refl) as (spe & Hspe). clear A6.
  bind_inv H.
  2:{ destruct (prepare_callbacks_run _ _ _ _ H) as (B1 & B2 & B3 & B4 & _).
      repeat split; try congruence. left. split; [congruence | reflexivity]. }
  destruct (prepare_callbacks_run _ _ _ _ H1) as (B1 & B2 & B3 & B4 & B5 & B6).
  destruct (dispatch_run on_train_begin [] x2) as (s3 & E3 & K3 & C3 & T3 & _).
  rewrite (bind_ok _ _ _ _ _ E3) in H.
  unfold bind at 1, _log_init at 1, bind at 1, get at 1, ret at 1 in H.
  unfold bind at 1, get at 1 in H.
  pose proof K3 as (Kc & Ks & Krs & Kre & Kcb & _).
  assert (Hspe3 : steps_per_epoch s3 = Some spe) by congruence.
  bind_inv H.
  - destruct (epoch_loop_events _ _ _ _ _ _ Hspe3 H2)
      as (K4 & k & loop & T4 & E4 & Hk).
    destruct (dispatch_run on_train_end x3 x4) as (s5 & E5 & K5 & C5 & T5 & _).
    rewrite (bind_ok _ _ _ _ _ E5) in H. unfold ret in H.
    injection H as Hr Hs'. subst r s'.
    pose proof (keeps_trans _ _ _ K3 (keeps_trans _ _ _ K4 K5))
      as (Lc & Ls & Lrs & Lre & Lcb & _).
    split; [congruence|]. split; [congruence|]. split; [congruence|].
    right. exists spe, (obs_at on_train_begin (counters_of x2) [] ::
                          loop ++ [obs_at on_train_end (counters_of x4) x3]).
    split; [congruence|].
    split.
    { rewrite T5, T4, T3, B4, A4. rewrite <- !app_assoc. reflexivity. }
    exists (counters_of x2), (counters_of x4), k, loop,
      [obs_at on_train_end (counters_of x4) x3].
    split; [reflexivity|].
    split.
    + rewrite Krs, Kre, Kcb, T3 in E4.
      destruct C3 as (C3e & C3l & C3g).
      replace (counters_of s3) with (counters_of x2) in E4
        by (unfold counters_of; congruence).
      rewrite Lcb. rewrite B2, B3, A2, A3, B4, A4 in E4. exact E4.
    + cbn. split; [|eauto]. intros Hf. apply Hk in Hf. discriminate.
  - destruct (epoch_loop_events _ _ _ _ _ _ Hspe3 H)
      as (K4 & k & loop & T4 & E4 & Hk).
    pose proof (keeps_trans _ _ _ K3 K4) as (Lc & Ls & Lrs & Lre & Lcb & _).
    split; [congruence|]. split; [congruence|]. split; [congruence|].
    right. exists spe, (obs_at on_train_begin (counters_of x2) [] :: loop ++ []).
    split; [congruence|].
    split.
    { rewrite T4, T3, B4, A4, app_nil_r. rewrite <- !app_assoc. reflexivity. }
    exists (counters_of x2), (counters_of s'), k, loop, [].
    split; [reflexivity|].
    split.
    + rewrite Krs, Kre, Kcb, T3 in E4.
      destruct C3 as (C3e & C3l & C3g).
      replace (counters_of s3) with (counters_of x2) in E4
        by (unfold counters_of; congruence).
      rewrite Lcb. rewrite B2, B3, A2, A3, B4, A4 in E4. exact E4.
    + cbn. split; [|reflexivity]. now apply Hk.
Qed.

(** ** Lists, ranges and the dispatch log *)

Lemma hook_eqb_eq a b : hook_eqb a b = true <-> a = b.
Proof. destruct a, b; cbn; split; congruence. Qed.

Lemma hook_eqb_refl a : hook_eqb a a = true.
Proof. now apply hook_eqb_eq. Qed.

Lemma range_nil a b : b <= a -> range a b = [].
Proof.
  intros H. unfold range. replace (Z.to_nat (b - a)) with 0%nat by lia.
  reflexivity.
Qed.

Lemma range_cons a b : a < b -> range a b = a :: range (a + 1) b.
Proof.
  intros H. unfold range.
  replace (Z.to_nat (b - a)) with (S (Z.to_nat (b - (a + 1)))) by lia.
  cbn [seq map]. f_equal; [lia|].
  rewrite <- seq_shift, map_map. apply map_ext. intros i. lia.
Qed.

Lemma range_In a b x : In x (range a b) <-> a <= x < b.
Proof.
  unfold range. rewrite in_map_iff. split.
  - intros (i & <- & Hi). apply in_seq in Hi. lia.
  - intros H. exists (Z.to_nat (x - a)). split; [lia|].
    apply in_seq. lia.
Qed.

Lemma range_last a b : a < b -> last (range a b) 0 = b - 1.
Proof.
  intros H. unfold range.
  replace (Z.to_nat (b - a)) with (S (Z.to_nat (b - a - 1))) by lia.
  rewrite seq_S, map_app. cbn [map]. rewrite last_last. lia.
Qed.

Lemma range_sorted a b : StronglySorted Z.lt (range a b).
Proof.
  remember (Z.to_nat (b - a)) as n eqn:Hn. revert a Hn.
  induction n as [|n IH]; intros a Hn.
  - rewrite range_nil by lia. constructor.
  - rewrite range_cons by lia. constructor.
    + apply IH. lia.
    + apply Forall_forall. intros x Hx. apply range_In in Hx. lia.
Qed.

Lemma last_obs_app h a b :
  last_obs h (a ++ b)
  = match last_obs h b with Some o => Some o | None => last_obs h a end.
Proof.
  unfold last_obs. rewrite filter_app, rev_app_distr.
  destruct (rev (filter _ b)); reflexivity.
Qed.

Lemma last_obs_snoc h tr o : hook o = h -> last_obs h (tr ++ [o]) = Some o.
Proof.
  intros <-. rewrite last_obs_app. unfold last_obs. cbn.
  now rewrite hook_eqb_refl.
Qed.

Lemma last_obs_In h tr o : last_obs h tr = Some o -> In o tr /\ hook o = h.
Proof.
  unfold last_obs. intros H.
  assert (Hin : In o (rev (filter (fun o => hook_eqb (hook o) h) tr))).
  { destruct (rev _); [discriminate|]. injection H as ->. now left. }
  apply in_rev, filter_In in Hin. destruct Hin as (Hin & Hh).
  split; [assumption | now apply hook_eqb_eq].
Qed.

Lemma last_obs_none h tr :
  Forall (fun o => hook o <> h) tr -> last_obs h tr = None.
Proof.
  intros F. destruct (last_obs h tr) as [o|] eqn:E; [|reflexivity].
  apply last_obs_In in E. destruct E as (Hin & Hh).
  rewrite Forall_forall in F. now apply F in Hin.
Qed.

Lemma last_obs_cons_other h o tr :
  hook o <> h -> last_obs h (o :: tr) = last_obs h tr.
Proof.
  intros Hne. change (o :: tr) with ([o] ++ tr). rewrite last_obs_app.
  destruct (last_obs h tr); [reflexivity|].
  apply last_obs_none. constructor; [assumption | constructor].
Qed.

Lemma stepped_app a b : stepped (a ++ b) = stepped a || stepped b.
Proof. apply existsb_app. Qed.

Lemma stepped_true tr :
  stepped tr = true <-> exists o, In o tr /\ hook o = on_batch_end.
Proof.
  unfold stepped. rewrite existsb_exists. split; intros (o & Hin & Hh);
    exists o; (split; [assumption | now apply hook_eqb_eq]).
Qed.

Lemma agree_after_step_app spe seen a b :
  agree_after_step spe seen (a ++ b) <->
  agree_after_step spe seen a /\ agree_after_step spe (seen || stepped a) b.
Proof.
  revert seen. induction a as [|o a IH]; intros seen; cbn.
  - rewrite orb_false_r. tauto.
  - rewrite IH, orb_assoc. tauto.
Qed.

(** The recursive check says what the statements below spell out. *)
Lemma agree_after_step_spec spe tr :
  agree_after_step spe false tr ->
  forall pre o post,
    tr = pre ++ o :: post -> hook o <> on_epoch_begin ->
    hook o = on_batch_end \/ (exists o', In o' pre /\ hook o' = on_batch_end) ->
    counters_agree spe o.
Proof.
  intros H pre o post -> Hne Hc.
  apply agree_after_step_app in H. destruct H as (_ & H). cbn in H.
  destruct H as (H & _). apply H; [assumption|].
  destruct Hc as [Hc|Hc]; [now left | right].
  now apply stepped_true.
Qed.

Lemma agree_after_step_all spe seen tr :
  Forall (counters_agree spe) tr -> agree_after_step spe seen tr.
Proof.
  intros F. revert seen. induction F as [|o tr Ho F IH]; intros seen; cbn; auto.
Qed.

(** ** One iteration, one step loop *)

Lemma in_accumulation_in_step h : in_accumulation h = true -> in_step h = true.
Proof. destruct h; cbn; congruence. Qed.

Lemma step_events_all g l e c evs :
  step_events g l e c evs ->
  Forall (fun o => in_step (hook o) = true /\ at_counters g l e o) evs.
Proof.
  intros (ob & mid & tl & -> & Hob & Aob & Fmid & Htl).
  constructor; [rewrite Hob; auto|].
  apply Forall_app. split.
  - eapply Forall_impl; [|exact Fmid]. cbn. intros o (Ho & Ao).
    split; [now apply in_accumulation_in_step | assumption].
  - destruct c.
    + destruct Htl as (oe & -> & Hoe & Aoe). constructor; [|constructor].
      rewrite Hoe. auto.
    + subst tl. constructor.
Qed.

Lemma step_events_not_nil g l e c evs : step_events g l e c evs -> evs <> [].
Proof. intros (ob & mid & tl & -> & _). discriminate. Qed.

Lemma filter_none {A} (f : A -> bool) l :
  Forall (fun x => f x = false) l -> filter f l = [].
Proof.
  induction 1 as [|x l Hx F IH]; cbn; [reflexivity|]. now rewrite Hx.
Qed.

Lemma step_events_begins g l e c evs e' :
  step_events g l e c evs ->
  batch_begins_of e' evs = if Z.eqb e e' then [l] else [].
Proof.
  intros (ob & mid & tl & -> & Hob & (Ag & Al & Ae) & Fmid & Htl).
  unfold batch_begins_of. cbn. rewrite Hob, Ae. cbn.
  assert (Hrest : filter (fun o => hook_eqb (hook o) on_batch_begin
                                   && Z.eqb (o_epoch o) e') (mid ++ tl) = []).
  { apply filter_none, Forall_app. split.
    - eapply Forall_impl; [|exact Fmid]. cbn. intros o (Ho & _).
      destruct (hook o); cbn in *; congruence.
    - destruct c.
      + destruct Htl as (oe & -> & Hoe & _). constructor; [|constructor].
        now rewrite Hoe.
      + subst tl. constructor. }
  destruct (Z.eqb e e'); cbn; rewrite Hrest; cbn; congruence.
Qed.

Lemma step_events_last g l e evs :
  step_events g l e true evs ->
  exists evs0 oe, evs = evs0 ++ [oe] /\ hook oe = on_batch_end /\
                  at_counters g l e oe.
Proof.
  intros (ob & mid & tl & -> & _ & _ & _ & (oe & -> & Hoe & Aoe)).
  exists (ob :: mid), oe. rewrite <- app_comm_cons. auto.
Qed.

Lemma steps_events_all spe e ls c evs :
  steps_events spe e ls c evs ->
  Forall (fun o => in_step (hook o) = true /\ o_epoch o = e /\
                   counters_agree spe o /\ In (o_local_step o) ls) evs.
Proof.
  assert (Hone : forall l ls c evs,
             step_events (e * spe + l) l e c evs ->
             Forall (fun o => in_step (hook o) = true /\ o_epoch o = e /\
                              counters_agree spe o /\
                              In (o_local_step o) (l :: ls)) evs).
  { intros l ls0 c0 evs0 H. apply step_events_all in H.
    eapply Forall_impl; [|exact H]. cbn. intros o (Ho & Ag & Al & Ae).
    unfold counters_agree. rewrite Ag, Al, Ae. auto. }
  induction 1 as [|l ls c evs1 evs2 H1 H2 IH|l ls evs1 H1].
  - constructor.
  - apply Forall_app. split; [eapply Hone; eassumption|].
    eapply Forall_impl; [|exact IH]. cbn. intros o (? & ? & ? & ?).
    auto.
  - eapply Hone; eassumption.
Qed.

Lemma steps_events_nil spe e ls c evs :
  steps_events spe e ls c evs -> (evs = [] <-> ls = []).
Proof.
  induction 1 as [|l ls c evs1 evs2 H1 H2 IH|l ls evs1 H1].
  - tauto.
  - apply step_events_not_nil in H1. split; [|discriminate].
    intros Hn. apply app_eq_nil in Hn. tauto.
  - apply step_events_not_nil in H1. split; [tauto | discriminate].
Qed.

Lemma batch_begins_of_app e a b :
  batch_begins_of e (a ++ b) = batch_begins_of e a ++ batch_begins_of e b.
Proof. unfold batch_begins_of. now rewrite filter_app, map_app. Qed.

Lemma steps_events_begins spe e ls evs :
  steps_events spe e ls true evs -> batch_begins_of e evs = ls.
Proof.
  remember true as c eqn:Hc.
  induction 1 as [|l ls c evs1 evs2 H1 H2 IH|l ls evs1 H1]; [reflexivity| |discriminate].
  rewrite batch_begins_of_app, (step_events_begins _ _ _ _ _ e H1), Z.eqb_refl.
  cbn. now rewrite IH.
Qed.

Lemma batch_begins_of_other e' evs :
  Forall (fun o => o_epoch o <> e') evs -> batch_begins_of e' evs = [].
Proof.
  intros F. unfold batch_begins_of. rewrite filter_none; [reflexivity|].
  eapply Forall_impl; [|exact F]. cbn. intros o Ho.
  apply Z.eqb_neq in Ho. rewrite Ho. apply andb_false_r.
Qed.

Lemma steps_events_last spe e ls evs :
  steps_events spe e ls true evs -> ls <> [] ->
  exists evs0 oe, evs = evs0 ++ [oe] /\ hook oe = on_batch_end /\
                  o_global_step oe = e * spe + last ls 0.
Proof.
  remember true as c eqn:Hc.
  induction 1 as [|l ls c evs1 evs2 H1 H2 IH|l ls evs1 H1];
    intros Hne; [congruence| |discriminate].
  destruct ls as [|l' ls].
  - inversion H2; subst. rewrite app_nil_r.
    destruct (step_events_last _ _ _ _ H1) as (evs0 & oe & -> & Hoe & Ag & _).
    exists evs0, oe. cbn. auto.
  - destruct (IH Hc) as (evs0 & oe & -> & Hoe & Hg); [discriminate|].
    exists (evs1 ++ evs0), oe. rewrite app_assoc.
    split; [reflexivity|]. split; [assumption|]. exact Hg.
Qed.

(** ** One epoch *)

Section EpochFacts.
Variables spe re rs : Z.

Lemma epoch_events_all e c0 cpl evs c1 :
  epoch_events spe re rs e c0 cpl evs c1 ->
  Forall (fun o => o_epoch o = e /\ hook o <> on_train_begin /\
                   hook o <> on_train_end /\
                   (in_step (hook o) = true ->
                    counters_agree spe o /\
                    epoch_start re rs e <= o_local_step o < spe)) evs.
Proof.
  intros (evsS & tl & c & -> & Hs & He & _ & _ & Htl).
  constructor; [cbn; repeat split; try discriminate|].
  apply Forall_app. split.
  - apply steps_events_all in Hs.
    eapply Forall_impl; [|exact Hs]. cbn. intros o (Ho & Hoe & Hag & Hin).
    apply range_In in Hin.
    repeat split; try assumption; try (intros E; rewrite E in Ho; discriminate);
      lia.
  - destruct cpl.
    + destruct Htl as (_ & logs & ->). constructor; [|constructor].
      cbn. repeat split; try assumption; discriminate.
    + destruct Htl as (_ & ->). constructor.
Qed.

Lemma epoch_events_stepped e c0 cpl evs c1 :
  epoch_events spe re rs e c0 cpl evs c1 ->
  stepped evs = true -> epoch_start re rs e < spe.
Proof.
  intros H Hst. apply epoch_events_all in H.
  apply stepped_true in Hst. destruct Hst as (o & Hin & Ho).
  rewrite Forall_forall in H. destruct (H o Hin) as (_ & _ & _ & Hb).
  rewrite Ho in Hb. specialize (Hb eq_refl). lia.
Qed.

Lemma epoch_events_steps_nonempty e c0 cpl evs c1 :
  epoch_events spe re rs e c0 cpl evs c1 ->
  (stepped evs = true \/ (cpl = true /\ epoch_start re rs e < spe)) ->
  c_global c1 = e * spe + c_local c1.
Proof.
  intros H Hcond.
  assert (Hlt : epoch_start re rs e < spe).
  { destruct Hcond as [Hst|(_ & Hlt)]; [|assumption].
    eapply epoch_events_stepped; eassumption. }
  destruct H as (evsS & tl & c & -> & Hs & He & _ & Hne & Htl).
  apply Hne. intros Hn. apply (steps_events_nil _ _ _ _ _ Hs) in Hn.
  rewrite range_cons in Hn by assumption. discriminate.
Qed.

Lemma epoch_events_final e c0 cpl evs c1 :
  epoch_events spe re rs e c0 cpl evs c1 ->
  (stepped evs = true \/ (cpl = true /\ epoch_start re rs e < spe)) ->
  counters_ok spe c1.
Proof.
  intros H Hcond. unfold counters_ok.
  rewrite (epoch_events_steps_nonempty _ _ _ _ _ H Hcond).
  destruct H as (evsS & tl & c & _ & _ & He & _). now rewrite He.
Qed.

Lemma epoch_events_agree e c0 cpl evs c1 seen :
  epoch_events spe re rs e c0 cpl evs c1 ->
  (seen = true -> epoch_start re rs e < spe) ->
  agree_after_step spe seen evs.
Proof.
  intros H Hseen.
  pose proof H as (evsS & tl & c & -> & Hs & He & _ & Hne & Htl).
  cbn. split; [intros Hx; now elim Hx|].
  rewrite orb_false_r. apply agree_after_step_app. split.
  - apply agree_after_step_all. apply steps_events_all in Hs.
    eapply Forall_impl; [|exact Hs]. cbn. tauto.
  - destruct cpl.
    + destruct Htl as (-> & logs & ->). cbn. split; [|exact I].
      intros _ [Hx|Hx]; [discriminate|].
      unfold counters_agree. cbn. rewrite He. apply Hne.
      intros Hn. subst evsS. cbn in Hx. rewrite orb_false_r in Hx.
      apply Hseen in Hx.
      pose proof (proj1 (steps_events_nil _ _ _ _ _ Hs) eq_refl) as Hf.
      rewrite range_cons in Hf by assumption. discriminate.
    + destruct Htl as (_ & ->). exact I.
Qed.

Lemma epoch_events_begins e c0 evs c1 :
  epoch_events spe re rs e c0 true evs c1 ->
  batch_begins_of e evs = range (epoch_start re rs e) spe.
Proof.
  intros (evsS & tl & c & -> & Hs & He & _ & _ & (-> & logs & ->)).
  change (?a :: ?l ++ ?t) with ([a] ++ l ++ t).
  rewrite !batch_begins_of_app. cbn.
  rewrite (steps_events_begins _ _ _ _ Hs). apply app_nil_r.
Qed.

Lemma epoch_events_end e c0 cpl evs c1 oe :
  epoch_events spe re rs e c0 cpl evs c1 ->
  In oe evs -> hook oe = on_epoch_end -> cpl = true.
Proof.
  intros (evsS & tl & c & -> & Hs & He & _ & _ & Htl) Hin Hoe.
  destruct cpl; [reflexivity|]. destruct Htl as (_ & ->).
  rewrite app_nil_r in Hin. destruct Hin as [<-|Hin]; [discriminate|].
  apply steps_events_all in Hs. rewrite Forall_forall in Hs.
  destruct (Hs oe Hin) as (Hx & _). rewrite Hoe in Hx. discriminate.
Qed.

Lemma epoch_events_complete e c0 evs c1 :
  epoch_events spe re rs e c0 true evs c1 ->
  exists pre oe, evs = pre ++ [oe] /\ hook oe = on_epoch_end /\ o_epoch oe = e.
Proof.
  intros (evsS & tl & c & -> & Hs & He & _ & _ & (_ & logs & ->)).
  exists (mkObs on_epoch_begin (c_global c0) (c_local c0) e [] :: evsS),
    (obs_at on_epoch_end c1 logs).
  rewrite <- app_comm_cons. auto.
Qed.

Lemma epoch_events_last e c0 evs c1 :
  epoch_events spe re rs e c0 true evs c1 ->
  epoch_start re rs e < spe ->
  exists o, last_obs on_batch_end evs = Some o /\
            o_global_step o = e * spe + spe - 1.
Proof.
  intros (evsS & tl & c & -> & Hs & He & _ & _ & (-> & logs & ->)) Hlt.
  destruct (steps_events_last _ _ _ _ Hs) as (evs0 & o & -> & Ho & Hg).
  { rewrite range_cons by assumption. discriminate. }
  exists o. split.
  - rewrite last_obs_cons_other by discriminate.
    rewrite last_obs_app. cbn.
    now rewrite last_obs_snoc.
  - rewrite Hg, range_last by assumption. lia.
Qed.
End EpochFacts.

(** ** The epoch loop *)

Section LoopFacts.
Variables spe re rs : Z.
Variable cbs : list Callback.

Lemma epoch_start_other e : e <> re -> epoch_start re rs e = 0.
Proof.
  intros H. unfold epoch_start. apply Z.eqb_neq in H. now rewrite H.
Qed.

Lemma epoch_start_nonneg e : 0 <= rs -> 0 <= epoch_start re rs e.
Proof. intros H. unfold epoch_start. destruct (Z.eqb e re); lia. Qed.

Lemma epochs_events_all tr es c0 k evs c1 :
  epochs_events spe re rs cbs tr es c0 k evs c1 ->
  Forall (fun o => In (o_epoch o) es /\ hook o <> on_train_begin /\
                   hook o <> on_train_end /\
                   (in_step (hook o) = true ->
                    counters_agree spe o /\
                    epoch_start re rs (o_epoch o) <= o_local_step o < spe)) evs.
Proof.
  assert (Hone : forall e es c0 cpl evs c1,
             epoch_events spe re rs e c0 cpl evs c1 ->
             Forall (fun o => In (o_epoch o) (e :: es) /\
                              hook o <> on_train_begin /\
                              hook o <> on_train_end /\
                              (in_step (hook o) = true ->
                               counters_agree spe o /\
                               epoch_start re rs (o_epoch o) <= o_local_step o < spe))
                    evs).
  { intros e es0 c cpl evs0 c' H. apply epoch_events_all in H.
    eapply Forall_impl; [|exact H]. cbn. intros o (He & Hb & Ht & Hs).
    rewrite He. repeat split; auto; apply Hs; assumption. }
  induction 1 as [tr c0|tr e es c0 evs c1 H|tr e es c0 evs c1 H Hb
                 |tr e es c0 evs1 c1 k evs2 c2 H Hb H2 IH].
  - constructor.
  - eapply Hone; eassumption.
  - eapply Hone; eassumption.
  - apply Forall_app. split; [eapply Hone; eassumption|].
    eapply Forall_impl; [|exact IH]. cbn. intros o (Hin & Hrest).
    split; [now right | assumption].
Qed.

Lemma epochs_events_agree tr es c0 k evs c1 :
  epochs_events spe re rs cbs tr es c0 k evs c1 ->
  0 <= rs -> StronglySorted Z.lt es -> Forall (fun e => re <= e) es ->
  forall seen,
    (seen = true -> 0 < spe /\ Forall (fun e => re < e) es) ->
    agree_after_step spe seen evs /\
    (k <> Failed -> seen || stepped evs = true ->
     (seen = true -> counters_ok spe c0) -> counters_ok spe c1).
Proof.
  intros H Hrs.
  assert (Hstart : forall e es seen,
             (seen = true -> 0 < spe /\ Forall (fun e => re < e) (e :: es)) ->
             seen = true -> epoch_start re rs e < spe).
  { intros e es0 seen Hs Ht. destruct (Hs Ht) as (Hpos & F).
    inversion F; subst. rewrite epoch_start_other by lia. assumption. }
  induction H as [tr c0|tr e es c0 evs c1 H|tr e es c0 evs c1 H Hb
                 |tr e es c0 evs1 c1 k evs2 c2 H Hb H2 IH];
    intros Hsort Hge seen Hseen.
  - split; [exact I|]. cbn. rewrite orb_false_r. auto.
  - split; [|congruence].
    eapply epoch_events_agree; [eassumption|]. eapply Hstart; eassumption.
  - split.
    + eapply epoch_events_agree; [eassumption|]. eapply Hstart; eassumption.
    + intros _ Hor _. eapply epoch_events_final; [eassumption|].
      apply orb_true_iff in Hor. destruct Hor as [Hs|Hs]; [right | now left].
      split; [reflexivity|]. eapply Hstart; eassumption.
  - inversion Hsort as [|? ? Hsort' Hlt]; subst.
    inversion Hge as [|? ? Hre Hge']; subst.
    assert (Hseen' : seen || stepped evs1 = true ->
                     0 < spe /\ Forall (fun e => re < e) es).
    { intros Hor. apply orb_true_iff in Hor. destruct Hor as [Hs|Hs].
      - destruct (Hseen Hs) as (Hpos & F). inversion F; subst. auto.
      - pose proof (epoch_events_stepped _ _ _ _ _ _ _ _ H Hs) as Hlt'.
        pose proof (epoch_start_nonneg e Hrs).
        split; [lia|]. eapply Forall_impl; [|exact Hlt]. cbn. lia. }
    destruct (IH Hsort' Hge' (seen || stepped evs1) Hseen') as (IHa & IHf).
    split.
    + apply agree_after_step_app. split; [|assumption].
      eapply epoch_events_agree; [eassumption|]. eapply Hstart; eassumption.
    + intros Hk Hor Hc0. apply IHf; [assumption| |].
      * rewrite stepped_app, orb_assoc in Hor. exact Hor.
      * intros Hor'. eapply epoch_events_final; [eassumption|].
        apply orb_true_iff in Hor'. destruct Hor' as [Hs|Hs]; [right | now left].
        split; [reflexivity|]. eapply Hstart; eassumption.
Qed.

Lemma epochs_events_last tr es c0 k evs c1 :
  epochs_events spe re rs cbs tr es c0 k evs c1 ->
  StronglySorted Z.lt es ->
  forall oe elast,
    In oe evs -> hook oe = on_epoch_end -> o_epoch oe = elast ->
    Forall (fun e => e <= elast) es ->
    epoch_start re rs elast < spe ->
    exists o, last_obs on_batch_end evs = Some o /\
              o_global_step o = elast * spe + spe - 1.
Proof.
  induction 1 as [tr c0|tr e es c0 evs c1 H|tr e es c0 evs c1 H Hb
                 |tr e es c0 evs1 c1 k evs2 c2 H Hb H2 IH];
    intros Hsort oe elast Hin Hoe Hel Hmax Hlt.
  - destruct Hin.
  - pose proof (epoch_events_end _ _ _ _ _ _ _ _ _ H Hin Hoe). discriminate.
  - pose proof (epoch_events_all _ _ _ _ _ _ _ _ H) as F.
    rewrite Forall_forall in F. destruct (F oe Hin) as (He & _).
    rewrite <- Hel, He. eapply epoch_events_last; [eassumption|]. congruence.
  - inversion Hsort as [|? ? Hsort' Hlts]; subst.
    inversion Hmax as [|? ? Hle Hmax']; subst.
    apply in_app_or in Hin. destruct Hin as [Hin|Hin].
    + pose proof (epoch_events_all _ _ _ _ _ _ _ _ H) as F.
      rewrite Forall_forall in F. destruct (F oe Hin) as (He & _).
      destruct es as [|e' es].
      * inversion H2; subst. rewrite app_nil_r.
        eapply epoch_events_last; eassumption.
      * inversion Hlts; subst. inversion Hmax'; subst. lia.
    + destruct (IH Hsort' oe _ Hin Hoe eq_refl Hmax' Hlt) as (o & Ho & Hg).
      exists o. split; [|assumption]. rewrite last_obs_app. now rewrite Ho.
Qed.

Lemma epochs_events_begins tr es c0 k evs c1 :
  epochs_events spe re rs cbs tr es c0 k evs c1 ->
  StronglySorted Z.lt es ->
  forall oe e,
    In oe evs -> hook oe = on_epoch_end -> o_epoch oe = e ->
    batch_begins_of e evs = range (epoch_start re rs e) spe.
Proof.
  induction 1 as [tr c0|tr e0 es c0 evs c1 H|tr e0 es c0 evs c1 H Hb
                 |tr e0 es c0 evs1 c1 k evs2 c2 H Hb H2 IH];
    intros Hsort oe e Hin Hoe He.
  - destruct Hin.
  - pose proof (epoch_events_end _ _ _ _ _ _ _ _ _ H Hin Hoe). discriminate.
  - pose proof (epoch_events_all _ _ _ _ _ _ _ _ H) as F.
    rewrite Forall_forall in F. destruct (F oe Hin) as (He0 & _).
    rewrite <- He, He0. eapply epoch_events_begins; eassumption.
  - inversion Hsort as [|? ? Hsort' Hlts]; subst.
    pose proof (epoch_events_all _ _ _ _ _ _ _ _ H) as F1.
    pose proof (epochs_events_all _ _ _ _ _ _ H2) as F2.
    rewrite batch_begins_of_app.
    apply in_app_or in Hin. destruct Hin as [Hin|Hin].
    + rewrite Forall_forall in F1. destruct (F1 oe Hin) as (He0 & _).
      rewrite He0. rewrite (epoch_events_begins _ _ _ _ _ _ _ H).
      rewrite batch_begins_of_other; [apply app_nil_r|].
      eapply Forall_impl; [|exact F2]. cbn. intros o (Ho & _) Heq.
      rewrite Heq in Ho. rewrite Forall_forall in Hlts.
      apply Hlts in Ho. lia.
    + rewrite (IH Hsort' oe _ Hin Hoe eq_refl).
      rewrite batch_begins_of_other; [reflexivity|].
      rewrite Forall_forall in F2. destruct (F2 oe Hin) as (Ho & _).
      rewrite Forall_forall in Hlts. apply Hlts in Ho.
      eapply Forall_impl; [|exact F1]. cbn. intros o (Hoe0 & _). lia.
Qed.

Lemma epochs_events_stop tr es c0 k evs c1 stop_epoch :
  epochs_events spe re rs cbs tr es c0 k evs c1 ->
  StronglySorted Z.lt es ->
  (forall tr o b, hook o = on_epoch_end -> o_epoch o = stop_epoch ->
                  run_hooks cbs (tr ++ [o]) b = true) ->
  forall oe,
    In oe evs -> hook oe = on_epoch_end -> o_epoch oe = stop_epoch ->
    k = Stopped /\
    (exists pre oe', evs = pre ++ [oe'] /\ hook oe' = on_epoch_end /\
                     o_epoch oe' = stop_epoch) /\
    Forall (fun o => o_epoch o <= stop_epoch) evs.
Proof.
  intros H Hsort Hstop.
  induction H as [tr c0|tr e es c0 evs c1 H|tr e es c0 evs c1 H Hb
                 |tr e es c0 evs1 c1 k evs2 c2 H Hb H2 IH];
    intros oe Hin Hoe He.
  - destruct Hin.
  - pose proof (epoch_events_end _ _ _ _ _ _ _ _ _ H Hin Hoe). discriminate.
  - pose proof (epoch_events_all _ _ _ _ _ _ _ _ H) as F.
    pose proof F as F'. rewrite Forall_forall in F'.
    destruct (F' oe Hin) as (He0 & _).
    split; [reflexivity|]. split.
    + destruct (epoch_events_complete _ _ _ _ _ _ _ H) as (pre & oe' & -> & Ho' & He').
      exists pre, oe'. repeat split; congruence.
    + eapply Forall_impl; [|exact F]. cbn. intros o (Ho & _). lia.
  - inversion Hsort as [|? ? Hsort' Hlts]; subst.
    pose proof (epoch_events_all _ _ _ _ _ _ _ _ H) as F1.
    destruct (epoch_events_complete _ _ _ _ _ _ _ H) as (pre & oe1 & -> & Ho1 & He1).
    assert (Hne : e <> o_epoch oe).
    { intros Heq. destruct Hb as (b & Hb).
      rewrite app_assoc, Hstop in Hb by congruence. discriminate. }
    apply in_app_or in Hin. destruct Hin as [Hin|Hin].
    { rewrite Forall_forall in F1. destruct (F1 oe Hin) as (He0 & _).
      congruence. }
    destruct (IH Hsort' oe Hin Hoe eq_refl) as (Hk & (pre2 & oe' & -> & Ho' & He') & F2).
    split; [assumption|]. split.
    + exists ((pre ++ [oe1]) ++ pre2), oe'. rewrite <- !app_assoc. auto.
    + apply Forall_app. split; [|assumption].
      pose proof (epochs_events_all _ _ _ _ _ _ H2) as Fa.
      rewrite Forall_forall in Fa. destruct (Fa oe Hin) as (Hine & _).
      rewrite Forall_forall in Hlts. apply Hlts in Hine.
      eapply Forall_impl; [|exact F1]. cbn. intros o (Ho & _). lia.
Qed.
Lemma epochs_events_head tr e es c0 k evs c1 :
  epochs_events spe re rs cbs tr (e :: es) c0 k evs c1 ->
  exists ob rest, evs = ob :: rest /\ hook ob = on_epoch_begin /\ o_epoch ob = e.
Proof.
  assert (Hone : forall cpl evs1 c',
             epoch_events spe re rs e c0 cpl evs1 c' ->
             exists ob rest, evs1 = ob :: rest /\ hook ob = on_epoch_begin /\
                             o_epoch ob = e).
  { intros cpl evs1 c' (evsS & tl & c & -> & _). eexists. eexists.
    split; [reflexivity|]. split; reflexivity. }
  intros H. inversion H; subst.
  - eapply Hone; eassumption.
  - eapply Hone; eassumption.
  - match goal with Hev : epoch_events _ _ _ _ _ _ _ _ |- _ =>
      destruct (Hone _ _ _ Hev) as (ob & rest & -> & Hh & He) end.
    exists ob, (rest ++ evs2). auto.
Qed.
End LoopFacts.

(** ** The error handler of [fit] dispatches nothing *)

Lemma io_silent o s : silent s (snd (io o s)).
Proof.
  unfold io. destruct (io_fail (cfg s) o); cbn;
    unfold silent, keeps, same_counters; cbn; tauto.
Qed.

Lemma save_steps_params_silent p s : silent s (snd (save_steps_params p s)).
Proof.
  unfold save_steps_params, bind at 1, get.
  destruct (steps_per_epoch s) as [spe|]; [|apply silent_refl].
  destruct (Z.eqb spe 0); [apply silent_refl|].
  unfold bind, io, modify.
  destruct (io_fail (cfg s) (OpTorchSave p)); cbn;
    unfold silent, keeps, same_counters; cbn; tauto.
Qed.

Lemma bind_silent {A B} (m : M A) (k : A -> M B) s :
  (forall s0, silent s0 (snd (m s0))) ->
  (forall a s0, silent s0 (snd (k a s0))) ->
  silent s (snd (bind m k s)).
Proof.
  intros Hm Hk. unfold bind. specialize (Hm s).
  destruct (m s) as [[a|e] s1]; cbn [snd] in *; [|assumption].
  eapply silent_trans; [eassumption | apply Hk].
Qed.

Lemma ret_silent {A} (a : A) s : silent s (snd (ret a s)).
Proof. apply silent_refl. Qed.

Lemma raise_silent {A} e s : silent s (snd (@raise A e s)).
Proof. apply silent_refl. Qed.

Lemma save_to_checkpoint_silent d mp op sp pp s :
  silent s (snd (save_to_checkpoint d mp op sp pp s)).
Proof.
  unfold save_to_checkpoint.
  apply bind_silent; [intros s0; destruct (default_path mp d _) as [p0|];
                       [apply io_silent | apply ret_silent]|].
  intros _ s0.
  apply bind_silent; [intros s1; destruct (default_path op d _) as [p0|];
                       [apply io_silent | apply ret_silent]|].
  intros _ s1.
  apply bind_silent; [intros s2; apply silent_refl|].
  intros s2 s3.
  apply bind_silent.
  - intros s4. destruct (default_path sp d _) as [p0|]; [|apply ret_silent].
    destruct (scheduler (cfg s2));
      [apply ret_silent | apply io_silent | apply raise_silent].
  - intros _ s4. destruct (default_path pp d _) as [p0|];
      [apply save_steps_params_silent | apply ret_silent].
Qed.

Lemma diagnostics_silent {A} kw e s :
  silent s (snd (bind (notify_by_mail kw)
                   (fun _ => bind (save_ckpt_when_error kw)
                     (fun _ => bind (save_batch_when_error kw)
                       (fun _ => @raise A e))) s)).
Proof.
  apply bind_silent.
  { intros s0. unfold notify_by_mail.
    destruct (mail_receivers_when_error kw) as [m|]; [apply io_silent | apply ret_silent]. }
  intros _ s0. apply bind_silent.
  { intros s1. unfold save_ckpt_when_error.
    destruct (save_ckpt_dir_when_error kw) as [d|];
      [apply save_to_checkpoint_silent | apply ret_silent]. }
  intros _ s1. apply bind_silent.
  { intros s2. unfold save_batch_when_error.
    destruct (save_batch_path_when_error kw) as [p|]; [|apply ret_silent].
    apply bind_silent; [intros s3; apply silent_refl|].
    intros s3 s4. destruct (train_X s3); [apply io_silent | apply raise_silent]. }
  intros _ s2. apply raise_silent.
Qed.

Lemma diagnostics_raise {A} kw e s :
  is_ok (fst (bind (notify_by_mail kw)
                (fun _ => bind (save_ckpt_when_error kw)
                  (fun _ => bind (save_batch_when_error kw)
                    (fun _ => @raise A e))) s)) = false.
Proof.
  unfold bind, raise.
  destruct (notify_by_mail kw s) as [[[]|e1] s1]; [|reflexivity].
  destruct (save_ckpt_when_error kw s1) as [[[]|e2] s2]; [|reflexivity].
  destruct (save_batch_when_error kw s2) as [[[]|e3] s3]; reflexivity.
Qed.

(** [fit] and [_fit] return alike when [_fit] returns, and fail alike in the
    sense that both fail; the handler changes neither the dispatch log nor
    the counters. *)
Lemma fit_vs_fit dl steps n_epochs cbs v kw s r s' :
  fit dl steps n_epochs cbs v kw s = (r, s') ->
  exists r0 s0,
    _fit dl steps n_epochs cbs v s = (r0, s0) /\ silent s0 s' /\
    is_ok r = is_ok r0.
Proof.
  unfold fit, try_except.
  destruct (_fit dl steps n_epochs cbs v s) as [[h|e] s0] eqn:E.
  - intros H. injection H as <- <-. exists (Ok h), s0.
    split; [reflexivity|]. split; [apply silent_refl | reflexivity].
  - intros H. exists (Raise e), s0. split; [reflexivity|].
    pose proof (@diagnostics_silent Callback kw e s0) as Hs.
    pose proof (@diagnostics_raise Callback kw e s0) as Hr.
    rewrite H in Hs, Hr. cbn [fst snd] in *. auto.
Qed.

(** The dispatches of a call of [fit]. *)
Lemma fit_dispatches dl steps n_epochs cbs v kw s r s' :
  fit dl steps n_epochs cbs v kw s = (r, s') ->
  (trace s' = trace s /\ is_ok r = false) \/
  exists spe evs,
    steps_per_epoch s' = Some spe /\ trace s' = trace s ++ evs /\
    fit_events spe (resume_epoch s) (resume_step s) n_epochs
               (dispatch_order (callbacks s')) (trace s) (is_ok r) evs.
Proof.
  intros H. destruct (fit_vs_fit _ _ _ _ _ _ _ _ _ H) as (r0 & s0 & H0 & Hs & Hr).
  destruct Hs as ((_ & Ks & _ & _ & Kc & _) & _ & Ht & _).
  destruct (fit_run _ _ _ _ _ _ _ _ H0) as (_ & _ & _ & [(T & Hk)|(spe & evs & Hspe & T & F)]).
  - left. split; congruence.
  - right. exists spe, evs. rewrite Hr, Kc. split; [congruence|].
    split; [congruence | assumption].
Qed.

(** ** The counters during [fit] *)

Lemma range_lower a b : Forall (fun e => a <= e) (range a b).
Proof. apply Forall_forall. intros x Hx. apply range_In in Hx. lia. Qed.

Lemma range_upper a b : Forall (fun e => e <= b - 1) (range a b).
Proof. apply Forall_forall. intros x Hx. apply range_In in Hx. lia. Qed.

Lemma fit_events_agree spe re rs n_epochs cbs tr0 ok evs :
  0 <= rs ->
  fit_events spe re rs n_epochs cbs tr0 ok evs ->
  agree_after_step spe false evs.
Proof.
  intros Hrs (c0 & c1 & k & loop & tl & -> & Hloop & Htl).
  destruct (epochs_events_agree _ _ _ _ _ _ _ _ _ _ Hloop Hrs
              (range_sorted _ _) (range_lower _ _) false) as (Ha & Hf);
    [discriminate|].
  cbn. split; [intros _ [Hx|Hx]; discriminate|].
  apply agree_after_step_app. split; [assumption|].
  destruct ok.
  - destruct Htl as (Hk & logs & ->). cbn. split; [|exact I].
    intros _ [Hx|Hx]; [discriminate|].
    apply (Hf Hk Hx). discriminate.
  - destruct Htl as (_ & ->). exact I.
Qed.

Lemma fit_events_last spe re rs n_epochs cbs tr0 ok evs oe o :
  0 <= rs ->
  fit_events spe re rs n_epochs cbs tr0 ok evs ->
  In oe evs -> hook oe = on_epoch_end -> o_epoch oe = n_epochs - 1 ->
  last_obs on_batch_end evs = Some o ->
  o_global_step o = n_epochs * spe - 1.
Proof.
  intros Hrs (c0 & c1 & k & loop & tl & -> & Hloop & Htl) Hin Hoe He Hlast.
  assert (Htl' : Forall (fun x => hook x = on_train_end) tl).
  { destruct ok; [destruct Htl as (_ & logs & ->) | destruct Htl as (_ & ->)];
      repeat constructor. }
  assert (Hin' : In oe loop).
  { destruct Hin as [<-|Hin]; [discriminate|].
    apply in_app_or in Hin. destruct Hin as [Hin|Hin]; [assumption|].
    rewrite Forall_forall in Htl'. apply Htl' in Hin. congruence. }
  assert (Hlast' : last_obs on_batch_end loop = Some o).
  { rewrite last_obs_cons_other in Hlast by discriminate.
    rewrite last_obs_app in Hlast.
    rewrite (last_obs_none on_batch_end tl) in Hlast; [assumption|].
    eapply Forall_impl; [|exact Htl']. cbn. congruence. }
  pose proof (epochs_events_all _ _ _ _ _ _ _ _ _ _ Hloop) as Fall.
  rewrite Forall_forall in Fall.
  destruct (last_obs_In _ _ _ Hlast') as (Hino & Ho).
  destruct (Fall o Hino) as (Hoin & _ & _ & Hob).
  rewrite Ho in Hob. destruct (Hob eq_refl) as (_ & Hbound).
  destruct (Fall oe Hin') as (Hoein & _).
  apply range_In in Hoin, Hoein.
  assert (Hlt : epoch_start re rs (n_epochs - 1) < spe).
  { pose proof (epoch_start_nonneg re rs (o_epoch o) Hrs).
    destruct (Z.eq_dec (n_epochs - 1) re) as [Heq|Hneq].
    - replace (o_epoch o) with re in Hbound by lia. rewrite Heq. lia.
    - rewrite epoch_start_other by assumption. lia. }
  destruct (epochs_events_last _ _ _ _ _ _ _ _ _ _ Hloop (range_sorted _ _)
              oe (n_epochs - 1) Hin' Hoe He (range_upper _ _) Hlt)
    as (o' & Ho' & Hg).
  rewrite Hlast' in Ho'. injection Ho' as <-. rewrite Hg. lia.
Qed.

(** C1, as the code has it. Let a call of [fit] start from a non-negative
    [resume_step]. At every dispatch other than [on_epoch_begin] that is an
    [on_batch_end] or comes after one, the counters the callbacks see satisfy
    [global_step = epoch * steps_per_epoch + local_step]. And when the last
    epoch, [n_epochs - 1], reached its [on_epoch_end], the last
    [on_batch_end] of the run saw [global_step = n_epochs * steps_per_epoch - 1]. *)
Theorem fit_counters dl steps n_epochs cbs v kw (s : St) r s'
    (Hrs : 0 <= resume_step s)
    (Hrun : fit dl steps n_epochs cbs v kw s = (r, s')) :
  exists evs,
    trace s' = trace s ++ evs /\
    forall spe, steps_per_epoch s' = Some spe ->
      (forall pre o post,
         evs = pre ++ o :: post -> hook o <> on_epoch_begin ->
         hook o = on_batch_end \/
           (exists o', In o' pre /\ hook o' = on_batch_end) ->
         counters_agree spe o) /\
      (forall oe o,
         In oe evs -> hook oe = on_epoch_end -> o_epoch oe = n_epochs - 1 ->
         last_obs on_batch_end evs = Some o ->
         o_global_step o = n_epochs * spe - 1).
Proof.
  destruct (fit_dispatches _ _ _ _ _ _ _ _ _ Hrun)
    as [(T & _)|(spe & evs & Hspe & T & F)].
  - exists []. rewrite app_nil_r. split; [assumption|].
    intros spe _. split.
    + intros pre o post Hnil. destruct pre; discriminate.
    + intros oe o [].
  - exists evs. split; [assumption|].
    intros spe' Hspe'. assert (spe' = spe) by congruence. subst spe'.
    split.
    + apply agree_after_step_spec. eapply fit_events_agree; eassumption.
    + intros oe o. eapply fit_events_last; eassumption.
Qed.

Example example_run_skeleton :
  skeleton (trace (snd example_run))
  = [(on_train_begin, 0, 0, 0); (on_epoch_begin, 0, 0, 0);
     (on_batch_begin, 0, 0, 0); (on_train_step_end, 0, 0, 0);
     (on_batch_end, 0, 0, 0); (on_batch_begin, 1, 1, 0);
     (on_train_step_end, 1, 1, 0); (on_batch_end, 1, 1, 0);
     (on_epoch_end, 1, 1, 0); (on_epoch_begin, 1, 1, 1);
     (on_batch_begin, 2, 0, 1); (on_dataloader_end, 2, 0, 1);
     (on_train_step_end, 2, 0, 1); (on_batch_end, 2, 0, 1);
     (on_batch_begin, 3, 1, 1); (on_train_step_end, 3, 1, 1);
     (on_batch_end, 3, 1, 1); (on_epoch_end, 3, 1, 1);
     (on_train_end, 3, 1, 1)].
Proof. vm_compute. reflexivity. Qed.

Lemma fit_counters_witness :
  0 <= resume_step (initialize plain_config) /\
  exists evs,
    trace (snd example_run) = trace (initialize plain_config) ++ evs /\
    forall spe, steps_per_epoch (snd example_run) = Some spe ->
      (forall pre o post,
         evs = pre ++ o :: post -> hook o <> on_epoch_begin ->
         hook o = on_batch_end \/
           (exists o', In o' pre /\ hook o' = on_batch_end) ->
         counters_agree spe o) /\
      (forall oe o,
         In oe evs -> hook oe = on_epoch_end -> o_epoch oe = 2 - 1 ->
         last_obs on_batch_end evs = Some o ->
         o_global_step o = 2 * spe - 1).
Proof.
  split; [vm_compute; discriminate|].
  destruct example_run as [r s'] eqn:E. cbn [snd].
  apply (fit_counters two_batches (Some 2) 2 ArgNone 0 no_kwargs
           (initialize plain_config) r s'); [cbn; lia | exact E].
Defined.

(** The identity of C1 does not hold at every dispatch that follows a
    completed step: [on_epoch_begin] of the second epoch is dispatched after
    [self.epoch] moved on and before the counters of the next step are set.
    In the example run it sees [global_step = 1], [local_step = 1] and
    [epoch = 1] with two steps per epoch. *)
Lemma epoch_begin_counters_disagree :
  exists pre o post,
    trace (snd example_run) = pre ++ o :: post /\
    (exists o', In o' pre /\ hook o' = on_batch_end) /\
    steps_per_epoch (snd example_run) = Some 2 /\
    hook o = on_epoch_begin /\
    ~ counters_agree 2 o.
Proof.
  exists (firstn 9 (trace (snd example_run))),
    (mkObs on_epoch_begin 1 1 1 []),
    (skipn 10 (trace (snd example_run))).
  split; [vm_compute; reflexivity|].
  split.
  - exists (mkObs on_batch_end 0 0 0 [("lr", (1 # 1000)%Q); ("loss", (0 + 1)%Q)]).
    split; [vm_compute; tauto | reflexivity].
  - split; [vm_compute; reflexivity|]. split; [reflexivity|].
    unfold counters_agree. cbn. lia.
Qed.

(** ** Early stop *)

Lemma fit_events_stop spe re rs n_epochs cbs tr0 ok evs k :
  fit_events spe re rs n_epochs cbs tr0 ok evs ->
  (forall tr o b, hook o = on_epoch_end -> o_epoch o = k ->
                  run_hooks cbs (tr ++ [o]) b = true) ->
  (exists oe, In oe evs /\ hook oe = on_epoch_end /\ o_epoch oe = k) ->
  ok = true /\
  (exists pre oe ot, evs = pre ++ [oe; ot] /\ hook oe = on_epoch_end /\
                     o_epoch oe = k /\ hook ot = on_train_end) /\
  (forall o, In o evs -> hook o = on_epoch_begin -> o_epoch o <= k).
Proof.
  intros (c0 & c1 & out & loop & tl & -> & Hloop & Htl) Hstop (oe & Hin & Hoe & He).
  assert (Htl' : Forall (fun x => hook x = on_train_end) tl).
  { destruct ok; [destruct Htl as (_ & logs & ->) | destruct Htl as (_ & ->)];
      repeat constructor. }
  assert (Hin' : In oe loop).
  { destruct Hin as [<-|Hin]; [discriminate|].
    apply in_app_or in Hin. destruct Hin as [Hin|Hin]; [assumption|].
    rewrite Forall_forall in Htl'. apply Htl' in Hin. congruence. }
  destruct (epochs_events_stop _ _ _ _ _ _ _ _ _ _ k Hloop (range_sorted _ _)
              Hstop oe Hin' Hoe He) as (Hout & (pre & oe' & -> & Ho' & He') & Fle).
  destruct ok; [|destruct Htl as (Hf & _); congruence].
  destruct Htl as (_ & logs & ->).
  split; [reflexivity|]. split.
  - exists (obs_at on_train_begin c0 [] :: pre), oe', (obs_at on_train_end c1 logs).
    cbn. rewrite <- app_assoc. cbn. auto.
  - intros o [<-|Hino] Ho; [discriminate|].
    apply in_app_or in Hino. destruct Hino as [Hino|[<-|[]]]; [|discriminate].
    rewrite Forall_forall in Fle. now apply Fle.
Qed.


Example stopped_run_skeleton :
  skeleton (trace (snd stopped_run))
  = [(on_train_begin, 0, 0, 0); (on_epoch_begin, 0, 0, 0);
     (on_batch_begin, 0, 0, 0); (on_train_step_end, 0, 0, 0);
     (on_batch_end, 0, 0, 0); (on_batch_begin, 1, 1, 0);
     (on_train_step_end, 1, 1, 0); (on_batch_end, 1, 1, 0);
     (on_epoch_end, 1, 1, 0); (on_train_end, 1, 1, 0)].
Proof. vm_compute. reflexivity. Qed.

Lemma stop_at_epoch_stops k tr o b :
  hook o = on_epoch_end -> o_epoch o = k ->
  run_hooks [default_smooth 100; stop_at_epoch k; history] (tr ++ [o]) b = true.
Proof.
  intros Ho He. unfold run_hooks. cbn.
  rewrite rev_app_distr. cbn. rewrite Ho, He, Z.eqb_refl. reflexivity.
Qed.


(** ** Resuming *)

Lemma fit_events_begins spe re rs n_epochs cbs tr0 ok evs :
  fit_events spe re rs n_epochs cbs tr0 ok evs ->
  (forall o, In o evs -> hook o = on_epoch_begin ->
     re <= o_epoch o < n_epochs /\
     exists ob0 ob rest,
       evs = ob0 :: ob :: rest /\ hook ob0 = on_train_begin /\
       hook ob = on_epoch_begin /\ o_epoch ob = re) /\
  (forall oe e, In oe evs -> hook oe = on_epoch_end -> o_epoch oe = e ->
                batch_begins_of e evs = range (epoch_start re rs e) spe).
Proof.
  intros (c0 & c1 & out & loop & tl & -> & Hloop & Htl).
  assert (Htl' : Forall (fun x => hook x = on_train_end) tl).
  { destruct ok; [destruct Htl as (_ & logs & ->) | destruct Htl as (_ & ->)];
      repeat constructor. }
  assert (Hin' : forall o, In o (obs_at on_train_begin c0 [] :: loop ++ tl) ->
                           hook o <> on_train_begin -> hook o <> on_train_end ->
                           In o loop).
  { intros o [<-|Hin] H1 H2; [now elim H1|].
    apply in_app_or in Hin. destruct Hin as [Hin|Hin]; [assumption|].
    rewrite Forall_forall in Htl'. apply Htl' in Hin. contradiction. }
  pose proof (epochs_events_all _ _ _ _ _ _ _ _ _ _ Hloop) as Fall.
  rewrite Forall_forall in Fall.
  split.
  - intros o Hin Ho. apply Hin' in Hin; try (rewrite Ho; discriminate).
    destruct (Fall o Hin) as (Hr & _). apply range_In in Hr.
    split; [assumption|].
    rewrite range_cons in Hloop by lia.
    destruct (epochs_events_head _ _ _ _ _ _ _ _ _ _ _ Hloop)
      as (ob & rest & -> & Hob & Hoe).
    exists (obs_at on_train_begin c0 []), ob, (rest ++ tl). auto.
  - intros oe e Hin Hoe He. apply Hin' in Hin; try (rewrite Hoe; discriminate).
    change (?a :: ?l ++ ?t) with ([a] ++ l ++ t).
    rewrite !batch_begins_of_app.
    rewrite (epochs_events_begins _ _ _ _ _ _ _ _ _ _ Hloop (range_sorted _ _)
               oe e Hin Hoe He).
    assert (Hnone : batch_begins_of e tl = []).
    { unfold batch_begins_of. rewrite filter_none; [reflexivity|].
      eapply Forall_impl; [|exact Htl']. cbn. intros o ->. reflexivity. }
    rewrite Hnone, app_nil_r. reflexivity.
Qed.

(** The interrupted trainer leaves the file the restarted one finds; resumed
    for two epochs, the restarted trainer begins epoch 0 at local step 1 and
    epoch 1 at local step 0. *)
Example interrupted_saves :
  disk (snd (save_steps_params "ckpt/steps_params.pt" interrupted))
  = disk restarted.
Proof. reflexivity. Qed.

Example restarted_run_begins :
  let t1 := snd (load_steps_params "ckpt/steps_params.pt" restarted) in
  let tr := trace (snd (fit two_batches None 2 ArgNone 0 no_kwargs t1)) in
  resume_step t1 = 1 /\ resume_epoch t1 = 0 /\
  batch_begins_of 0 tr = [1] /\ batch_begins_of 1 tr = [0; 1].
Proof. vm_compute. repeat split. Qed.

(** ** Gradient accumulation *)

Lemma loss_key_not_loss i : loss_key i <> "loss".
Proof.
  unfold loss_key. cbn. intros H. injection H as H.
  destruct (Nat.to_uint i); cbn in H; discriminate.
Qed.

Lemma enumerate_losses_no_loss i l :
  ~ In "loss" (map fst (enumerate_losses i l)).
Proof.
  revert i. induction l as [|v l IH]; intros i; cbn; [tauto|].
  intros [H|H]; [now apply (loss_key_not_loss i) | now apply (IH (S i))].
Qed.

Lemma add_detail_keys acc d k :
  In k (map fst (add_detail acc d)) -> In k (map fst acc) \/ In k (map fst d).
Proof.
  unfold add_detail. revert acc.
  induction d as [|[k' v'] d IH]; intros acc; cbn; [tauto|].
  intros H. apply IH in H. destruct H as [H|H]; [|tauto].
  apply dict_set_keys in H. cbn in H. destruct H as [->|H]; tauto.
Qed.

Lemma fetched_app a b : fetched (a ++ b) = fetched a ++ fetched b.
Proof.
  induction a as [|o a IH]; cbn; [reflexivity|].
  destruct o; cbn; rewrite ?IH; reflexivity.
Qed.

Lemma backward_losses_app a b :
  backward_losses (a ++ b) = backward_losses a ++ backward_losses b.
Proof.
  induction a as [|o a IH]; cbn; [reflexivity|].
  destruct o; cbn; rewrite ?IH; reflexivity.
Qed.

Lemma prepare_nextbatch_ops s b s' :
  _prepare_nextbatch s = (Ok b, s') ->
  ops s' = ops s ++ [OpFetch b] /\ cfg s' = cfg s.
Proof.
  unfold _prepare_nextbatch, bind at 1, get.
  destruct (train_dataloader_iter s) as [|b0 rest].
  - unfold bind at 1, dispatch, modify.
    destruct (train_dataloader s) as [dl|]; [|unfold raise; discriminate].
    destruct (dl_batches dl) as [|b0 rest];
      unfold bind, modify, emit, raise, ret; cbn; [discriminate|].
    intros H. injection H as <- <-. cbn. auto.
  - unfold bind, modify, emit, ret. cbn.
    intros H. injection H as <- <-. cbn. auto.
Qed.

Lemma loss_backward_ops v s r s' :
  loss_backward v s = (Ok r, s') ->
  exists q, v = VTensor q /\ r = v /\ cfg s' = cfg s /\
            ops s' = ops s ++ [OpBackward q (mp_on (mixed_precision_mode (cfg s)))].
Proof.
  unfold loss_backward, bind, get, modify, emit, raise, ret. cbn.
  destruct (mp_on (mixed_precision_mode (cfg s))); destruct v as [q|q]; cbn;
    intros H; try discriminate; inversion H; subst; exists q; cbn; auto.
Qed.

Lemma train_step_ops b s r s' :
  train_step b s = (Ok r, s') ->
  exists q detail,
    primary_loss (criterion (cfg s) b) = Some (VTensor q) /\
    r = (b, VTensor (scale_loss (grad_accumulation_steps (cfg s)) q), detail) /\
    ~ In "loss" (map fst detail) /\
    cfg s' = cfg s /\
    ops s' = ops s ++ [OpBackward (scale_loss (grad_accumulation_steps (cfg s)) q)
                                  (mp_on (mixed_precision_mode (cfg s)))].
Proof.
  set (a := grad_accumulation_steps (cfg s)).
  assert (Htail : forall v d,
    ~ In "loss" (map fst d) ->
    bind (loss_backward (if 1 <? a then value_div v a else v))
      (fun loss => bind (scale_detail a d)
                     (fun detail => ret (b, loss, detail))) s = (Ok r, s') ->
    exists q detail,
      v = VTensor q /\ r = (b, VTensor (scale_loss a q), detail) /\
      ~ In "loss" (map fst detail) /\ cfg s' = cfg s /\
      ops s' = ops s ++ [OpBackward (scale_loss a q)
                                    (mp_on (mixed_precision_mode (cfg s)))]).
  { intros v d Hd H. bind_ok_inv H.
    apply loss_backward_ops in H0. destruct H0 as (q' & Hv & -> & Hc & Ho).
    assert (Hq : exists q, v = VTensor q /\ q' = scale_loss a q).
    { unfold scale_loss. destruct (1 <? a); destruct v as [q|q]; cbn in Hv;
        inversion Hv; eauto. }
    destruct Hq as (q & -> & ->).
    unfold bind, scale_detail, raise, ret in H.
    destruct d as [|kv d].
    - injection H as <- <-. exists q, [].
      split; [reflexivity|]. split; [|cbn; auto].
      unfold scale_loss. destruct (1 <? a); reflexivity.
    - destruct (Z.eqb a 0); [discriminate|]. injection H as <- <-.
      eexists q, _. split; [reflexivity|]. split.
      { unfold scale_loss. destruct (1 <? a); reflexivity. }
      split; [|auto].
      assert (Hk : forall d0 : list (string * Value),
                 map fst (map (fun kv => (fst kv, (item (snd kv) / inject_Z a)%Q)) d0)
                 = map fst d0).
      { intros d0. rewrite map_map. apply map_ext. reflexivity. }
      cbn [map fst] in *. rewrite Hk. exact Hd. }
  unfold train_step, bind at 1, get. fold a.
  destruct (criterion (cfg s) b) as [q|d|l|] eqn:Hc; unfold bind at 1.
  - unfold ret at 1. cbn [fst snd]. intros H.
    destruct (Htail (VTensor q) [] (fun x => x) H) as (q' & detail & Hv & Hr).
    injection Hv as <-. exists q, detail. cbn. auto.
  - destruct (dict_get "loss" d) as [v|] eqn:Hl; [|unfold raise; discriminate].
    unfold ret at 1. cbn [fst snd]. intros H.
    destruct (Htail v _ (dict_del_notin "loss" d) H) as (q' & detail & -> & Hr).
    exists q', detail. cbn. auto.
  - destruct l as [|v rest]; [unfold raise; discriminate|].
    unfold ret at 1. cbn [fst snd]. intros H.
    destruct (Htail v _ (enumerate_losses_no_loss 1 rest) H)
      as (q' & detail & -> & Hr).
    exists q', detail. cbn. auto.
  - unfold raise. discriminate.
Qed.

Lemma dispatch_ops h logs s :
  ops (snd (dispatch h logs s)) = ops s /\ cfg (snd (dispatch h logs s)) = cfg s /\
  fst (dispatch h logs s) = Ok tt.
Proof. unfold dispatch, modify. cbn. auto. Qed.

Lemma accumulate_ops n : forall tl td out s tl' td' out' s',
  accumulate n tl td out s = (Ok (tl', td', out'), s') ->
  ~ In "loss" (map fst td) ->
  exists new raw,
    ops s' = ops s ++ new /\ cfg s' = cfg s /\
    List.length (fetched new) = n /\
    Forall2 (fun b q => primary_loss (criterion (cfg s) b) = Some (VTensor q))
            (fetched new) raw /\
    backward_losses new
      = map (scale_loss (grad_accumulation_steps (cfg s))) raw /\
    (tl' == tl + Qsum (map (scale_loss (grad_accumulation_steps (cfg s))) raw))%Q /\
    filter is_update new = [] /\ filter is_zero_grad new = [] /\
    ~ In "loss" (map fst td') /\
    (n <> 0%nat \/ out <> None -> out' <> None) /\
    (n = 0%nat -> out' = out).
Proof.
  induction n as [|n IH]; intros tl td out s tl' td' out' s' H Htd; cbn in H.
  - injection H as <- <- <- <-. exists [], []. rewrite app_nil_r. cbn.
    split; [reflexivity|]. split; [reflexivity|]. split; [reflexivity|].
    split; [constructor|]. split; [reflexivity|].
    split; [unfold Qsum; cbn [map fold_right]; ring|].
    split; [reflexivity|]. split; [reflexivity|].
    split; [assumption|]. split; [tauto | reflexivity].
  - bind_ok_inv H. apply prepare_nextbatch_ops in H0. destruct H0 as (O1 & C1).
    unfold bind at 1, modify at 1 in H.
    bind_ok_inv H. apply train_step_ops in H0.
    destruct H0 as (q & detail & Hp & -> & Hd & C2 & O2). cbn in C2, O2, Hp.
    pose proof (dispatch_ops on_train_step_end [] x2) as (O3 & C3 & R3).
    unfold bind at 1 in H.
    destruct (dispatch on_train_step_end [] x2) as [r3 s3]. cbn in O3, C3, R3.
    subst r3.
    apply IH in H.
    2:{ intros Hin. apply add_detail_keys in Hin. tauto. }
    destruct H as (new & raw & O4 & C4 & L4 & F4 & B4 & Q4 & U4 & Z4 & D4 & N4 & _).
    assert (Ecfg : cfg s3 = cfg s) by congruence.
    rewrite Ecfg in C4, F4, B4, Q4. rewrite C1 in Hp, O2.
    exists (OpFetch x :: OpBackward
              (scale_loss (grad_accumulation_steps (cfg s)) q)
              (mp_on (mixed_precision_mode (cfg s))) :: new), (q :: raw).
    split.
    { rewrite O4, O3, O2. cbn. rewrite O1, <- !app_assoc. reflexivity. }
    split; [congruence|].
    cbn [fetched backward_losses filter is_update is_zero_grad List.length map].
    rewrite L4, B4, U4, Z4.
    split; [reflexivity|].
    split; [constructor; assumption|].
    split; [reflexivity|].
    split; [rewrite Q4; unfold Qsum; cbn [map fold_right item cfg set_train_X];
            rewrite C1; ring|].
    split; [reflexivity|]. split; [reflexivity|].
    split; [assumption|]. split; [|discriminate].
    intros _. apply N4. right. discriminate.
Qed.

Lemma scale_loss_div a q : 1 <= a -> (scale_loss a q == q / inject_Z a)%Q.
Proof.
  intros Ha. unfold scale_loss. destruct (1 <? a) eqn:E; [reflexivity|].
  apply Z.ltb_ge in E. replace a with 1 by lia.
  change (inject_Z 1) with 1%Q. field.
Qed.

Lemma Qsum_scaled a raw :
  1 <= a -> (Qsum (map (scale_loss a) raw) == Qsum raw / inject_Z a)%Q.
Proof.
  intros Ha.
  assert (Hnz : ~ (inject_Z a == 0)%Q).
  { unfold Qeq, inject_Z. cbn. lia. }
  unfold Qsum. induction raw as [|q raw IH]; cbn [map fold_right].
  - field. exact Hnz.
  - rewrite IH, scale_loss_div by assumption. field. exact Hnz.
Qed.

Lemma dict_update_head {V} (d : list (string * V)) k v rest0 :
  ~ In k (map fst d) -> ~ In k (map fst rest0) ->
  exists rest, dict_update ((k, v) :: rest0) d = (k, v) :: rest /\
               ~ In k (map fst rest).
Proof.
  unfold dict_update. revert rest0.
  induction d as [|[k' v'] d IH]; intros rest0 Hd Hr; cbn.
  - eauto.
  - cbn in Hd. destruct (String.eqb k' k) eqn:E.
    + apply String.eqb_eq in E. subst. tauto.
    + apply IH; [tauto|]. intros Hin. apply dict_set_keys in Hin.
      apply String.eqb_neq in E. destruct Hin; [congruence | tauto].
Qed.

Lemma logged_loss (logs0 detail perf : Logs) t :
  ~ In "loss" (map fst detail) -> ~ In "loss" (map fst perf) ->
  dict_get "loss"
    (dict_update (dict_update logs0 (dict_update [("loss", t)] detail)) perf)
  = Some t.
Proof.
  intros Hd Hp. rewrite dict_get_update_other by assumption.
  destruct (dict_update_head detail "loss" t [] Hd (fun x => x))
    as (rest & -> & Hr).
  unfold dict_update at 1. cbn [fold_left fst snd].
  change (fold_left _ rest ?d) with (dict_update d rest).
  rewrite dict_get_update_other by assumption.
  apply dict_get_set_same.
Qed.

Lemma scheduler_steps_inert ids :
  filter is_update (map OpSchedulerStep ids) = [] /\
  filter is_zero_grad (map OpSchedulerStep ids) = [] /\
  fetched (map OpSchedulerStep ids) = [] /\
  backward_losses (map OpSchedulerStep ids) = [].
Proof. induction ids as [|i ids IH]; cbn; [auto | exact IH]. Qed.


Example accumulating_step :
  let r := step_body 1 0 accumulating in
  fst r = Ok [("lr", (1 # 1000)%Q); ("loss", (0 + 1 / 2 + 3 / 2)%Q);
              ("aux", (0 + 5 / 2)%Q)] /\
  ops (snd r) = [OpFetch 0%nat; OpBackward (1 / 2)%Q false;
                 OpFetch 1%nat; OpBackward (3 / 2)%Q false;
                 OpOptimizerStep; OpZeroGrad].
Proof. split; reflexivity. Qed.


(** ** The error handler of [fit] *)

Lemma io_ok o s :
  io_fail (cfg s) o = None -> io o s = (Ok tt, set_ops (ops s ++ [o]) s).
Proof. intros H. unfold io. now rewrite H. Qed.

Lemma opt_io_ok f p s :
  (forall o, io_fail (cfg s) o = None) ->
  exists s',
    match p with Some x => io (f x) | None => ret tt end s = (Ok tt, s') /\
    ops s' = ops s ++ opt_op f p /\ cfg s' = cfg s /\
    steps_per_epoch s' = steps_per_epoch s /\ train_X s' = train_X s /\
    local_step s' = local_step s /\ epoch s' = epoch s.
Proof.
  intros Hio. destruct p as [x|]; cbn.
  - rewrite io_ok by apply Hio. eexists. split; [reflexivity|]. cbn. auto 10.
  - eexists. split; [reflexivity|]. rewrite app_nil_r. auto 10.
Qed.

Lemma save_steps_params_ok p s spe :
  io_fail (cfg s) (OpTorchSave p) = None ->
  steps_per_epoch s = Some spe -> spe <> 0 ->
  exists s',
    save_steps_params p s = (Ok tt, s') /\
    ops s' = ops s ++ [OpTorchSave p] /\ cfg s' = cfg s /\
    steps_per_epoch s' = steps_per_epoch s /\ train_X s' = train_X s.
Proof.
  intros Hio Hspe Hnz. unfold save_steps_params, bind at 1, get.
  rewrite Hspe. destruct (Z.eqb spe 0) eqn:E; [apply Z.eqb_eq in E; contradiction|].
  unfold bind, modify. rewrite io_ok by assumption.
  eexists. split; [reflexivity|]. cbn. auto.
Qed.

Lemma save_to_checkpoint_ok d s spe :
  (forall o, io_fail (cfg s) o = None) ->
  steps_per_epoch s = Some spe -> spe <> 0 ->
  (forall ids, scheduler (cfg s) <> SchedulerList ids) ->
  exists s',
    save_to_checkpoint (Some d) None None None None s = (Ok tt, s') /\
    ops s' = ops s ++ checkpoint_ops (cfg s) d /\ cfg s' = cfg s /\
    train_X s' = train_X s.
Proof.
  intros Hio Hspe Hnz Hsched. unfold save_to_checkpoint, checkpoint_ops.
  destruct (opt_io_ok OpSaveWeights (default_path None (Some d) "model.pt") s Hio)
    as (s1 & E1 & O1 & C1 & S1 & X1 & L1 & P1).
  rewrite (bind_ok _ _ _ _ _ E1).
  assert (Hio1 : forall o, io_fail (cfg s1) o = None) by (now rewrite C1).
  destruct (opt_io_ok OpTorchSave (default_path None (Some d) "optimizer.pt") s1 Hio1)
    as (s2 & E2 & O2 & C2 & S2 & X2 & L2 & P2).
  rewrite (bind_ok _ _ _ _ _ E2).
  unfold bind at 1, get.
  assert (Hio2 : forall o, io_fail (cfg s2) o = None) by (now rewrite C2).
  assert (E3 : exists s3,
             match default_path None (Some d) "scheduler.pt", scheduler (cfg s2) with
             | Some p, OneScheduler _ => io (OpTorchSave p)
             | Some p, SchedulerList _ => raise AttributeError
             | _, _ => ret tt
             end s2 = (Ok tt, s3) /\
             ops s3 = ops s2 ++
                      match scheduler (cfg s) with
                      | OneScheduler _ =>
                          opt_op OpTorchSave (default_path None (Some d) "scheduler.pt")
                      | _ => []
                      end /\
             cfg s3 = cfg s2 /\ steps_per_epoch s3 = steps_per_epoch s2 /\
             train_X s3 = train_X s2).
  { rewrite C2, C1.
    destruct (scheduler (cfg s)) as [|i|ids] eqn:Hs.
    - exists s2. rewrite app_nil_r.
      destruct (default_path None (Some d) "scheduler.pt");
        repeat split; try reflexivity; congruence.
    - destruct (opt_io_ok OpTorchSave (default_path None (Some d) "scheduler.pt")
                  s2 Hio2) as (s3 & E3 & O3 & C3 & S3 & X3 & _).
      exists s3. destruct (default_path None (Some d) "scheduler.pt");
        repeat split; try assumption; congruence.
    - exfalso. now apply (Hsched ids). }
  destruct E3 as (s3 & E3 & O3 & C3 & S3 & X3).
  rewrite (bind_ok _ _ _ _ _ E3).
  destruct (default_path None (Some d) "steps_params.pt") as [p|] eqn:Hp.
  - destruct (save_steps_params_ok p s3 spe) as (s4 & E4 & O4 & C4 & S4 & X4);
      [rewrite C3; apply Hio2 | congruence | assumption |].
    exists s4. split; [assumption|].
    split; [|split; congruence].
    rewrite O4, O3, O2, O1. cbn [opt_op]. now rewrite <- !app_assoc.
  - exists s3. split; [reflexivity|].
    split; [|split; congruence].
    rewrite O3, O2, O1. cbn [opt_op]. now rewrite <- !app_assoc, app_nil_r.
Qed.


Example failing_run_calls :
  fst failing_run = Raise ValueError /\
  ops (snd failing_run)
  = [OpFetch 0%nat; OpSendEmail; OpSaveWeights "ckpt/model.pt";
     OpTorchSave "ckpt/optimizer.pt"; OpTorchSave "ckpt/steps_params.pt";
     OpTorchSave "dbg/batch.pt"].
Proof. split; reflexivity. Qed.



(** * Further properties of the trainer *)

(** ** Step parameters and checkpoints *)

Lemma step_params_of_bounds local spe ep :
  0 < spe ->
  0 <= sp_resume_step (step_params_of local spe ep) < spe /\
  sp_resume_epoch (step_params_of local spe ep) * spe
    + sp_resume_step (step_params_of local spe ep) = ep * spe + local + 1.
Proof.
  intros H. unfold step_params_of; cbn [sp_resume_step sp_resume_epoch].
  split; [apply Z.mod_pos_bound; lia|].
  pose proof (Z.div_mod (local + 1) spe ltac:(lia)) as E.
  rewrite Z.mul_add_distr_r. lia.
Qed.

(** X1. [save_steps_params] records the position of the step after the
    current one.  With [steps_per_epoch = S > 0] the saved pair satisfies
    [0 <= resume_step < S] and
    [resume_epoch * S + resume_step = epoch * S + local_step + 1]: inside an
    epoch it is the next local step of the same epoch, after the last step of
    an epoch it is step 0 of the next epoch. *)
Theorem saved_position_is_next_step (s : St) (path : string) (spe : Z)
    (Hspe : steps_per_epoch s = Some spe) (Hpos : 0 < spe)
    (Hio : io_fail (cfg s) (OpTorchSave path) = None) :
  exists s1 p,
    save_steps_params path s = (Ok tt, s1) /\
    dict_get path (disk s1) = Some p /\
    0 <= sp_resume_step p < spe /\
    sp_resume_epoch p * spe + sp_resume_step p
      = epoch s * spe + local_step s + 1 /\
    (0 <= local_step s < spe - 1 ->
     p = mkStepParams (local_step s + 1) (epoch s)) /\
    (local_step s = spe - 1 -> p = mkStepParams 0 (epoch s + 1)).
Proof.
  exists (set_disk (dict_set path (step_params_of (local_step s) spe (epoch s))
                             (disk s))
                   (set_ops (ops s ++ [OpTorchSave path]) s)).
  exists (step_params_of (local_step s) spe (epoch s)).
  split; [|split; [|split; [|split; [|split]]]].
  - unfold save_steps_params, bind at 1, get. rewrite Hspe.
    destruct (Z.eqb spe 0) eqn:E; [apply Z.eqb_eq in E; lia|].
    unfold bind, modify. rewrite io_ok by assumption. reflexivity.
  - cbn. apply dict_get_set_same.
  - apply step_params_of_bounds; assumption.
  - apply step_params_of_bounds; assumption.
  - intros H. unfold step_params_of.
    rewrite Z.mod_small, Z.div_small by lia. f_equal. lia.
  - intros H. unfold step_params_of.
    replace (local_step s + 1) with spe by lia.
    rewrite Z.mod_same, Z.div_same by lia. reflexivity.
Qed.

Lemma saved_position_is_next_step_witness :
  exists s1 p,
    save_steps_params "ckpt/steps_params.pt" interrupted = (Ok tt, s1) /\
    dict_get "ckpt/steps_params.pt" (disk s1) = Some p /\
    0 <= sp_resume_step p < 2 /\
    sp_resume_epoch p * 2 + sp_resume_step p
      = epoch interrupted * 2 + local_step interrupted + 1 /\
    (0 <= local_step interrupted < 2 - 1 ->
     p = mkStepParams (local_step interrupted + 1) (epoch interrupted)) /\
    (local_step interrupted = 2 - 1 -> p = mkStepParams 0 (epoch interrupted + 1)).
Proof.
  apply (saved_position_is_next_step interrupted "ckpt/steps_params.pt" 2).
  - reflexivity.
  - lia.
  - reflexivity.
Defined.

(** X2. What the step-parameter files do when they cannot be written or
    read.  [save_steps_params] computes the record before it touches the file
    system: without [steps_per_epoch] (a trainer that has not run [fit]) the
    modulo raises [TypeError], with [steps_per_epoch = 0] it raises
    [ZeroDivisionError], and a failing [torch.save] passes its error on; in
    each case no file is recorded.  [load_steps_params] on a missing file
    raises [FileNotFoundError] and leaves the resume counters alone. *)
Theorem step_params_failures (s : St) (path : string) :
  (steps_per_epoch s = None ->
   save_steps_params path s = (Raise TypeError, s)) /\
  (steps_per_epoch s = Some 0 ->
   save_steps_params path s = (Raise ZeroDivisionError, s)) /\
  (forall e spe, steps_per_epoch s = Some spe -> spe <> 0 ->
     io_fail (cfg s) (OpTorchSave path) = Some e ->
     save_steps_params path s = (Raise e, s)) /\
  (dict_get path (disk s) = None ->
   load_steps_params path s = (Raise FileNotFoundError, s)).
Proof.
  split; [|split; [|split]].
  - intros H. unfold save_steps_params, bind, get. now rewrite H.
  - intros H. unfold save_steps_params, bind, get. now rewrite H.
  - intros e spe H Hnz Hio. unfold save_steps_params, bind at 1, get.
    rewrite H. destruct (Z.eqb spe 0) eqn:E; [apply Z.eqb_eq in E; contradiction|].
    unfold bind, io. now rewrite Hio.
  - intros H. unfold load_steps_params, bind, get. now rewrite H.
Qed.

Lemma default_path_none explicit dir name :
  default_path explicit dir name = None <-> absent explicit /\ absent dir.
Proof.
  unfold default_path, absent, str_or.
  destruct explicit as [[|a e]|], dir as [[|b d]|]; split;
    try discriminate; try (intros _; split; auto); try reflexivity;
    intros [[H|H] [H'|H']]; discriminate.
Qed.

Lemma default_path_explicit p dir name :
  p <> "" -> default_path (Some p) dir name = Some p.
Proof.
  intros H. unfold default_path, str_or. destruct p; [contradiction|reflexivity].
Qed.

(** The scheduler file of [save_to_checkpoint] when the scheduler is not a
    list. *)
Lemma save_scheduler_ok scp d s :
  (forall o, io_fail (cfg s) o = None) ->
  (forall ids, scheduler (cfg s) <> SchedulerList ids) ->
  exists s',
    match default_path scp d "scheduler.pt", scheduler (cfg s) with
    | Some p, OneScheduler _ => io (OpTorchSave p)
    | Some p, SchedulerList _ => raise AttributeError
    | _, _ => ret tt
    end s = (Ok tt, s') /\
    ops s' = ops s ++
             match scheduler (cfg s) with
             | NoScheduler => []
             | _ => opt_op OpTorchSave (default_path scp d "scheduler.pt")
             end /\
    cfg s' = cfg s /\ steps_per_epoch s' = steps_per_epoch s.
Proof.
  intros Hio Hsched.
  destruct (scheduler (cfg s)) as [|i|ids] eqn:Hs.
  - exists s. rewrite app_nil_r.
    destruct (default_path scp d "scheduler.pt"); auto.
  - destruct (opt_io_ok OpTorchSave (default_path scp d "scheduler.pt") s Hio)
      as (s3 & E3 & O3 & C3 & S3 & _).
    exists s3. destruct (default_path scp d "scheduler.pt"); auto.
  - exfalso. now apply (Hsched ids).
Qed.

(** X3. [save_to_checkpoint] writes the four artifacts independently: each
    one is written exactly when its own path or [save_dir] is given (not
    [None], not empty), to its own path if that is given; the scheduler only
    when the trainer has one.  When the file calls succeed, the scheduler is
    not a list and the step parameters (if asked for) can be computed, the
    files written are, in this order, the weights, the optimizer state, the
    scheduler state and the step parameters. *)
Theorem save_to_checkpoint_artifacts d mp op scp pp (s : St)
    (Hio : forall o, io_fail (cfg s) o = None)
    (Hsched : forall ids, scheduler (cfg s) <> SchedulerList ids)
    (Hspe : default_path pp d "steps_params.pt" <> None ->
            exists spe, steps_per_epoch s = Some spe /\ spe <> 0) :
  (exists s',
     save_to_checkpoint d mp op scp pp s = (Ok tt, s') /\
     ops s' = ops s ++ checkpoint_files (cfg s) d mp op scp pp) /\
  (forall explicit name,
     default_path explicit d name = None <-> absent explicit /\ absent d) /\
  (forall p name, p <> "" -> default_path (Some p) d name = Some p).
Proof.
  split; [|split; [intros; apply default_path_none
                  |intros; now apply default_path_explicit]].
  unfold save_to_checkpoint, checkpoint_files.
  destruct (opt_io_ok OpSaveWeights (default_path mp d "model.pt") s Hio)
    as (s1 & E1 & O1 & C1 & S1 & _).
  rewrite (bind_ok _ _ _ _ _ E1).
  assert (Hio1 : forall o, io_fail (cfg s1) o = None) by (now rewrite C1).
  destruct (opt_io_ok OpTorchSave (default_path op d "optimizer.pt") s1 Hio1)
    as (s2 & E2 & O2 & C2 & S2 & _).
  rewrite (bind_ok _ _ _ _ _ E2).
  unfold bind at 1, get.
  assert (Hio2 : forall o, io_fail (cfg s2) o = None) by (now rewrite C2).
  assert (Hsched2 : forall ids, scheduler (cfg s2) <> SchedulerList ids)
    by (now rewrite C2, C1).
  destruct (save_scheduler_ok scp d s2 Hio2 Hsched2) as (s3 & E3 & O3 & C3 & S3).
  rewrite (bind_ok _ _ _ _ _ E3).
  rewrite C2, C1 in O3.
  destruct (default_path pp d "steps_params.pt") as [p|] eqn:Hp.
  - destruct Hspe as (spe & Hspe & Hnz); [discriminate|].
    destruct (save_steps_params_ok p s3 spe) as (s4 & E4 & O4 & _);
      [rewrite C3; apply Hio2 | congruence | assumption |].
    exists s4. split; [assumption|].
    rewrite O4, O3, O2, O1. cbn [opt_op]. now rewrite <- !app_assoc.
  - exists s3. split; [reflexivity|].
    rewrite O3, O2, O1. cbn [opt_op]. now rewrite <- !app_assoc, app_nil_r.
Qed.

Lemma save_to_checkpoint_artifacts_witness :
  (exists s',
     save_to_checkpoint None (Some "w.pt") None None (Some "run/steps.pt")
                        interrupted = (Ok tt, s') /\
     ops s' = ops interrupted
              ++ checkpoint_files (cfg interrupted) None (Some "w.pt") None None
                                  (Some "run/steps.pt")) /\
  (forall explicit name,
     default_path explicit None name = None <-> absent explicit /\ absent None) /\
  (forall p name, p <> "" -> default_path (Some p) None name = Some p).
Proof.
  apply (save_to_checkpoint_artifacts None (Some "w.pt") None None
           (Some "run/steps.pt") interrupted).
  - intros o. reflexivity.
  - intros ids. discriminate.
  - intros _. exists 2. split; [reflexivity | lia].
Defined.

Example save_to_checkpoint_two_files :
  ops (snd (save_to_checkpoint None (Some "w.pt") None None (Some "run/steps.pt")
              interrupted))
  = [OpSaveWeights "w.pt"; OpTorchSave "run/steps.pt"].
Proof. reflexivity. Qed.

(** X4. A trainer that steps a list of schedulers cannot save its scheduler:
    when the scheduler is a list and a scheduler file is asked for (by its
    path or through [save_dir]), [save_to_checkpoint] raises
    [AttributeError] after the weights and the optimizer state were written,
    and the step parameters are never written. *)
Theorem save_to_checkpoint_scheduler_list d mp op scp pp (s : St) ids p
    (Hio : forall o, io_fail (cfg s) o = None)
    (Hsched : scheduler (cfg s) = SchedulerList ids)
    (Hpath : default_path scp d "scheduler.pt" = Some p) :
  exists s',
    save_to_checkpoint d mp op scp pp s = (Raise AttributeError, s') /\
    ops s' = ops s ++ opt_op OpSaveWeights (default_path mp d "model.pt")
                   ++ opt_op OpTorchSave (default_path op d "optimizer.pt") /\
    disk s' = disk s.
Proof.
  unfold save_to_checkpoint.
  destruct (opt_io_ok OpSaveWeights (default_path mp d "model.pt") s Hio)
    as (s1 & E1 & O1 & C1 & _).
  rewrite (bind_ok _ _ _ _ _ E1).
  assert (Hio1 : forall o, io_fail (cfg s1) o = None) by (now rewrite C1).
  destruct (opt_io_ok OpTorchSave (default_path op d "optimizer.pt") s1 Hio1)
    as (s2 & E2 & O2 & C2 & _).
  rewrite (bind_ok _ _ _ _ _ E2).
  unfold bind, get. rewrite Hpath, C2, C1, Hsched. unfold raise.
  exists s2. split; [reflexivity|]. split.
  - rewrite O2, O1. now rewrite <- app_assoc.
  - assert (D1 : disk s1 = disk s).
    { destruct (default_path mp d "model.pt"); cbn in E1.
      - rewrite io_ok in E1 by apply Hio. now inversion E1.
      - now inversion E1. }
    assert (D2 : disk s2 = disk s1).
    { destruct (default_path op d "optimizer.pt"); cbn in E2.
      - rewrite io_ok in E2 by apply Hio1. now inversion E2.
      - now inversion E2. }
    congruence.
Qed.

Lemma save_to_checkpoint_scheduler_list_witness :
  exists s',
    save_to_checkpoint (Some "ckpt") None None None None
                       (set_steps_per_epoch (Some 2) (initialize fp16_config))
    = (Raise AttributeError, s') /\
    ops s' = ops (set_steps_per_epoch (Some 2) (initialize fp16_config))
             ++ opt_op OpSaveWeights (default_path None (Some "ckpt") "model.pt")
             ++ opt_op OpTorchSave (default_path None (Some "ckpt") "optimizer.pt") /\
    disk s' = disk (set_steps_per_epoch (Some 2) (initialize fp16_config)).
Proof.
  apply (save_to_checkpoint_scheduler_list (Some "ckpt") None None None None
           (set_steps_per_epoch (Some 2) (initialize fp16_config))
           [0; 1]%nat "ckpt/scheduler.pt").
  - intros o. reflexivity.
  - reflexivity.
  - reflexivity.
Defined.

(** X5. A checkpoint cannot be saved into a directory before [fit] has run:
    on a fresh trainer [steps_per_epoch] is still [None], so
    [save_to_checkpoint(save_dir)] writes the weights and the optimizer state
    (and the scheduler state, if there is one scheduler) and then fails with
    [TypeError] in [save_steps_params].  (The directory name is taken
    without a separator at its end.) *)
Theorem save_to_checkpoint_before_fit (c : Config) (dir : string)
    (Hio : forall o, io_fail c o = None)
    (Hsched : forall ids, scheduler c <> SchedulerList ids)
    (Hdir : dir <> "") :
  exists s',
    save_to_checkpoint (Some dir) None None None None (initialize c)
    = (Raise TypeError, s') /\
    ops s' = [OpSaveWeights (path_join dir "model.pt");
              OpTorchSave (path_join dir "optimizer.pt")]
             ++ match scheduler c with
                | NoScheduler => []
                | _ => [OpTorchSave (path_join dir "scheduler.pt")]
                end /\
    disk s' = [].
Proof.
  assert (D : forall name, default_path None (Some dir) name
                           = Some (path_join dir name)).
  { intros name. unfold default_path, str_or. destruct dir; [contradiction|reflexivity]. }
  unfold save_to_checkpoint. rewrite !D.
  unfold bind at 1. rewrite io_ok by apply Hio.
  unfold bind at 1. rewrite io_ok by apply Hio.
  unfold bind at 1, get. cbn [cfg set_ops initialize ops].
  destruct (scheduler c) as [|i|ids] eqn:Hs.
  - unfold bind, ret, save_steps_params, get. cbn.
    eexists. split; [reflexivity|]. split; reflexivity.
  - unfold bind at 1. rewrite io_ok by apply Hio.
    unfold bind, ret, save_steps_params, get. cbn.
    eexists. split; [reflexivity|]. split; reflexivity.
  - exfalso. now apply (Hsched ids).
Qed.

Lemma save_to_checkpoint_before_fit_witness :
  exists s',
    save_to_checkpoint (Some "ckpt") None None None None (initialize plain_config)
    = (Raise TypeError, s') /\
    ops s' = [OpSaveWeights (path_join "ckpt" "model.pt");
              OpTorchSave (path_join "ckpt" "optimizer.pt")]
             ++ match scheduler plain_config with
                | NoScheduler => []
                | _ => [OpTorchSave (path_join "ckpt" "scheduler.pt")]
                end /\
    disk s' = [].
Proof.
  apply (save_to_checkpoint_before_fit plain_config "ckpt").
  - intros o. reflexivity.
  - intros ids. discriminate.
  - discriminate.
Defined.

(** ** Resuming *)

(** The first three dispatches of a run whose first epoch has a step to do. *)
Lemma fit_events_first_step spe re rs n_epochs cbs tr0 ok evs :
  fit_events spe re rs n_epochs cbs tr0 ok evs ->
  re < n_epochs -> rs < spe ->
  exists ob0 ob1 ob2 rest,
    evs = ob0 :: ob1 :: ob2 :: rest /\
    hook ob0 = on_train_begin /\
    hook ob1 = on_epoch_begin /\ o_epoch ob1 = re /\
    hook ob2 = on_batch_begin /\ at_counters (re * spe + rs) rs re ob2.
Proof.
  intros (c0 & c1 & k & loop & tl & -> & L & _) Hre Hrs.
  rewrite (range_cons re n_epochs Hre) in L.
  assert (H : exists cpl evs1 cx more,
             loop = evs1 ++ more /\
             epoch_events spe re rs re c0 cpl evs1 cx).
  { inversion L; subst.
    - exists false, loop, c1, []. now rewrite app_nil_r.
    - exists true, loop, c1, []. now rewrite app_nil_r.
    - eauto 10. }
  destruct H as (cpl & evs1 & cx & more & -> & (evsS & tl1 & c & -> & S & _)).
  unfold epoch_start in S. rewrite Z.eqb_refl in S.
  rewrite (range_cons rs spe Hrs) in S.
  assert (H : exists cs e1 e2, evsS = e1 ++ e2 /\
                               step_events (re * spe + rs) rs re cs e1).
  { inversion S; subst.
    - eauto 10.
    - exists false, evsS, []. now rewrite app_nil_r. }
  destruct H as (cs & e1 & e2 & -> & (ob & mid & tl2 & -> & Hh & Hc & _)).
  do 4 eexists. split; [cbn; reflexivity|].
  cbn. auto 10.
Qed.

(** X6. Resuming continues the count of global steps.  Let a trainer with
    [steps_per_epoch = S > 0] whose counters agree
    ([global_step = epoch * S + local_step]) save its step parameters while
    it is at global step [g], and let another trainer load that file and run
    [fit] with the same [S] and enough epochs for step [g + 1] to exist.  If
    the run gets past its preparation, its first three dispatches are
    [on_train_begin], [on_epoch_begin] and an [on_batch_begin] whose global
    step is [g + 1]. *)
Theorem resume_continues_global_step (s t : St) (path : string) (spe : Z)
    dl steps n_epochs cbs v kw r t2 evs
    (Hspe : steps_per_epoch s = Some spe) (Hpos : 0 < spe)
    (Hcnt : global_step s = epoch s * spe + local_step s)
    (Hdisk : dict_get path (disk t)
             = Some (step_params_of (local_step s) spe (epoch s)))
    (Hrun : fit dl steps n_epochs cbs v kw (snd (load_steps_params path t))
            = (r, t2))
    (Hspe2 : steps_per_epoch t2 = Some spe)
    (Hevs : trace t2 = trace t ++ evs) (Hran : evs <> [])
    (Hmore : global_step s + 1 < n_epochs * spe) :
  exists ob0 ob1 ob2 rest,
    evs = ob0 :: ob1 :: ob2 :: rest /\
    hook ob0 = on_train_begin /\ hook ob1 = on_epoch_begin /\
    hook ob2 = on_batch_begin /\ o_global_step ob2 = global_step s + 1.
Proof.
  destruct (step_params_of_bounds (local_step s) spe (epoch s) Hpos) as (B & G).
  set (p := step_params_of (local_step s) spe (epoch s)) in *.
  assert (L : snd (load_steps_params path t)
              = set_resume_epoch (sp_resume_epoch p)
                  (set_resume_step (sp_resume_step p) t)).
  { unfold load_steps_params, bind at 1, get. rewrite Hdisk. reflexivity. }
  rewrite L in Hrun. clearbody p.
  destruct (fit_dispatches _ _ _ _ _ _ _ _ _ Hrun)
    as [(T & _)|(spe0 & evs0 & Hspe0 & T & F)]; cbn in T.
  - exfalso. apply Hran. rewrite Hevs in T.
    rewrite <- (app_nil_r (trace t)) in T at 2. now apply app_inv_head in T.
  - assert (spe0 = spe) by congruence. subst spe0.
    assert (evs0 = evs).
    { rewrite Hevs in T. now apply app_inv_head in T. }
    subst evs0. cbn in F.
    assert (Hre : sp_resume_epoch p < n_epochs)
      by (apply (Z.mul_lt_mono_pos_r spe); lia).
    destruct (fit_events_first_step _ _ _ _ _ _ _ _ F Hre (proj2 B))
      as (ob0 & ob1 & ob2 & rest & E & H0 & H1 & _ & H2 & (Hg & _)).
    exists ob0, ob1, ob2, rest. repeat (split; [assumption|]). lia.
Qed.

Lemma resume_continues_global_step_witness :
  exists ob0 ob1 ob2 rest,
    trace (snd resumed_run) = ob0 :: ob1 :: ob2 :: rest /\
    hook ob0 = on_train_begin /\ hook ob1 = on_epoch_begin /\
    hook ob2 = on_batch_begin /\ o_global_step ob2 = global_step interrupted + 1.
Proof.
  destruct resumed_run as [r t2] eqn:E.
  assert (Hspe2 : steps_per_epoch (snd resumed_run) = Some 2)
    by (vm_compute; reflexivity).
  assert (Hran : trace (snd resumed_run) <> []) by (vm_compute; discriminate).
  rewrite E in Hspe2, Hran. cbn [snd] in *.
  apply (resume_continues_global_step interrupted restarted
           "ckpt/steps_params.pt" 2 two_batches None 2 ArgNone 0 no_kwargs
           r t2 (trace t2)).
  - reflexivity.
  - lia.
  - reflexivity.
  - reflexivity.
  - exact E.
  - exact Hspe2.
  - reflexivity.
  - exact Hran.
  - vm_compute. reflexivity.
Defined.

(** ** What the run loop leaves alone *)

Section Frames.
Variable R : St -> St -> Prop.
Hypothesis R_refl : forall s, R s s.
Hypothesis R_trans : forall s1 s2 s3, R s1 s2 -> R s2 s3 -> R s1 s3.
Hypothesis R_ops : forall s l, R s (set_ops l s).
Hypothesis R_scale_before : forall s q, R s (set_scale_before_step q s).
Hypothesis R_scaler : forall s q, R s (set_scaler_scale q s).
Hypothesis R_dispatch : forall h logs, framed R (dispatch h logs).
Hypothesis R_iter : forall s l, R s (set_train_dataloader_iter l s).
Hypothesis R_batch_step : forall s z, R s (set_batch_step z s).
Hypothesis R_train_X : forall s x, R s (set_train_X x s).
Hypothesis R_local : forall s z, R s (set_local_step z s).
Hypothesis R_global : forall s z, R s (set_global_step z s).
Hypothesis R_epoch : forall s z, R s (set_epoch z s).

Lemma framed_ret {A} (a : A) : framed R (ret a).
Proof. intros s. apply R_refl. Qed.

Lemma framed_raise {A} (e : exn) : framed R (@raise A e).
Proof. intros s. apply R_refl. Qed.

Lemma framed_get : framed R get.
Proof. intros s. apply R_refl. Qed.

Lemma framed_modify f : (forall s, R s (f s)) -> framed R (modify f).
Proof. intros H s. apply H. Qed.

Lemma framed_bind {A B} (m : M A) (k : A -> M B) :
  framed R m -> (forall a, framed R (k a)) -> framed R (bind m k).
Proof.
  intros Hm Hk s. unfold bind. specialize (Hm s).
  destruct (m s) as [[a|e] s1]; cbn [snd] in *; [|assumption].
  eapply R_trans; [eassumption | apply Hk].
Qed.

Lemma framed_emit o : framed R (emit o).
Proof. apply framed_modify. intros s. apply R_ops. Qed.

Lemma framed_loss_backward v : framed R (loss_backward v).
Proof.
  unfold loss_backward.
  apply framed_bind; [apply framed_modify; intros; apply R_scale_before|].
  intros _. apply framed_bind; [apply framed_get|]. intros s0.
  apply framed_bind; [|intros; apply framed_ret].
  destruct (mp_on (mixed_precision_mode (cfg s0))).
  - apply framed_bind; [apply framed_modify; intros; apply R_scale_before|].
    intros _. destruct v; [apply framed_emit | apply framed_raise].
  - destruct v; [apply framed_emit | apply framed_raise].
Qed.

Lemma framed_scale_detail a d : framed R (scale_detail a d).
Proof.
  unfold scale_detail. destruct d; [apply framed_ret|].
  destruct (Z.eqb a 0); [apply framed_raise | apply framed_ret].
Qed.

Lemma framed_train_step b : framed R (train_step b).
Proof.
  unfold train_step. apply framed_bind; [apply framed_get|]. intros s0.
  apply framed_bind.
  - destruct (criterion (cfg s0) b) as [q|d|l|].
    + apply framed_ret.
    + destruct (dict_get "loss" d); [apply framed_ret | apply framed_raise].
    + destruct l; [apply framed_raise | apply framed_ret].
    + apply framed_raise.
  - intros ld. apply framed_bind; [apply framed_loss_backward|]. intros loss.
    apply framed_bind; [apply framed_scale_detail|]. intros; apply framed_ret.
Qed.

Lemma framed_step_schedulers ids : framed R (step_schedulers ids).
Proof.
  induction ids as [|i ids IH]; cbn; [apply framed_ret|].
  apply framed_bind; [apply framed_emit | intros; apply IH].
Qed.

Lemma framed_clip_gradients : framed R clip_gradients.
Proof.
  unfold clip_gradients. apply framed_bind; [apply framed_get|]. intros s0.
  destruct (clip_grad_norm (cfg s0)); [apply framed_emit | apply framed_ret].
Qed.

Lemma framed_step : framed R step.
Proof.
  unfold step. apply framed_bind; [apply framed_get|]. intros s0.
  apply framed_bind.
  - destruct (mp_on (mixed_precision_mode (cfg s0))).
    + apply framed_bind; [apply framed_emit|]. intros _.
      apply framed_bind; [apply framed_clip_gradients|]. intros _.
      apply framed_bind; [apply framed_emit|]. intros _.
      apply framed_bind; [apply framed_modify; intros; apply R_scaler|]. intros _.
      apply framed_bind; [apply framed_emit|]. intros _.
      apply framed_bind; [apply framed_get|]. intros; apply framed_ret.
    + apply framed_bind; [apply framed_clip_gradients|]. intros _.
      apply framed_bind; [apply framed_emit|]. intros; apply framed_ret.
  - intros skip. apply framed_bind; [apply framed_emit|]. intros _.
    destruct (scheduler (cfg s0)) as [|i|ids].
    + apply framed_ret.
    + destruct skip; [apply framed_ret | apply framed_emit].
    + destruct skip; [apply framed_ret | apply framed_step_schedulers].
Qed.

Lemma framed_prepare_nextbatch : framed R _prepare_nextbatch.
Proof.
  unfold _prepare_nextbatch. apply framed_bind; [apply framed_get|]. intros s0.
  destruct (train_dataloader_iter s0) as [|b rest].
  - apply framed_bind; [apply R_dispatch|]. intros _.
    destruct (train_dataloader s0) as [dl|]; [|apply framed_raise].
    apply framed_bind; [apply framed_modify; intros; apply R_iter|]. intros _.
    apply framed_bind; [apply framed_modify; intros; apply R_batch_step|].
    intros _. destruct (dl_batches dl) as [|b rest]; [apply framed_raise|].
    apply framed_bind; [apply framed_modify; intros; apply R_iter|]. intros _.
    apply framed_bind; [apply framed_emit | intros; apply framed_ret].
  - apply framed_bind; [apply framed_modify; intros; apply R_iter|]. intros _.
    apply framed_bind; [apply framed_modify; intros; apply R_batch_step|].
    intros _. apply framed_bind; [apply framed_emit | intros; apply framed_ret].
Qed.

Lemma framed_accumulate n : forall tl td out, framed R (accumulate n tl td out).
Proof.
  induction n as [|n IH]; intros tl td out; cbn; [apply framed_ret|].
  apply framed_bind; [apply framed_prepare_nextbatch|]. intros b.
  apply framed_bind; [apply framed_modify; intros; apply R_train_X|]. intros _.
  apply framed_bind; [apply framed_train_step|]. intros [[o loss] detail].
  apply framed_bind; [apply R_dispatch|]. intros _. apply IH.
Qed.

Lemma framed_log_init : framed R _log_init.
Proof.
  unfold _log_init. apply framed_bind; [apply framed_get|].
  intros; apply framed_ret.
Qed.

Lemma framed_step_body spe l : framed R (step_body spe l).
Proof.
  unfold step_body.
  apply framed_bind; [apply framed_modify; intros; apply R_local|]. intros _.
  apply framed_bind; [apply framed_modify; intros; apply R_global|]. intros _.
  apply framed_bind; [apply framed_log_init|]. intros logs.
  apply framed_bind; [apply R_dispatch|]. intros _.
  apply framed_bind; [apply framed_get|]. intros s0.
  apply framed_bind; [apply framed_accumulate|]. intros [[tl td] out].
  apply framed_bind; [apply framed_step|]. intros _.
  apply framed_bind.
  - destruct out; [apply framed_ret | apply framed_raise].
  - intros logs'. apply framed_bind; [apply R_dispatch|].
    intros; apply framed_ret.
Qed.

Lemma framed_step_loop spe ls : forall logs, framed R (step_loop spe ls logs).
Proof.
  induction ls as [|l ls IH]; intros logs; cbn; [apply framed_ret|].
  apply framed_bind; [apply framed_step_body | intros; apply IH].
Qed.

Lemma framed_epoch_body e logs : framed R (epoch_body e logs).
Proof.
  unfold epoch_body.
  apply framed_bind; [apply framed_modify; intros; apply R_epoch|]. intros _.
  apply framed_bind; [apply framed_get|]. intros s0.
  apply framed_bind; [apply R_dispatch|]. intros _.
  destruct (steps_per_epoch s0) as [spe|]; [|apply framed_raise].
  apply framed_bind; [apply framed_step_loop|]. intros logs'.
  apply framed_bind; [apply R_dispatch | intros; apply framed_ret].
Qed.

Lemma framed_epoch_loop es : forall logs, framed R (epoch_loop es logs).
Proof.
  induction es as [|e es IH]; intros logs; cbn; [apply framed_ret|].
  apply framed_bind; [apply framed_epoch_body|]. intros logs'.
  apply framed_bind; [apply framed_get|]. intros s0.
  destruct (stop_training s0); [apply framed_ret | apply IH].
Qed.
End Frames.

Lemma framed_run {A} R (m : M A) s r s' :
  framed R m -> m s = (r, s') -> R s s'.
Proof. intros F E. specialize (F s). now rewrite E in F. Qed.

Lemma run_hooks_quiet cbs tr b : quiet cbs -> run_hooks cbs tr b = b.
Proof.
  unfold run_hooks. revert b.
  induction cbs as [|c cbs IH]; intros b Hq; cbn; [reflexivity|].
  rewrite (Hq c tr (or_introl eq_refl)). apply IH.
  intros c' tr' Hin. apply Hq. now right.
Qed.

Lemma calm_refl s : calm s s.
Proof. split; [apply keeps_refl | intros _; reflexivity]. Qed.

Lemma calm_trans s1 s2 s3 : calm s1 s2 -> calm s2 s3 -> calm s1 s3.
Proof.
  intros (K1 & S1) (K2 & S2). split; [eapply keeps_trans; eassumption|].
  intros Hq. unfold stop_kept in *.
  destruct K1 as (_ & _ & _ & _ & Hc & _).
  rewrite S2, S1; [reflexivity | assumption | now rewrite Hc].
Qed.

Lemma steady_refl s : steady s s.
Proof. split; [apply calm_refl | reflexivity]. Qed.

Lemma steady_trans s1 s2 s3 : steady s1 s2 -> steady s2 s3 -> steady s1 s3.
Proof.
  intros (C1 & I1) (C2 & I2). split; [eapply calm_trans; eassumption|].
  congruence.
Qed.

Ltac frame_field :=
  intros; unfold steady, calm, keeps, stop_kept; cbn; tauto.

Lemma dispatch_steady h logs : framed steady (dispatch h logs).
Proof.
  intros s. unfold dispatch, modify, steady, calm, keeps, stop_kept. cbn.
  repeat split; try reflexivity.
  intros Hq. now apply run_hooks_quiet.
Qed.

Lemma dispatch_calm h logs : framed calm (dispatch h logs).
Proof. intros s. apply dispatch_steady. Qed.

Ltac steady_frame :=
  first [ exact steady_refl | exact steady_trans | exact dispatch_steady
        | frame_field ].

Ltac calm_frame :=
  first [ exact calm_refl | exact calm_trans | exact dispatch_calm
        | frame_field ].

Lemma train_step_steady b : framed steady (train_step b).
Proof.
  apply framed_train_step; steady_frame.
Qed.

Lemma step_steady : framed steady step.
Proof.
  apply framed_step; steady_frame.
Qed.

Lemma epoch_loop_calm es logs : framed calm (epoch_loop es logs).
Proof.
  apply framed_epoch_loop; calm_frame.
Qed.

Lemma epoch_body_calm e logs : framed calm (epoch_body e logs).
Proof.
  apply framed_epoch_body; calm_frame.
Qed.

Lemma step_loop_calm spe ls logs : framed calm (step_loop spe ls logs).
Proof.
  apply framed_step_loop; calm_frame.
Qed.

Lemma step_body_calm spe l : framed calm (step_body spe l).
Proof.
  apply framed_step_body; calm_frame.
Qed.

Lemma accumulate_calm n tl td out : framed calm (accumulate n tl td out).
Proof.
  apply framed_accumulate; calm_frame.
Qed.

Lemma prepare_nextbatch_calm : framed calm _prepare_nextbatch.
Proof.
  apply framed_prepare_nextbatch; calm_frame.
Qed.

(** ** Runs that return *)

Lemma loader_ready_steady dl s s' :
  steady s s' -> loader_ready dl s -> loader_ready dl s'.
Proof.
  intros ((K & _) & I) (D & N & seen & E).
  destruct K as (_ & _ & _ & _ & _ & Kd).
  unfold loader_ready. rewrite Kd, I. eauto.
Qed.

(** The two ways a fetch goes: the iterator has a batch, or it is exhausted
    and rebuilt. *)
Lemma prepare_nextbatch_next s b rest :
  train_dataloader_iter s = b :: rest ->
  exists s',
    _prepare_nextbatch s = (Ok b, s') /\
    train_dataloader_iter s' = rest /\
    train_dataloader s' = train_dataloader s /\
    ops s' = ops s ++ [OpFetch b] /\
    batch_step s' = batch_step s + 1 /\ trace s' = trace s.
Proof.
  intros Hit. unfold _prepare_nextbatch, bind at 1, get. rewrite Hit.
  unfold bind, modify, emit, ret. cbn.
  eexists. split; [reflexivity|]. cbn. repeat split.
Qed.

Lemma prepare_nextbatch_restart dl s b rest :
  train_dataloader s = Some dl -> train_dataloader_iter s = [] ->
  dl_batches dl = b :: rest ->
  exists s',
    _prepare_nextbatch s = (Ok b, s') /\
    train_dataloader_iter s' = rest /\
    train_dataloader s' = Some dl /\
    ops s' = ops s ++ [OpFetch b] /\
    batch_step s' = 0 /\
    exists o, trace s' = trace s ++ [o] /\ hook o = on_dataloader_end.
Proof.
  intros D Hit Hb. unfold _prepare_nextbatch, bind at 1, get. rewrite Hit.
  unfold bind at 1, dispatch, modify.
  cbn [train_dataloader set_stop_training set_trace]. rewrite D, Hb.
  unfold bind, modify, emit, ret. cbn.
  eexists. split; [reflexivity|]. cbn. rewrite D.
  do 4 (split; [reflexivity|]). eexists. split; reflexivity.
Qed.

Lemma prepare_nextbatch_ok dl s :
  loader_ready dl s ->
  exists b s',
    _prepare_nextbatch s = (Ok b, s') /\ loader_ready dl s' /\
    ops s' = ops s ++ [OpFetch b] /\
    (batch_step s' = batch_step s + 1 \/ batch_step s' = 0).
Proof.
  intros (D & N & seen & E).
  destruct (train_dataloader_iter s) as [|b rest] eqn:Hit.
  - destruct (dl_batches dl) as [|b rest] eqn:Hb; [contradiction|].
    destruct (prepare_nextbatch_restart dl s b rest D Hit Hb)
      as (s' & R & I & D' & O & B & _).
    exists b, s'. split; [exact R|]. split; [|split; [exact O | now right]].
    split; [exact D'|]. split; [now rewrite Hb|]. exists [b]. now rewrite Hb, I.
  - destruct (prepare_nextbatch_next s b rest Hit) as (s' & R & I & D' & O & B & _).
    exists b, s'. split; [exact R|]. split; [|split; [exact O | now left]].
    split; [congruence|]. split; [assumption|].
    exists (seen ++ [b]). rewrite I. now rewrite <- app_assoc.
Qed.

(** X7. Fetching from a loader that yields at least one batch per pass never
    fails and walks the loader round and round: while the iterator has
    batches left, [_prepare_nextbatch] hands out the next one, adds one to
    [batch_step] and dispatches nothing; when the iterator is exhausted it
    dispatches [on_dataloader_end] exactly once, rebuilds the iterator, hands
    out the first batch of the new pass and leaves [batch_step] at 0 (the
    batch fetched by the retry is not counted).  Either way the iterator
    stays a tail of one pass over the loader. *)
Theorem prepare_nextbatch_cycles (dl : DataLoader) (s : St)
    (Hready : loader_ready dl s) :
  exists b s',
    _prepare_nextbatch s = (Ok b, s') /\ loader_ready dl s' /\
    ops s' = ops s ++ [OpFetch b] /\
    ((train_dataloader_iter s = b :: train_dataloader_iter s' /\
      batch_step s' = batch_step s + 1 /\ trace s' = trace s) \/
     (train_dataloader_iter s = [] /\
      dl_batches dl = b :: train_dataloader_iter s' /\
      batch_step s' = 0 /\
      exists o, trace s' = trace s ++ [o] /\ hook o = on_dataloader_end)).
Proof.
  destruct Hready as (D & N & seen & E).
  destruct (train_dataloader_iter s) as [|b rest] eqn:Hit.
  - (* exhausted: [StopIteration] is caught and the pass starts again *)
    destruct (dl_batches dl) as [|b rest] eqn:Hb; [contradiction|].
    destruct (prepare_nextbatch_restart dl s b rest D Hit Hb)
      as (s' & R & I & D' & O & B & T).
    exists b, s'. split; [exact R|]. split; [|split; [exact O|]].
    + split; [exact D'|]. split; [now rewrite Hb|].
      exists [b]. now rewrite Hb, I.
    + right. rewrite I. auto.
  - (* a batch is left *)
    destruct (prepare_nextbatch_next s b rest Hit)
      as (s' & R & I & D' & O & B & T).
    exists b, s'. split; [exact R|]. split; [|split; [exact O|]].
    + split; [congruence|]. split; [assumption|].
      exists (seen ++ [b]). rewrite I. now rewrite <- app_assoc.
    + left. rewrite I. auto.
Qed.

Lemma prepare_nextbatch_cycles_witness :
  exists b s',
    _prepare_nextbatch (set_train_dataloader (Some two_batches)
                          (initialize plain_config)) = (Ok b, s') /\
    loader_ready two_batches s' /\
    ops s' = ops (set_train_dataloader (Some two_batches)
                    (initialize plain_config)) ++ [OpFetch b] /\
    ((train_dataloader_iter (set_train_dataloader (Some two_batches)
                               (initialize plain_config))
      = b :: train_dataloader_iter s' /\
      batch_step s' = batch_step (set_train_dataloader (Some two_batches)
                                    (initialize plain_config)) + 1 /\
      trace s' = trace (set_train_dataloader (Some two_batches)
                          (initialize plain_config))) \/
     (train_dataloader_iter (set_train_dataloader (Some two_batches)
                               (initialize plain_config)) = [] /\
      dl_batches two_batches = b :: train_dataloader_iter s' /\
      batch_step s' = 0 /\
      exists o, trace s' = trace (set_train_dataloader (Some two_batches)
                                    (initialize plain_config)) ++ [o] /\
                hook o = on_dataloader_end)).
Proof.
  apply (prepare_nextbatch_cycles two_batches
           (set_train_dataloader (Some two_batches) (initialize plain_config))).
  split; [reflexivity|]. split; [discriminate|].
  exists [0; 1]%nat. reflexivity.
Defined.

Lemma train_step_ok b s :
  tensor_loss (cfg s) -> grad_accumulation_steps (cfg s) <> 0 ->
  exists r s', train_step b s = (Ok r, s').
Proof.
  intros Hloss Ha. destruct (Hloss b) as (q & Hq).
  set (a := grad_accumulation_steps (cfg s)) in *.
  assert (Htail : forall d,
    exists r s',
      bind (loss_backward (if 1 <? a then value_div (VTensor q) a else VTensor q))
        (fun loss => bind (scale_detail a d)
                       (fun detail => ret (b, loss, detail))) s = (Ok r, s')).
  { intros d.
    assert (Hv : exists q', (if 1 <? a then value_div (VTensor q) a else VTensor q)
                            = VTensor q')
      by (destruct (1 <? a); cbn; eauto).
    destruct Hv as (q' & ->).
    destruct (loss_backward_tensor q' s) as (s1 & E1 & _).
    rewrite (bind_ok _ _ _ _ _ E1).
    unfold bind. rewrite scale_detail_ok by assumption.
    unfold ret. eauto. }
  unfold train_step, bind at 1, get. fold a.
  destruct (criterion (cfg s) b) as [q0|d|l|] eqn:Hc; cbn in Hq.
  - injection Hq as ->. unfold bind at 1, ret at 1. cbn [fst snd]. apply Htail.
  - rewrite Hq. unfold bind at 1, ret at 1. cbn [fst snd]. apply Htail.
  - destruct l as [|v rest]; [discriminate|]. injection Hq as ->.
    unfold bind at 1, ret at 1. cbn [fst snd]. apply Htail.
  - discriminate.
Qed.

Lemma accumulate_ok dl n : forall tl td out s,
  loader_ready dl s -> tensor_loss (cfg s) ->
  grad_accumulation_steps (cfg s) <> 0 ->
  exists r s', accumulate n tl td out s = (Ok r, s') /\ loader_ready dl s'.
Proof.
  induction n as [|n IH]; intros tl td out s Hr Hloss Ha; cbn.
  - eexists. eexists. split; [reflexivity | assumption].
  - destruct (prepare_nextbatch_ok dl s Hr) as (b & s1 & E1 & L1 & _).
    rewrite (bind_ok _ _ _ _ _ E1).
    pose proof (prepare_nextbatch_calm s) as ((C1 & _) & _).
    rewrite E1 in C1. cbn [snd] in C1.
    unfold bind at 1, modify at 1.
    set (s2 := set_train_X (Some b) s1).
    assert (C2 : cfg s2 = cfg s) by (subst s2; cbn; assumption).
    assert (L2 : loader_ready dl s2) by (subst s2; exact L1).
    destruct (train_step_ok b s2) as (r & s3 & E3);
      [now rewrite C2 | now rewrite C2 |].
    rewrite (bind_ok _ _ _ _ _ E3).
    pose proof (train_step_steady b s2) as S3. rewrite E3 in S3. cbn [snd] in S3.
    pose proof (dispatch_steady on_train_step_end [] s3) as S4.
    destruct (dispatch_run on_train_step_end [] s3) as (s4 & E4 & _).
    rewrite E4 in S4. cbn [snd] in S4.
    rewrite (bind_ok _ _ _ _ _ E4).
    destruct r as [[o loss] detail].
    assert (S24 : steady s2 s4) by (eapply steady_trans; eassumption).
    apply IH.
    + eapply loader_ready_steady; eassumption.
    + destruct S24 as (((C & _) & _) & _). now rewrite C, C2.
    + destruct S24 as (((C & _) & _) & _). now rewrite C, C2.
Qed.

Lemma step_body_ok dl spe l s :
  loader_ready dl s -> tensor_loss (cfg s) ->
  1 <= grad_accumulation_steps (cfg s) ->
  exists logs s', step_body spe l s = (Ok logs, s') /\ loader_ready dl s'.
Proof.
  intros Hr Hloss Ha.
  unfold step_body, bind at 1 2 3 4 5, modify, _log_init,
    bind at 1, get, ret at 1, dispatch, modify. cbn.
  match goal with |- context [bind _ _ ?st] => remember st as s1 eqn:Hs1 end.
  assert (C1 : cfg s1 = cfg s) by (subst s1; reflexivity).
  assert (L1 : loader_ready dl s1) by (subst s1; exact Hr).
  clear Hs1.
  destruct (accumulate_ok dl (Z.to_nat (grad_accumulation_steps (cfg s)))
              0%Q [] None s1 L1) as (r & s2 & E2 & L2);
    [now rewrite C1 | rewrite C1; lia |].
  rewrite (bind_ok _ _ _ _ _ E2).
  destruct r as [[tl td] out].
  pose proof E2 as O2. apply accumulate_ops in O2; [|cbn; tauto].
  destruct O2 as (_ & _ & _ & _ & _ & _ & _ & _ & _ & _ & _ & N2 & _).
  destruct out as [out|]; [|exfalso; apply N2; [left; lia | reflexivity]].
  destruct (step_silent s2) as (E3 & _).
  rewrite (bind_ok _ _ _ _ _ E3).
  pose proof (step_steady s2) as S3.
  unfold bind, ret, dispatch, modify.
  eexists. eexists. split; [reflexivity|].
  apply (loader_ready_steady dl (snd (step s2))).
  - unfold steady, calm, keeps, stop_kept. cbn. repeat split; try reflexivity.
    intros Hq. now apply run_hooks_quiet.
  - eapply loader_ready_steady; eassumption.
Qed.

Lemma step_loop_ok dl spe ls : forall logs s,
  loader_ready dl s -> tensor_loss (cfg s) ->
  1 <= grad_accumulation_steps (cfg s) ->
  exists logs' s', step_loop spe ls logs s = (Ok logs', s') /\ loader_ready dl s'.
Proof.
  induction ls as [|l ls IH]; intros logs s Hr Hloss Ha; cbn.
  - eexists. eexists. split; [reflexivity | assumption].
  - destruct (step_body_ok dl spe l s Hr Hloss Ha) as (logs1 & s1 & E1 & L1).
    rewrite (bind_ok _ _ _ _ _ E1).
    pose proof (step_body_calm spe l s) as ((C1 & _) & _).
    rewrite E1 in C1. cbn [snd] in C1.
    apply IH; [assumption | now rewrite C1 | now rewrite C1].
Qed.

Lemma epoch_body_ok dl e logs s spe :
  steps_per_epoch s = Some spe ->
  loader_ready dl s -> tensor_loss (cfg s) ->
  1 <= grad_accumulation_steps (cfg s) ->
  exists logs' s', epoch_body e logs s = (Ok logs', s') /\ loader_ready dl s'.
Proof.
  intros Hspe Hr Hloss Ha.
  unfold epoch_body, bind at 1 2 3, modify, get, dispatch, modify.
  cbn. rewrite Hspe.
  match goal with |- context [bind _ _ ?st] => remember st as s1 eqn:Hs1 end.
  assert (C1 : cfg s1 = cfg s) by (subst s1; reflexivity).
  assert (L1 : loader_ready dl s1) by (subst s1; exact Hr).
  clear Hs1.
  match goal with |- context [step_loop spe ?ls logs] =>
    destruct (step_loop_ok dl spe ls logs s1 L1) as (logs1 & s2 & E2 & L2);
      [now rewrite C1 | now rewrite C1 |]
  end.
  rewrite (bind_ok _ _ _ _ _ E2).
  unfold bind, ret. eexists. eexists. split; [reflexivity|].
  exact L2.
Qed.

Lemma epoch_loop_ok dl spe es : forall logs s,
  steps_per_epoch s = Some spe ->
  loader_ready dl s -> tensor_loss (cfg s) ->
  1 <= grad_accumulation_steps (cfg s) ->
  exists logs' s', epoch_loop es logs s = (Ok logs', s') /\
                   steps_per_epoch s' = Some spe.
Proof.
  induction es as [|e es IH]; intros logs s Hspe Hr Hloss Ha; cbn.
  - eexists. eexists. split; [reflexivity | assumption].
  - destruct (epoch_body_ok dl e logs s spe Hspe Hr Hloss Ha)
      as (logs1 & s1 & E1 & L1).
    rewrite (bind_ok _ _ _ _ _ E1).
    pose proof (epoch_body_calm e logs s) as ((C1 & S1 & _) & _).
    rewrite E1 in C1, S1. cbn [snd] in C1, S1.
    unfold bind at 1, get.
    destruct (stop_training s1).
    + unfold ret. eexists. eexists. split; [reflexivity | congruence].
    + apply IH; [congruence | assumption | now rewrite C1 | now rewrite C1].
Qed.

Lemma prepare_inputs_ok dl steps n_epochs v s spe :
  resolved_steps dl steps (grad_accumulation_steps (cfg s)) = Some spe ->
  exists s',
    _prepare_inputs dl steps n_epochs v s = (Ok tt, s') /\
    cfg s' = cfg s /\ steps_per_epoch s' = Some spe /\
    train_dataloader s' = Some dl /\
    train_dataloader_iter s' = dl_batches dl /\
    (exists v', verbose s' = Some v') /\
    ops s' = ops s /\ trace s' = trace s /\
    resume_step s' = resume_step s /\ resume_epoch s' = resume_epoch s /\
    total_steps s' = spe * n_epochs /\ epochs s' = n_epochs.
Proof.
  unfold resolved_steps, _prepare_inputs. intros H.
  destruct steps as [n|].
  - injection H as ->. destruct (dl_len dl);
      unfold bind, ret, get, modify; cbn;
      (eexists; split; [reflexivity|]); cbn; eauto 15.
  - destruct (dl_len dl) as [len|]; [|discriminate].
    unfold bind at 1, ret at 1. unfold bind at 1, get. unfold bind at 1.
    destruct (Z.eqb (grad_accumulation_steps (cfg s)) 0); [discriminate|].
    injection H as <-.
    unfold bind, ret, modify; cbn.
    eexists. split; [reflexivity|]. cbn. eauto 15.
Qed.

Lemma prepare_callbacks_ok arg s v cs :
  verbose s = Some v -> check_callbacks (given_callbacks arg) = Some cs ->
  intervals_checked (cfg s) cs ->
  _prepare_callbacks arg s
  = (Ok (history,
         if truthy v then Some (make_progbar (progbar_bar (cfg s))) else None),
     set_stop_training false
       (set_callbacks
          (mkCallbackList
             (callback_order cs (smooth_interval (cfg s)) (truthy v)
                             (progbar_bar (cfg s)))
             (run_callbacks (cfg s))) s)).
Proof.
  intros Hv Hc Hi. unfold _prepare_callbacks, given_callbacks, intervals_checked in *.
  rewrite Hc. unfold bind, ret, get, modify. rewrite Hi, Hv. reflexivity.
Qed.

Lemma fit_ok_result dl steps n_epochs cbs v kw s h s' :
  _fit dl steps n_epochs cbs v s = (Ok h, s') ->
  fit dl steps n_epochs cbs v kw s = (Ok h, s').
Proof. intros H. unfold fit, try_except. now rewrite H. Qed.

(** X8. [fit] returns its history, raising nothing, whenever: the number of
    steps per epoch can be settled ([steps_per_epoch] is given, or the loader
    declares a length and the accumulation factor is not 0), every element
    of [callbacks] is a callback, the comparison of their intervals with
    the interval of the smoothing callback raises nothing (no callback has
    an interval, or there is no smoothing callback, or its interval is a
    number other than 0), one pass over the loader yields at least one
    batch, the criterion reports a tensor as primary loss for every batch,
    and the accumulation factor is at least 1.  (The hooks of the callbacks
    and the metric functions are taken to return.) *)
Theorem fit_returns dl steps n_epochs arg v kw (s : St) (spe : Z)
    (cs : list Callback)
    (Hsteps : resolved_steps dl steps (grad_accumulation_steps (cfg s)) = Some spe)
    (Hcbs : check_callbacks (given_callbacks arg) = Some cs)
    (Hint : intervals_checked (cfg s) cs)
    (Hdl : dl_batches dl <> [])
    (Hloss : tensor_loss (cfg s))
    (Ha : 1 <= grad_accumulation_steps (cfg s)) :
  exists s',
    fit dl steps n_epochs arg v kw s = (Ok history, s') /\
    steps_per_epoch s' = Some spe.
Proof.
  destruct (prepare_inputs_ok dl steps n_epochs v s spe Hsteps)
    as (s1 & E1 & C1 & S1 & D1 & I1 & (v1 & V1) & _).
  rewrite <- C1 in Hint.
  assert (E2 := prepare_callbacks_ok arg s1 v1 cs V1 Hcbs Hint).
  match type of E2 with _ = (Ok ?r, ?st) =>
    set (s2 := st) in *; set (hp := r) in * end.
  assert (L2 : loader_ready dl s2).
  { subst s2. unfold loader_ready. cbn. rewrite D1, I1.
    split; [reflexivity|]. split; [assumption|]. now exists []. }
  assert (C2 : cfg s2 = cfg s) by (subst s2; cbn; assumption).
  assert (S2 : steps_per_epoch s2 = Some spe) by (subst s2; cbn; assumption).
  clearbody s2.
  destruct (dispatch_run on_train_begin [] s2) as (s3 & E3 & _).
  pose proof (dispatch_steady on_train_begin [] s2) as S3.
  rewrite E3 in S3. cbn [snd] in S3.
  assert (L3 : loader_ready dl s3) by (eapply loader_ready_steady; eassumption).
  destruct S3 as (((C3 & P3 & _) & _) & _).
  match goal with |- context [fit _ _ _ _ _ ?k] => set (kw0 := k) end.
  assert (H : exists s', _fit dl steps n_epochs arg v s = (Ok history, s') /\
                         steps_per_epoch s' = Some spe).
  { unfold _fit. rewrite (bind_ok _ _ _ _ _ E1), (bind_ok _ _ _ _ _ E2).
    rewrite (bind_ok _ _ _ _ _ E3).
    unfold bind at 1, _log_init at 1, bind at 1, get at 1, ret at 1.
    unfold bind at 1, get at 1.
    destruct (epoch_loop_ok dl spe (range (resume_epoch s3) n_epochs)
                (match optimizer_lr (cfg s3) with
                 | Some lr => [("lr", lr)]
                 | None => []
                 end) s3) as (logs & s4 & E4 & S4);
      [congruence | assumption | now rewrite C3, C2 | now rewrite C3, C2 |].
    rewrite (bind_ok _ _ _ _ _ E4).
    unfold bind, dispatch, modify, ret. eexists. split; [reflexivity|].
    cbn. assumption. }
  destruct H as (s' & H & Hs'). exists s'. split; [|assumption].
  now apply fit_ok_result.
Qed.

Lemma fit_returns_witness :
  exists s',
    example_run = (Ok history, s') /\ steps_per_epoch s' = Some 2.
Proof.
  apply (fit_returns two_batches (Some 2) 2 ArgNone 0 no_kwargs
           (initialize plain_config) 2 []).
  - reflexivity.
  - reflexivity.
  - reflexivity.
  - discriminate.
  - intros b. exists 1%Q. reflexivity.
  - cbn. lia.
Defined.

(** ** Counting the steps of a run *)

Lemma count_hook_app h a b :
  count_hook h (a ++ b) = (count_hook h a + count_hook h b)%nat.
Proof. unfold count_hook. now rewrite filter_app, length_app. Qed.

Lemma count_ops_app f a b :
  count_ops f (a ++ b) = (count_ops f a + count_ops f b)%nat.
Proof. unfold count_ops. now rewrite filter_app, length_app. Qed.

Lemma count_hook_none h l :
  Forall (fun o => hook_eqb (hook o) h = false) l -> count_hook h l = 0%nat.
Proof. intros H. unfold count_hook. now rewrite filter_none. Qed.

Lemma step_events_counts g l e evs :
  step_events g l e true evs ->
  count_hook on_batch_begin evs = 1%nat /\ count_hook on_batch_end evs = 1%nat.
Proof.
  intros (ob & mid & tl & -> & Hb & _ & Fm & (oe & -> & He & _)).
  change (ob :: mid ++ [oe]) with ([ob] ++ mid ++ [oe]).
  rewrite !count_hook_app.
  assert (M : forall h, in_accumulation h = false -> count_hook h mid = 0%nat).
  { intros h Hh. apply count_hook_none.
    eapply Forall_impl; [|exact Fm]. cbn. intros o (Ho & _).
    destruct (hook o), h; cbn in *; congruence. }
  rewrite !M by reflexivity.
  unfold count_hook. cbn. rewrite Hb, He. cbn. auto.
Qed.

Lemma tally_zero s s' evs :
  ops s' = ops s -> cfg s' = cfg s -> trace s' = trace s ++ evs ->
  count_hook on_batch_begin evs = 0%nat -> count_hook on_batch_end evs = 0%nat ->
  tally 0 s s'.
Proof.
  intros O C T B E. exists [], evs. rewrite app_nil_r. cbn.
  repeat (split; [assumption || reflexivity|]).
  split; [intros H; now contradiction H | reflexivity].
Qed.

Lemma tally_refl s : tally 0 s s.
Proof. apply (tally_zero s s []); try reflexivity. now rewrite app_nil_r. Qed.

Lemma tally_trans n m s1 s2 s3 :
  tally n s1 s2 -> tally m s2 s3 -> tally (n + m) s1 s3.
Proof.
  intros (new1 & evs1 & O1 & T1 & C1 & B1 & E1 & U1 & Z1 & F1 & L1 & A1 & N1)
         (new2 & evs2 & O2 & T2 & C2 & B2 & E2 & U2 & Z2 & F2 & L2 & A2 & N2).
  rewrite C1 in F2, L2, A2.
  exists (new1 ++ new2), (evs1 ++ evs2).
  split; [rewrite O2, O1; now rewrite app_assoc|].
  split; [rewrite T2, T1; now rewrite app_assoc|].
  split; [congruence|].
  rewrite !count_hook_app, !count_ops_app, fetched_app, backward_losses_app,
    !length_app.
  split; [lia|]. split; [lia|]. split; [lia|]. split; [lia|].
  split; [lia|]. split; [lia|]. split.
  - intros H. destruct n; [destruct m; [contradiction|apply A2; discriminate]|].
    apply A1. discriminate.
  - intros H. rewrite (N1 ltac:(lia)), (N2 ltac:(lia)). reflexivity.
Qed.

Lemma dispatch_tally h logs s :
  hook_eqb h on_batch_begin = false -> hook_eqb h on_batch_end = false ->
  tally 0 s (snd (dispatch h logs s)).
Proof.
  intros Hb He.
  apply (tally_zero _ _ [mkObs h (global_step s) (local_step s) (epoch s) logs]);
    try reflexivity; unfold count_hook; cbn; [now rewrite Hb | now rewrite He].
Qed.

Lemma step_body_tally spe l s logs s' :
  step_body spe l s = (Ok logs, s') -> tally 1 s s'.
Proof.
  intros Hrun.
  destruct (step_body_events _ _ _ _ _ Hrun) as (K & _ & _ & _ & evs & T & Ev).
  destruct (step_events_counts _ _ _ _ Ev) as (NB & NE).
  unfold step_body, bind at 1 2 3 4 5, modify, _log_init,
    bind at 1, get, ret at 1, dispatch, modify in Hrun. cbn in Hrun.
  match type of Hrun with bind _ _ ?st = _ => remember st as s1 eqn:Hs1 end.
  assert (C1 : cfg s1 = cfg s) by (subst s1; reflexivity).
  assert (O1 : ops s1 = ops s) by (subst s1; reflexivity).
  clear Hs1.
  bind_ok_inv Hrun. destruct x as [[tr_loss tr_detail] output].
  apply accumulate_ops in H; [|cbn; tauto].
  destruct H as (new & raw & O2 & C2 & L2 & F2 & B2 & _ & U2 & Z2 & _ & _ & N2).
  destruct (step_ops x0) as (s3 & before & E3 & C3 & O3 & U3 & _ & Z3 & F3 & B3).
  rewrite (bind_ok _ _ _ _ _ E3) in Hrun.
  destruct output as [out|]; [|unfold bind, raise in Hrun; discriminate].
  unfold bind, ret in Hrun. injection Hrun as _ Hs'.
  assert (Ha : 1 <= grad_accumulation_steps (cfg s)).
  { destruct (Z.to_nat (grad_accumulation_steps (cfg s))) eqn:Ea; [|lia].
    specialize (N2 eq_refl). discriminate. }
  set (sched := if mp_on (mixed_precision_mode (cfg x0))
                   && negb (Qeq_bool (scaler_scale s3) (scale_before_step x0))
                then []
                else map OpSchedulerStep (sched_ids (scheduler (cfg x0)))) in O3.
  assert (Hsched : filter is_update sched = [] /\ filter is_zero_grad sched = [] /\
                   fetched sched = [] /\ backward_losses sched = []).
  { unfold sched. destruct (_ && _); [cbn; auto|].
    apply scheduler_steps_inert. }
  destruct Hsched as (Us & Zs & Fs & Bs).
  exists (new ++ before ++ OpZeroGrad :: sched), evs.
  split; [rewrite <- Hs'; cbn; rewrite O3, O2, O1; now rewrite <- !app_assoc|].
  split; [assumption|].
  split; [apply K|].
  split; [assumption|]. split; [assumption|].
  unfold count_ops.
  rewrite !filter_app, !fetched_app, !backward_losses_app, !length_app.
  cbn [filter is_update is_zero_grad fetched backward_losses].
  rewrite U2, U3, Us, Z2, Z3, Zs, F3, Fs, B3, Bs, B2, length_map.
  rewrite <- (Forall2_length F2), L2. cbn [List.length].
  do 4 (split; [lia|]). split; [intros _; assumption | discriminate].
Qed.

Lemma step_loop_tally spe ls : forall logs s r s',
  step_loop spe ls logs s = (Ok r, s') -> tally (List.length ls) s s'.
Proof.
  induction ls as [|l ls IH]; intros logs s r s' H; cbn in H.
  - injection H as _ <-. apply tally_refl.
  - bind_ok_inv H. apply step_body_tally in H0. apply IH in H.
    exact (tally_trans 1 _ _ _ _ H0 H).
Qed.

Lemma epoch_body_tally e logs s r s' spe :
  steps_per_epoch s = Some spe ->
  epoch_body e logs s = (Ok r, s') ->
  tally (List.length
           (range (epoch_start (resume_epoch s) (resume_step s) e) spe)) s s'.
Proof.
  intros Hspe H. unfold epoch_body in H.
  unfold bind at 1, modify at 1 in H. unfold bind at 1, get at 1 in H.
  set (s0 := set_epoch e s) in *.
  assert (T0 : tally 0 s s0).
  { apply (tally_zero _ _ []); try reflexivity. cbn. now rewrite app_nil_r. }
  pose proof (dispatch_tally on_epoch_begin [] s0 eq_refl eq_refl) as T1.
  assert (E1 : dispatch on_epoch_begin [] s0
               = (Ok tt, snd (dispatch on_epoch_begin [] s0))) by reflexivity.
  rewrite (bind_ok _ _ _ _ _ E1) in H.
  change (steps_per_epoch s0) with (steps_per_epoch s) in H.
  change (resume_epoch s0) with (resume_epoch s) in H.
  change (resume_step s0) with (resume_step s) in H.
  rewrite Hspe in H.
  bind_ok_inv H. apply step_loop_tally in H0.
  pose proof (dispatch_tally on_epoch_end x x0 eq_refl eq_refl) as T3.
  assert (E3 : dispatch on_epoch_end x x0
               = (Ok tt, snd (dispatch on_epoch_end x x0))) by reflexivity.
  rewrite (bind_ok _ _ _ _ _ E3) in H. unfold ret in H. injection H as _ <-.
  pose proof (tally_trans _ _ _ _ _ T0
                (tally_trans _ _ _ _ _ T1 (tally_trans _ _ _ _ _ H0 T3))) as T.
  cbn [Nat.add] in T. rewrite Nat.add_0_r in T. exact T.
Qed.

Lemma epoch_loop_tally spe es : forall logs s r s',
  steps_per_epoch s = Some spe ->
  epoch_loop es logs s = (Ok r, s') ->
  exists n, tally n s s' /\
    (quiet (dispatch_order (callbacks s)) -> stop_training s = false ->
     n = steps_left spe (resume_epoch s) (resume_step s) es /\
     stop_training s' = false).
Proof.
  induction es as [|e es IH]; intros logs s r s' Hspe H; cbn in H.
  - injection H as _ <-. exists 0%nat. split; [apply tally_refl|]. auto.
  - bind_ok_inv H.
    pose proof (epoch_body_calm e logs s) as (K1 & S1).
    rewrite H0 in K1, S1. cbn [snd] in K1, S1.
    apply (epoch_body_tally _ _ _ _ _ _ Hspe) in H0.
    destruct K1 as (Kc & Ks & Krs & Kre & Kcb & _).
    unfold bind at 1, get in H.
    destruct (stop_training x0) eqn:Hstop.
    + unfold ret in H. injection H as _ <-.
      eexists. split; [exact H0|].
      intros Hq Hs. rewrite (S1 Hq) in Hstop. congruence.
    + assert (Hspe0 : steps_per_epoch x0 = Some spe) by congruence.
      destruct (IH _ _ _ _ Hspe0 H) as (n & T & Hn).
      eexists. split; [exact (tally_trans _ _ _ _ _ H0 T)|].
      intros Hq Hs. rewrite Kcb, Krs, Kre in Hn.
      destruct (Hn Hq Hstop) as (-> & Hs'). split; [reflexivity | assumption].
Qed.

Lemma prepare_inputs_inv dl steps n_epochs v s s' :
  _prepare_inputs dl steps n_epochs v s = (Ok tt, s') ->
  exists spe,
    resolved_steps dl steps (grad_accumulation_steps (cfg s)) = Some spe.
Proof.
  unfold _prepare_inputs, resolved_steps. intros H.
  destruct steps as [n|]; [eauto|].
  destruct (dl_len dl) as [len|]; [|unfold bind, raise in H; discriminate].
  unfold bind at 1, ret at 1 in H. unfold bind at 1, get in H.
  unfold bind at 1 in H.
  destruct (Z.eqb (grad_accumulation_steps (cfg s)) 0);
    [unfold raise in H; discriminate | eauto].
Qed.

Lemma prepare_callbacks_inv arg s hp s' :
  _prepare_callbacks arg s = (Ok hp, s') ->
  exists v cs, verbose s = Some v /\
               check_callbacks (given_callbacks arg) = Some cs /\
               intervals_checked (cfg s) cs.
Proof.
  unfold _prepare_callbacks, given_callbacks, intervals_checked. intros H.
  destruct (check_callbacks _) as [cs|];
    [|unfold bind, raise in H; discriminate].
  unfold bind at 1, ret at 1 in H. unfold bind at 1, get in H.
  unfold bind at 1 in H.
  destruct (check_intervals _ _) as [[]|e] eqn:Hi;
    [|unfold raise in H; discriminate].
  unfold ret at 1 in H.
  destruct (verbose s) as [v|]; [eauto | unfold bind, raise in H; discriminate].
Qed.

Lemma fit_ok_inv dl steps n_epochs cbs v kw s h s' :
  fit dl steps n_epochs cbs v kw s = (Ok h, s') ->
  _fit dl steps n_epochs cbs v s = (Ok h, s').
Proof.
  unfold fit, try_except.
  destruct (_fit dl steps n_epochs cbs v s) as [[h0|e] s0]; [trivial|].
  intros H. pose proof (diagnostics_raise (A := Callback) kw e s0) as D.
  rewrite H in D. discriminate.
Qed.

Lemma fit_tally dl steps n_epochs arg v s h s' :
  _fit dl steps n_epochs arg v s = (Ok h, s') ->
  exists n spe,
    tally n s s' /\ steps_per_epoch s' = Some spe /\
    (quiet (dispatch_order (callbacks s')) ->
     n = steps_left spe (resume_epoch s) (resume_step s)
                    (range (resume_epoch s) n_epochs)).
Proof.
  intros H. unfold _fit in H.
  bind_ok_inv H. destruct x.
  destruct (prepare_inputs_inv _ _ _ _ _ _ H0) as (spe & R).
  destruct (prepare_inputs_ok dl steps n_epochs v s spe R)
    as (s1 & E1 & C1 & S1 & _ & _ & (v1 & V1) & O1 & T1 & RS1 & RE1 & _).
  rewrite E1 in H0. injection H0 as <-.
  bind_ok_inv H.
  destruct (prepare_callbacks_inv _ _ _ _ H0) as (v' & cs & V' & Hc & Hi).
  rewrite (prepare_callbacks_ok arg s1 v' cs V' Hc Hi) in H0.
  injection H0 as _ <-.
  match type of H with context [set_stop_training false ?st] =>
    set (s2 := set_stop_training false st) in * end.
  assert (F2 : ops s2 = ops s /\ trace s2 = trace s /\ cfg s2 = cfg s /\
               steps_per_epoch s2 = Some spe /\ stop_training s2 = false /\
               resume_step s2 = resume_step s /\ resume_epoch s2 = resume_epoch s)
    by (subst s2; cbn; auto 10).
  destruct F2 as (O2 & T2 & C2 & S2 & St2 & RS2 & RE2). clearbody s2.
  unfold bind at 1 in H.
  pose proof (dispatch_tally on_train_begin [] s2 eq_refl eq_refl) as Tb.
  pose proof (dispatch_calm on_train_begin [] s2) as (Kb & Sb).
  destruct (dispatch on_train_begin [] s2) as [r3 s3] eqn:E3.
  assert (r3 = Ok tt) by (unfold dispatch, modify in E3; now inversion E3).
  subst r3. cbn [snd] in Tb, Kb, Sb.
  destruct Kb as (Kc & Ks & Krs & Kre & Kcb & _).
  unfold bind at 1, _log_init at 1, bind at 1, get at 1, ret at 1 in H.
  unfold bind at 1, get at 1 in H.
  bind_ok_inv H.
  match type of H0 with _ = (Ok ?l, ?st) =>
    rename l into logs4; rename st into s4 end.
  pose proof (framed_run _ _ _ _ _ (epoch_loop_calm _ _) H0) as (K4 & _).
  destruct K4 as (K4c & K4s & _ & _ & K4cb & _).
  assert (S3 : steps_per_epoch s3 = Some spe) by congruence.
  destruct (epoch_loop_tally spe _ _ _ _ _ S3 H0) as (n & T4 & Hn).
  unfold bind in H.
  pose proof (dispatch_tally on_train_end logs4 s4 eq_refl eq_refl) as Te.
  pose proof (dispatch_calm on_train_end logs4 s4)
    as ((_ & Kes & _ & _ & Kecb & _) & _).
  destruct (dispatch on_train_end logs4 s4) as [r5 s5] eqn:E5.
  assert (r5 = Ok tt) by (unfold dispatch, modify in E5; now inversion E5).
  subst r5. cbn [snd] in Te, Kes, Kecb. unfold ret in H. injection H as _ <-.
  assert (T02 : tally 0 s s2).
  { apply (tally_zero _ _ []); try assumption; try reflexivity.
    now rewrite app_nil_r. }
  exists n, spe. split; [|split].
  - pose proof (tally_trans _ _ _ _ _ T02
                  (tally_trans _ _ _ _ _ Tb (tally_trans _ _ _ _ _ T4 Te))) as T.
    cbn [Nat.add] in T. now rewrite Nat.add_0_r in T.
  - congruence.
  - intros Hq. rewrite Kre, Krs, RE2, RS2 in Hn.
    apply Hn.
    + rewrite Kcb. rewrite Kecb, K4cb, Kcb in Hq. exact Hq.
    + rewrite (Sb ltac:(rewrite Kecb, K4cb, Kcb in Hq; exact Hq)). exact St2.
Qed.



Lemma range_length a b : List.length (range a b) = Z.to_nat (b - a).
Proof. unfold range. now rewrite length_map, length_seq. Qed.

Lemma steps_left_cons spe re rs e es :
  steps_left spe re rs (e :: es)
  = (List.length (range (epoch_start re rs e) spe)
     + steps_left spe re rs es)%nat.
Proof. reflexivity. Qed.

Lemma steps_left_later spe re rs es :
  Forall (fun e => e <> re) es ->
  steps_left spe re rs es = (List.length es * Z.to_nat spe)%nat.
Proof.
  induction 1 as [|e es He _ IH]; [reflexivity|].
  rewrite steps_left_cons, IH, epoch_start_other, range_length by assumption.
  rewrite Z.sub_0_r. reflexivity.
Qed.

Lemma steps_left_range spe re rs n_epochs :
  0 <= rs <= spe -> re < n_epochs ->
  Z.of_nat (steps_left spe re rs (range re n_epochs))
  = (n_epochs - re) * spe - rs.
Proof.
  intros Hrs Hre. rewrite (range_cons re n_epochs Hre), steps_left_cons.
  rewrite steps_left_later.
  - unfold epoch_start. rewrite Z.eqb_refl, !range_length.
    rewrite Nat2Z.inj_add, Nat2Z.inj_mul, !Z2Nat.id by lia. lia.
  - eapply Forall_impl; [|apply (range_lower (re + 1) n_epochs)].
    cbn. intros e He. lia.
Qed.

(** X10. A run that no callback stops performs all the steps it was asked
    for.  When [fit] returns and none of the registered callbacks writes
    [stop_training], then with [S = steps_per_epoch], [E = epochs] and a
    resume position [(resume_epoch, resume_step)] with
    [0 <= resume_step <= S] and [resume_epoch < E], the run completes exactly
    [(E - resume_epoch) * S - resume_step] steps, with as many optimizer
    updates; for a fresh trainer that is [E * S].  What [stop_training] was
    before the call does not matter: [_prepare_callbacks] sets it to
    [False]. *)
Theorem fit_complete_run_steps dl steps n_epochs arg v kw (s s' : St) h (spe : Z)
    (Hrun : fit dl steps n_epochs arg v kw s = (Ok h, s'))
    (Hspe : steps_per_epoch s' = Some spe)
    (Hquiet : quiet (dispatch_order (callbacks s')))
    (Hrs : 0 <= resume_step s <= spe)
    (Hre : resume_epoch s < n_epochs) :
  exists new evs,
    ops s' = ops s ++ new /\ trace s' = trace s ++ evs /\
    Z.of_nat (count_hook on_batch_end evs)
      = (n_epochs - resume_epoch s) * spe - resume_step s /\
    Z.of_nat (count_ops is_update new)
      = (n_epochs - resume_epoch s) * spe - resume_step s.
Proof.
  apply fit_ok_inv in Hrun.
  destruct (fit_tally _ _ _ _ _ _ _ _ Hrun)
    as (n & spe0 & (new & evs & O & T & C & B & E & U & _) & Hs & Hn).
  assert (spe0 = spe) by congruence. subst spe0.
  specialize (Hn Hquiet).
  exists new, evs. split; [assumption|]. split; [assumption|].
  rewrite E, U, Hn. split; now apply steps_left_range.
Qed.

Lemma quiet_defaults :
  quiet [default_smooth 100; history].
Proof.
  intros c tr [<-|[<-|[]]]; reflexivity.
Qed.

Lemma fit_complete_run_steps_witness :
  exists new evs,
    ops (snd example_run) = ops (initialize plain_config) ++ new /\
    trace (snd example_run) = trace (initialize plain_config) ++ evs /\
    Z.of_nat (count_hook on_batch_end evs)
      = (2 - resume_epoch (initialize plain_config)) * 2
        - resume_step (initialize plain_config) /\
    Z.of_nat (count_ops is_update new)
      = (2 - resume_epoch (initialize plain_config)) * 2
        - resume_step (initialize plain_config).
Proof.
  destruct example_run as [r s'] eqn:E.
  assert (Hr : fst example_run = Ok history) by (vm_compute; reflexivity).
  assert (Hs : steps_per_epoch (snd example_run) = Some 2)
    by (vm_compute; reflexivity).
  assert (Hc : dispatch_order (callbacks (snd example_run))
               = [default_smooth 100; history]) by (vm_compute; reflexivity).
  rewrite E in Hr, Hs, Hc. cbn [fst snd] in *. subst r.
  apply (fit_complete_run_steps two_batches (Some 2) 2 ArgNone 0 no_kwargs
           (initialize plain_config) s' history 2 E Hs).
  - rewrite Hc. exact quiet_defaults.
  - cbn. lia.
  - cbn. lia.
Defined.

(** ** Runs without steps *)

Lemma epoch_body_idle e logs s spe :
  steps_per_epoch s = Some spe -> spe <= 0 -> 0 <= resume_step s ->
  exists s', epoch_body e logs s = (Ok logs, s').
Proof.
  intros Hspe Hidle Hrs.
  unfold epoch_body, bind at 1 2 3, modify, get, dispatch, modify. cbn.
  rewrite Hspe.
  rewrite range_nil by (destruct (e =? resume_epoch s); lia).
  cbn [step_loop]. unfold bind, ret. eexists. reflexivity.
Qed.

Lemma epoch_loop_idle spe es : forall logs s,
  steps_per_epoch s = Some spe -> spe <= 0 -> 0 <= resume_step s ->
  exists r s', epoch_loop es logs s = (Ok r, s') /\
               steps_per_epoch s' = Some spe.
Proof.
  induction es as [|e es IH]; intros logs s Hspe Hidle Hrs; cbn.
  - eexists. eexists. split; [reflexivity | assumption].
  - destruct (epoch_body_idle e logs s spe Hspe Hidle Hrs) as (s1 & E1).
    rewrite (bind_ok _ _ _ _ _ E1).
    pose proof (framed_run _ _ _ _ _ (epoch_body_calm e logs) E1)
      as ((_ & Ks & Krs & _) & _).
    unfold bind at 1, get.
    destruct (stop_training s1).
    + unfold ret. eexists. eexists. split; [reflexivity | congruence].
    + apply IH; [congruence | assumption | congruence].
Qed.

Lemma fit_events_idle spe re rs n_epochs cbs tr0 ok evs :
  fit_events spe re rs n_epochs cbs tr0 ok evs ->
  spe <= 0 -> 0 <= rs ->
  Forall (fun o => in_step (hook o) = false) evs.
Proof.
  intros (c0 & c1 & k & loop & tl & -> & L & Htl) Hidle Hrs.
  constructor; [reflexivity|]. apply Forall_app. split.
  - eapply Forall_impl; [|exact (epochs_events_all _ _ _ _ _ _ _ _ _ _ L)].
    cbn. intros o (_ & _ & _ & H).
    destruct (in_step (hook o)); [|reflexivity].
    destruct (H eq_refl) as (_ & B).
    pose proof (epoch_start_nonneg re rs (o_epoch o) Hrs). lia.
  - destruct ok.
    + destruct Htl as (_ & logs & ->). constructor; [reflexivity | constructor].
    + destruct Htl as (_ & ->). constructor.
Qed.

Lemma count_hook_not_in_step h evs :
  in_step h = true ->
  Forall (fun o => in_step (hook o) = false) evs -> count_hook h evs = 0%nat.
Proof.
  intros Hh F. apply count_hook_none.
  eapply Forall_impl; [|exact F]. cbn. intros o Ho.
  destruct (hook o), h; cbn in *; congruence.
Qed.

(** X11. With no step to run in any epoch, [fit] trains nothing and says
    nothing about it.  When [steps_per_epoch] settles at 0 or below (it is
    passed so, or the loader declares fewer batches than the accumulation
    factor, the floor division giving 0), the resume step is not negative,
    every element of [callbacks] is a callback and the comparison of their
    intervals with the interval of the smoothing callback raises nothing,
    [fit] returns its history normally; it makes no call at all (no batch is
    fetched, no backward pass, no update), and none of its dispatches is a
    batch-level hook. *)
Theorem fit_without_steps dl steps n_epochs arg v kw (s : St) (spe : Z)
    (cs : list Callback)
    (Hsteps : resolved_steps dl steps (grad_accumulation_steps (cfg s)) = Some spe)
    (Hidle : spe <= 0)
    (Hcbs : check_callbacks (given_callbacks arg) = Some cs)
    (Hint : intervals_checked (cfg s) cs)
    (Hrs : 0 <= resume_step s) :
  exists s' evs,
    fit dl steps n_epochs arg v kw s = (Ok history, s') /\
    ops s' = ops s /\ trace s' = trace s ++ evs /\
    Forall (fun o => in_step (hook o) = false) evs.
Proof.
  destruct (prepare_inputs_ok dl steps n_epochs v s spe Hsteps)
    as (s1 & E1 & C1 & S1 & _ & _ & (v1 & V1) & _ & _ & R1 & _).
  rewrite <- C1 in Hint.
  assert (E2 := prepare_callbacks_ok arg s1 v1 cs V1 Hcbs Hint).
  match type of E2 with _ = (Ok ?r, ?st) =>
    set (s2 := st) in *; set (hp := r) in * end.
  assert (S2 : steps_per_epoch s2 = Some spe) by (subst s2; cbn; assumption).
  assert (R2 : resume_step s2 = resume_step s) by (subst s2; cbn; assumption).
  clearbody s2.
  destruct (dispatch_run on_train_begin [] s2) as (s3 & E3 & (_ & K3s & K3r & _) & _).
  assert (H : exists s', _fit dl steps n_epochs arg v s = (Ok history, s') /\
                         steps_per_epoch s' = Some spe).
  { unfold _fit. rewrite (bind_ok _ _ _ _ _ E1), (bind_ok _ _ _ _ _ E2).
    rewrite (bind_ok _ _ _ _ _ E3).
    unfold bind at 1, _log_init at 1, bind at 1, get at 1, ret at 1.
    unfold bind at 1, get at 1.
    destruct (epoch_loop_idle spe (range (resume_epoch s3) n_epochs)
                (match optimizer_lr (cfg s3) with
                 | Some lr => [("lr", lr)]
                 | None => []
                 end) s3) as (logs & s4 & E4 & S4);
      [congruence | assumption | congruence |].
    rewrite (bind_ok _ _ _ _ _ E4).
    unfold bind, dispatch, modify, ret. eexists. split; [reflexivity|].
    cbn. assumption. }
  destruct H as (s' & H & Hs').
  destruct (fit_tally _ _ _ _ _ _ _ _ H)
    as (n & spe0 & (new & evs & O & T & _ & B & _ & _ & _ & _ & _ & _ & N) & _).
  destruct (fit_run _ _ _ _ _ _ _ _ H) as (_ & Hrs' & _ & D).
  destruct D as [(_ & Fl)|(spe1 & evs1 & Hs1 & T1 & F)]; [discriminate|].
  assert (evs1 = evs) by (rewrite T in T1; now apply app_inv_head in T1).
  subst evs1.
  assert (spe1 = spe) by congruence.
  subst spe1.
  assert (Fi : Forall (fun o => in_step (hook o) = false) evs).
  { eapply fit_events_idle; [exact F | assumption | assumption]. }
  exists s', evs. split; [now apply fit_ok_result|].
  split; [|split; assumption].
  rewrite O, N; [now rewrite app_nil_r|].
  rewrite <- B. now apply count_hook_not_in_step.
Qed.

Lemma fit_without_steps_witness :
  exists s' evs,
    short_run = (Ok history, s') /\
    ops s' = ops (initialize (with_accumulation 2 plain_config)) /\
    trace s' = trace (initialize (with_accumulation 2 plain_config)) ++ evs /\
    Forall (fun o => in_step (hook o) = false) evs.
Proof.
  apply (fit_without_steps short_loader None 3 ArgNone 0 no_kwargs
           (initialize (with_accumulation 2 plain_config)) 0 []).
  - reflexivity.
  - lia.
  - reflexivity.
  - reflexivity.
  - cbn. lia.
Defined.

(** Three epochs over a loader of one batch with accumulation factor 2:
    the epochs begin and end, nothing else happens. *)
Example short_run_skeleton :
  map hook (trace (snd short_run))
  = [on_train_begin; on_epoch_begin; on_epoch_end; on_epoch_begin;
     on_epoch_end; on_epoch_begin; on_epoch_end; on_train_end] /\
  ops (snd short_run) = [].
Proof. split; reflexivity. Qed.

(** X12. Asking for no more epochs than were already run.  When
    [epochs <= resume_epoch], a run of [fit] that gets past its preparation
    returns normally, having dispatched [on_train_begin] and [on_train_end]
    and nothing in between, and having made no call; a run whose preparation
    fails dispatches nothing. *)
Theorem fit_no_epochs_left dl steps n_epochs cbs v kw (s s' : St) r evs
    (Hrun : fit dl steps n_epochs cbs v kw s = (r, s'))
    (Hevs : trace s' = trace s ++ evs)
    (Hdone : n_epochs <= resume_epoch s) :
  (evs = [] /\ is_ok r = false) \/
  (is_ok r = true /\ ops s' = ops s /\
   exists ob oe, evs = [ob; oe] /\ hook ob = on_train_begin /\
                 hook oe = on_train_end).
Proof.
  destruct (fit_dispatches _ _ _ _ _ _ _ _ _ Hrun)
    as [(T & Hr)|(spe & evs0 & Hspe & T & F)].
  - left. split; [|assumption]. rewrite Hevs in T.
    rewrite <- (app_nil_r (trace s)) in T at 2. now apply app_inv_head in T.
  - right.
    assert (evs0 = evs) by (rewrite Hevs in T; now apply app_inv_head in T).
    subst evs0.
    destruct F as (c0 & c1 & k & loop & tl & E & L & Htl).
    rewrite range_nil in L by assumption. inversion L; subst.
    destruct (is_ok r) eqn:Hok; [|destruct Htl as (Hk & _); discriminate].
    destruct Htl as (_ & logs & ->).
    split; [reflexivity|].
    split; [|do 2 eexists; split; [reflexivity|]; split; reflexivity].
    destruct r as [h|e]; [|discriminate].
    apply fit_ok_inv in Hrun.
    destruct (fit_tally _ _ _ _ _ _ _ _ Hrun)
      as (n & _ & (new & evs' & O & T' & _ & B & _ & _ & _ & _ & _ & _ & N) & _).
    assert (evs' = [obs_at on_train_begin c1 []; obs_at on_train_end c1 logs])
      by (rewrite Hevs in T'; now apply app_inv_head in T').
    subst evs'. rewrite O, N; [now rewrite app_nil_r|].
    rewrite <- B. reflexivity.
Qed.

Lemma fit_no_epochs_left_witness :
  (trace (snd finished_run) = [] /\ is_ok (fst finished_run) = false) \/
  (is_ok (fst finished_run) = true /\
   ops (snd finished_run) = ops (initialize plain_config) /\
   exists ob oe, trace (snd finished_run) = [ob; oe] /\
                 hook ob = on_train_begin /\ hook oe = on_train_end).
Proof.
  destruct finished_run as [r s'] eqn:E. cbn [fst snd].
  apply (fit_no_epochs_left two_batches (Some 2) 0 ArgNone 0 no_kwargs
           (initialize plain_config) s' r (trace s') E).
  - reflexivity.
  - cbn. lia.
Defined.

(** ** Runs that fail *)

Lemma bind_fail {A B} (m : M A) (k : A -> M B) s e s' :
  m s = (Raise e, s') -> bind m k s = (Raise e, s').
Proof. intros H. unfold bind. now rewrite H. Qed.

Lemma prepare_nextbatch_empty dl s :
  train_dataloader s = Some dl -> dl_batches dl = [] ->
  train_dataloader_iter s = [] ->
  exists s',
    _prepare_nextbatch s = (Raise StopIteration, s') /\ ops s' = ops s /\
    exists o, trace s' = trace s ++ [o] /\ hook o = on_dataloader_end.
Proof.
  intros D B I. unfold _prepare_nextbatch, bind at 1, get. rewrite I.
  unfold bind at 1, dispatch, modify.
  cbn [train_dataloader set_stop_training set_trace]. rewrite D, B.
  unfold bind, modify, raise. cbn.
  eexists. split; [reflexivity|]. cbn. split; [reflexivity|].
  eexists. split; reflexivity.
Qed.

Lemma step_body_empty dl spe l s :
  train_dataloader s = Some dl -> dl_batches dl = [] ->
  train_dataloader_iter s = [] -> 1 <= grad_accumulation_steps (cfg s) ->
  exists s',
    step_body spe l s = (Raise StopIteration, s') /\ ops s' = ops s /\
    exists o1 o2, trace s' = trace s ++ [o1; o2] /\
                  hook o1 = on_batch_begin /\ hook o2 = on_dataloader_end.
Proof.
  intros D B I Ha.
  unfold step_body, bind at 1 2 3 4 5, modify, _log_init,
    bind at 1, get, ret at 1, dispatch, modify. cbn.
  match goal with |- context [bind _ _ ?st] => remember st as s1 eqn:Hs1 end.
  assert (D1 : train_dataloader s1 = Some dl) by (subst s1; exact D).
  assert (I1 : train_dataloader_iter s1 = []) by (subst s1; exact I).
  assert (O1 : ops s1 = ops s) by (subst s1; reflexivity).
  assert (T1 : exists o1, trace s1 = trace s ++ [o1] /\ hook o1 = on_batch_begin).
  { subst s1. cbn. eexists. split; reflexivity. }
  destruct T1 as (o1 & T1 & H1). clear Hs1.
  destruct (Z.to_nat (grad_accumulation_steps (cfg s))) as [|n] eqn:En; [lia|].
  destruct (prepare_nextbatch_empty dl s1 D1 B I1) as (s2 & E2 & O2 & o2 & T2 & H2).
  cbn [accumulate].
  rewrite (bind_fail _ _ _ _ _ (bind_fail _ _ _ _ _ E2)).
  exists s2. split; [reflexivity|]. split; [congruence|].
  exists o1, o2. rewrite T2, T1, <- app_assoc. auto.
Qed.

Lemma epoch_body_empty dl e logs s spe :
  steps_per_epoch s = Some spe ->
  epoch_start (resume_epoch s) (resume_step s) e < spe ->
  train_dataloader s = Some dl -> dl_batches dl = [] ->
  train_dataloader_iter s = [] -> 1 <= grad_accumulation_steps (cfg s) ->
  exists s',
    epoch_body e logs s = (Raise StopIteration, s') /\ ops s' = ops s /\
    exists o0 o1 o2, trace s' = trace s ++ [o0; o1; o2] /\
                     hook o0 = on_epoch_begin /\ hook o1 = on_batch_begin /\
                     hook o2 = on_dataloader_end.
Proof.
  intros Hspe Hst D B I Ha.
  unfold epoch_body, bind at 1 2 3, modify, get, dispatch, modify.
  cbn. rewrite Hspe. unfold epoch_start in Hst. rewrite (range_cons _ _ Hst).
  match goal with |- context [bind _ _ ?st] => remember st as s1 eqn:Hs1 end.
  assert (D1 : train_dataloader s1 = Some dl) by (subst s1; exact D).
  assert (I1 : train_dataloader_iter s1 = []) by (subst s1; exact I).
  assert (O1 : ops s1 = ops s) by (subst s1; reflexivity).
  assert (A1 : 1 <= grad_accumulation_steps (cfg s1)) by (subst s1; exact Ha).
  assert (T1 : exists o0, trace s1 = trace s ++ [o0] /\ hook o0 = on_epoch_begin).
  { subst s1. cbn. eexists. split; reflexivity. }
  destruct T1 as (o0 & T1 & H0). clear Hs1.
  match goal with |- context [step_loop spe (?l :: _)] =>
    destruct (step_body_empty dl spe l s1 D1 B I1 A1)
      as (s2 & E2 & O2 & o1 & o2 & T2 & H1 & H2)
  end.
  cbn [step_loop].
  rewrite (bind_fail _ _ _ _ _ (bind_fail _ _ _ _ _ E2)).
  exists s2. split; [reflexivity|]. split; [congruence|].
  exists o0, o1, o2. rewrite T2, T1, <- app_assoc. auto.
Qed.

(** X13. A loader that yields no batch makes [fit] fail at its first step.
    When the preparation goes through (the steps per epoch can be settled,
    every element of [callbacks] is a callback, the comparison of the
    intervals raises nothing), one pass over the loader is empty (whatever
    length it declares) and there is a step to run ([resume_epoch < epochs],
    [resume_step < steps_per_epoch], accumulation factor at least 1), the
    first fetch finds the iterator exhausted, dispatches [on_dataloader_end],
    rebuilds the iterator and fetches again; the [StopIteration] of that
    second fetch is not caught, so [fit] raises [StopIteration].  Before
    that it dispatched [on_train_begin], [on_epoch_begin] and
    [on_batch_begin]; it made no call. *)
Theorem fit_empty_loader dl steps n_epochs arg v (s : St) (spe : Z)
    (cs : list Callback)
    (Hsteps : resolved_steps dl steps (grad_accumulation_steps (cfg s)) = Some spe)
    (Hcbs : check_callbacks (given_callbacks arg) = Some cs)
    (Hint : intervals_checked (cfg s) cs)
    (Hdl : dl_batches dl = [])
    (Ha : 1 <= grad_accumulation_steps (cfg s))
    (Hre : resume_epoch s < n_epochs)
    (Hrs : resume_step s < spe) :
  exists s' evs,
    fit dl steps n_epochs arg v no_kwargs s = (Raise StopIteration, s') /\
    ops s' = ops s /\ trace s' = trace s ++ evs /\
    map hook evs
    = [on_train_begin; on_epoch_begin; on_batch_begin; on_dataloader_end].
Proof.
  destruct (prepare_inputs_ok dl steps n_epochs v s spe Hsteps)
    as (s1 & E1 & C1 & S1 & D1 & I1 & (v1 & V1) & O1 & T1 & R1 & RE1 & _).
  rewrite <- C1 in Hint.
  assert (E2 := prepare_callbacks_ok arg s1 v1 cs V1 Hcbs Hint).
  match type of E2 with _ = (Ok ?r, ?st) =>
    set (s2 := st) in *; set (hp := r) in * end.
  assert (F2 : steps_per_epoch s2 = Some spe /\ resume_step s2 = resume_step s /\
               resume_epoch s2 = resume_epoch s /\ cfg s2 = cfg s /\
               train_dataloader s2 = Some dl /\ train_dataloader_iter s2 = [] /\
               ops s2 = ops s /\ trace s2 = trace s).
  { subst s2. cbn. rewrite I1, Hdl. auto 10. }
  destruct F2 as (S2 & R2 & RE2 & C2 & D2 & I2 & O2 & T2). clearbody s2.
  destruct (dispatch_run on_train_begin [] s2)
    as (s3 & E3 & (K3c & K3s & K3r & K3e & _ & K3d) & _ & T3 & _).
  pose proof (dispatch_steady on_train_begin [] s2) as (_ & I3).
  pose proof (dispatch_ops on_train_begin [] s2) as (O3 & _).
  rewrite E3 in I3, O3. cbn [snd] in I3, O3.
  assert (Hst : epoch_start (resume_epoch s3) (resume_step s3) (resume_epoch s3)
                < spe).
  { unfold epoch_start. rewrite Z.eqb_refl. lia. }
  destruct (epoch_body_empty dl (resume_epoch s3)
              (match optimizer_lr (cfg s3) with
               | Some lr => [("lr", lr)]
               | None => []
               end) s3 spe)
    as (s4 & E4 & O4 & o0 & o1 & o2 & T4 & H0 & H1 & H2);
    try congruence.
  assert (H : _fit dl steps n_epochs arg v s = (Raise StopIteration, s4)).
  { unfold _fit. rewrite (bind_ok _ _ _ _ _ E1), (bind_ok _ _ _ _ _ E2).
    rewrite (bind_ok _ _ _ _ _ E3).
    unfold bind at 1, _log_init at 1, bind at 1, get at 1, ret at 1.
    unfold bind at 1, get at 1.
    rewrite (range_cons (resume_epoch s3) n_epochs) by lia.
    cbn [epoch_loop].
    now rewrite (bind_fail _ _ _ _ _ (bind_fail _ _ _ _ _ E4)). }
  exists s4. eexists. split; [|split; [|split]].
  - unfold fit, try_except. rewrite H. reflexivity.
  - congruence.
  - rewrite T4, T3, T2, <- app_assoc. reflexivity.
  - cbn. now rewrite H0, H1, H2.
Qed.

Lemma fit_empty_loader_witness :
  exists s' evs,
    empty_run = (Raise StopIteration, s') /\
    ops s' = ops (initialize plain_config) /\
    trace s' = trace (initialize plain_config) ++ evs /\
    map hook evs
    = [on_train_begin; on_epoch_begin; on_batch_begin; on_dataloader_end].
Proof.
  apply (fit_empty_loader empty_loader None 1 ArgNone 0
           (initialize plain_config) 2 []).
  - reflexivity.
  - reflexivity.
  - reflexivity.
  - reflexivity.
  - cbn. lia.
  - cbn. lia.
  - cbn. lia.
Defined.

(** X14. What [train_step] raises on a criterion result it cannot use, each
    before any backward pass: a mapping without the key ['loss'] raises
    [KeyError]; an empty tuple or list raises [IndexError]; and, with mixed
    precision off, a primary loss that is a plain number rather than a
    tensor raises [AttributeError] when [backward] is called on it. *)
Theorem train_step_failures (s : St) (b : Batch) :
  (forall d, criterion (cfg s) b = RDict d -> dict_get "loss" d = None ->
     train_step b s = (Raise KeyError, s)) /\
  (criterion (cfg s) b = RSeq [] -> train_step b s = (Raise IndexError, s)) /\
  (forall q, primary_loss (criterion (cfg s) b) = Some (VNum q) ->
     mixed_precision_mode (cfg s) = MPOff ->
     fst (train_step b s) = Raise AttributeError /\
     ops (snd (train_step b s)) = ops s).
Proof.
  split; [|split].
  - intros d Hc Hd. unfold train_step, bind at 1, get. rewrite Hc, Hd.
    reflexivity.
  - intros Hc. unfold train_step, bind at 1, get. rewrite Hc. reflexivity.
  - intros q Hq Hmp.
    assert (Htail : forall d,
      let r := bind (loss_backward
                       (if 1 <? grad_accumulation_steps (cfg s)
                        then value_div (VNum q) (grad_accumulation_steps (cfg s))
                        else VNum q))
                 (fun loss => bind (scale_detail (grad_accumulation_steps (cfg s)) d)
                                (fun detail => ret (b, loss, detail))) s in
      fst r = Raise AttributeError /\ ops (snd r) = ops s).
    { intros d. unfold loss_backward, bind, get, modify, emit, raise, ret. cbn.
      rewrite Hmp. cbn. destruct (1 <? grad_accumulation_steps (cfg s)); cbn; auto. }
    assert (E : exists d,
      train_step b s
      = bind (loss_backward
                (if 1 <? grad_accumulation_steps (cfg s)
                 then value_div (VNum q) (grad_accumulation_steps (cfg s))
                 else VNum q))
          (fun loss => bind (scale_detail (grad_accumulation_steps (cfg s)) d)
                         (fun detail => ret (b, loss, detail))) s).
    { unfold train_step, bind at 1, get.
      destruct (criterion (cfg s) b) as [q0|d|l|] eqn:Hc; cbn in Hq.
      + discriminate.
      + rewrite Hq. unfold bind at 1, ret at 1. cbn [fst snd]. eauto.
      + destruct l as [|v rest]; [discriminate|]. injection Hq as ->.
        unfold bind at 1, ret at 1. cbn [fst snd]. eauto.
      + discriminate. }
    destruct E as (d & ->). apply Htail.
Qed.

Example train_step_failures_examples :
  fst (train_step 0%nat (initialize (with_criterion no_loss_criterion plain_config)))
    = Raise KeyError /\
  fst (train_step 0%nat (initialize (with_criterion empty_seq_criterion plain_config)))
    = Raise IndexError /\
  fst (train_step 0%nat (initialize (with_criterion number_criterion plain_config)))
    = Raise AttributeError.
Proof. repeat split. Qed.

(** ** Renaming the keys of a state dict *)

Section DictShape.
Context {V : Type}.
Implicit Types (d : list (string * V)) (k : string) (v : V).

Lemma dict_del_keys k d x :
  In x (map fst (dict_del k d)) <-> In x (map fst d) /\ x <> k.
Proof.
  unfold dict_del. induction d as [|[k' v'] d IH]; cbn; [tauto|].
  destruct (String.eqb k k') eqn:E; cbn.
  - apply String.eqb_eq in E. subst k'. rewrite IH. split.
    + intros (H & N). auto.
    + intros ([H|H] & N); [congruence | auto].
  - apply String.eqb_neq in E. rewrite IH. split.
    + intros [H|(H & N)]; [subst; split; [auto | congruence] | auto].
    + intros ([H|H] & N); auto.
Qed.

Lemma dict_del_nodup k d :
  NoDup (map fst d) -> NoDup (map fst (dict_del k d)).
Proof.
  unfold dict_del. induction d as [|[k' v'] d IH]; cbn; [trivial|].
  intros H. inversion H as [|? ? Hn Hd]; subst.
  destruct (String.eqb k k'); cbn; [auto|].
  constructor; [|auto].
  intros Hin. apply Hn. now apply (dict_del_keys k d k').
Qed.

Lemma dict_del_absent k d : ~ In k (map fst d) -> dict_del k d = d.
Proof.
  unfold dict_del. induction d as [|[k' v'] d IH]; cbn; [reflexivity|].
  intros H. destruct (String.eqb k k') eqn:E.
  - apply String.eqb_eq in E. subst. exfalso. auto.
  - cbn. rewrite IH; auto.
Qed.

Lemma dict_set_absent k v d :
  ~ In k (map fst d) -> dict_set k v d = d ++ [(k, v)].
Proof.
  induction d as [|[k' v'] d IH]; cbn; [reflexivity|].
  intros H. destruct (String.eqb k k') eqn:E.
  - apply String.eqb_eq in E. subst. exfalso. auto.
  - rewrite IH; auto.
Qed.

Lemma dict_set_keys_in k v d x :
  x = k \/ In x (map fst d) -> In x (map fst (dict_set k v d)).
Proof.
  induction d as [|[k' v'] d IH]; cbn.
  - intros [H|[]]. auto.
  - destruct (String.eqb k k') eqn:E; cbn.
    + apply String.eqb_eq in E. subst k'. intros [H|[H|H]]; auto.
    + intros [H|[H|H]]; auto.
Qed.

Lemma dict_set_nodup k v d :
  NoDup (map fst d) -> NoDup (map fst (dict_set k v d)).
Proof.
  induction d as [|[k' v'] d IH]; cbn.
  - intros _. constructor; [intros [] | constructor].
  - intros H. inversion H as [|? ? Hn Hd]; subst.
    destruct (String.eqb k k') eqn:E; cbn.
    + apply String.eqb_eq in E. subst k'. now constructor.
    + apply String.eqb_neq in E. constructor; [|auto].
      intros Hin. apply dict_set_keys in Hin. destruct Hin as [->|Hin]; auto.
Qed.

Lemma dict_get_in k d : In k (map fst d) -> exists v, dict_get k d = Some v.
Proof.
  intros H. destruct (dict_get k d) as [v|] eqn:E; [eauto|].
  apply dict_get_none_notin in E. contradiction.
Qed.

Lemma dict_get_value k v d : dict_get k d = Some v -> In v (map snd d).
Proof.
  induction d as [|[k' v'] d IH]; cbn; [discriminate|].
  destruct (String.eqb k k'); [intros H; injection H as ->; auto | auto].
Qed.

Lemma dict_del_values k d x : In x (map snd (dict_del k d)) -> In x (map snd d).
Proof.
  unfold dict_del. induction d as [|[k' v'] d IH]; cbn; [trivial|].
  destruct (String.eqb k k'); cbn; [auto|]. intros [H|H]; auto.
Qed.

Lemma dict_set_values k v d x :
  In x (map snd (dict_set k v d)) -> x = v \/ In x (map snd d).
Proof.
  induction d as [|[k' v'] d IH]; cbn.
  - intros [H|[]]. auto.
  - destruct (String.eqb k k'); cbn.
    + intros [H|H]; auto.
    + intros [H|H]; [auto|]. apply IH in H. tauto.
Qed.
End DictShape.

(** The renaming loop on a state dict whose keys are distinct, over keys it
    holds: no [pop] misses, the keys stay distinct and every value comes from
    the state dict. *)
Lemma rename_keys_run mapping ks : forall sd,
  NoDup ks -> NoDup (map fst sd) -> incl ks (map fst sd) ->
  exists sd', rename_keys mapping ks sd = Ok sd' /\ NoDup (map fst sd') /\
              forall v, In v (map snd sd') -> In v (map snd sd).
Proof.
  induction ks as [|k ks IH]; intros sd Hks Hsd Hin; cbn.
  - exists sd. auto.
  - inversion Hks as [|? ? Hk Hks']; subst.
    assert (Hkeep : exists sd', rename_keys mapping ks sd = Ok sd' /\
                                NoDup (map fst sd') /\
                                forall v, In v (map snd sd') -> In v (map snd sd)).
    { apply IH; auto. intros x Hx. apply Hin. now right. }
    assert (Hmove : forall new,
      exists sd', match match dict_get k sd with
                        | Some v => Ok (dict_set new v (dict_del k sd))
                        | None => Raise KeyError
                        end with
                  | Ok sd1 => rename_keys mapping ks sd1
                  | Raise e => Raise e
                  end = Ok sd' /\ NoDup (map fst sd') /\
                  forall v, In v (map snd sd') -> In v (map snd sd)).
    { intros new.
      destruct (dict_get_in k sd (Hin k (or_introl eq_refl))) as (v & Hv).
      rewrite Hv.
      destruct (IH (dict_set new v (dict_del k sd))) as (sd' & E & N & W).
      - assumption.
      - apply dict_set_nodup, dict_del_nodup, Hsd.
      - intros x Hx. apply dict_set_keys_in. right. apply dict_del_keys.
        split; [apply Hin; now right | intros ->; contradiction].
      - exists sd'. split; [assumption|]. split; [assumption|].
        intros x Hx. apply W in Hx. apply dict_set_values in Hx.
        destruct Hx as [->|Hx].
        + eapply dict_get_value; eassumption.
        + eapply dict_del_values; eassumption. }
    unfold rename_key. destruct mapping as [|m|f].
    + exact Hkeep.
    + destruct (dict_get k m); [apply Hmove | exact Hkeep].
    + apply Hmove.
Qed.

Lemma load_each_completes mapping strict ps : forall s,
  (forall p, In p ps -> NoDup (map fst (load_checkpoint (cfg s) p))) ->
  fst (load_each mapping strict ps s) = Ok tt /\
  List.length (loaded_prefix (cfg s) mapping ps) = List.length ps.
Proof.
  induction ps as [|p ps IH]; intros s Hp; [split; reflexivity|].
  destruct (rename_keys_run mapping (map fst (load_checkpoint (cfg s) p))
              (load_checkpoint (cfg s) p)) as (sd' & E & _).
  - apply Hp. now left.
  - apply Hp. now left.
  - apply incl_refl.
  - assert (Eq : load_each mapping strict (p :: ps) s
                 = load_each mapping strict ps
                     (set_ops (ops s ++ [OpLoadStateDict sd' strict]) s)).
    { cbn [load_each]. unfold bind at 1, get. rewrite E. reflexivity. }
    rewrite Eq. cbn [loaded_prefix]. rewrite E.
    destruct (IH (set_ops (ops s ++ [OpLoadStateDict sd' strict]) s)) as (F & L).
    + intros q Hq. cbn. apply Hp. now right.
    + split; [exact F|]. cbn in L. cbn [List.length]. now rewrite L.
Qed.

(** X15. The key renaming of [load_weights] never misses a key.  For a state
    dict with distinct keys (as every Python dict has) and any mapping
    ([None], a dict or a function), the loop
    [state_dict[new] = state_dict.pop(k)] over the keys of the state dict
    completes without [KeyError]; the renamed state dict has distinct keys
    and holds only values of the original one.  So [load_weights] on a path,
    or on a list of paths, returns normally and hands the module one state
    dict per file. *)
Theorem rename_keys_completes (mapping : Mapping) :
  (forall sd : StateDict, NoDup (map fst sd) ->
     exists sd',
       rename_keys mapping (map fst sd) sd = Ok sd' /\ NoDup (map fst sd') /\
       forall v, In v (map snd sd') -> In v (map snd sd)) /\
  (forall (s : St) strict ps,
     (forall p, In p ps -> NoDup (map fst (load_checkpoint (cfg s) p))) ->
     fst (load_weights (PathSeq ps) strict mapping s) = Ok tt /\
     List.length (ops (snd (load_weights (PathSeq ps) strict mapping s)))
     = (List.length (ops s) + List.length ps)%nat) /\
  (forall (s : St) strict p,
     NoDup (map fst (load_checkpoint (cfg s) p)) ->
     fst (load_weights (PathStr p) strict mapping s) = Ok tt /\
     List.length (ops (snd (load_weights (PathStr p) strict mapping s)))
     = S (List.length (ops s))).
Proof.
  split; [|split].
  - intros sd Hsd.
    apply rename_keys_run; [assumption | assumption | apply incl_refl].
  - intros s strict ps Hp. unfold load_weights.
    destruct (load_each_completes mapping false ps s Hp) as (F & L).
    split; [exact F|].
    rewrite load_each_ops, length_app, length_map, L. reflexivity.
  - intros s strict p Hp. unfold load_weights.
    destruct (load_each_completes mapping strict [p] s) as (F & L).
    { intros q [<-|[]]. exact Hp. }
    split; [exact F|].
    rewrite load_each_ops, length_app, length_map, L. cbn. lia.
Qed.

Example rename_keys_example :
  rename_keys (MapDict [("head.weight", "classifier.weight")])
              (map fst small_model) small_model
  = Ok [("embed.weight", 0%nat); ("head.bias", 2%nat);
        ("classifier.weight", 1%nat)].
Proof. reflexivity. Qed.

Lemma rename_key_target mapping sd k :
  rename_key mapping sd k
  = match rename_target mapping k with
    | None => Ok sd
    | Some new =>
        match dict_get k sd with
        | Some v => Ok (dict_set new v (dict_del k sd))
        | None => Raise KeyError
        end
    end.
Proof. destruct mapping; reflexivity. Qed.

Lemma dict_get_del_other {V} k k' (d : list (string * V)) :
  k <> k' -> dict_get k (dict_del k' d) = dict_get k d.
Proof.
  intros N. unfold dict_del. induction d as [|[k0 v0] d IH]; cbn; [reflexivity|].
  destruct (String.eqb k' k0) eqn:E; cbn.
  - apply String.eqb_eq in E. subst k0.
    destruct (String.eqb k k') eqn:E'; [apply String.eqb_eq in E'; contradiction|].
    exact IH.
  - destruct (String.eqb k k0); [reflexivity | exact IH].
Qed.

(** A key that is neither renamed nor the target of a renaming keeps its
    entry. *)
Lemma rename_keys_untouched mapping ks : forall sd sd' k,
  rename_keys mapping ks sd = Ok sd' ->
  ~ In k ks ->
  (forall k', In k' ks -> rename_target mapping k' <> Some k) ->
  dict_get k sd' = dict_get k sd.
Proof.
  induction ks as [|k0 ks IH]; intros sd sd' k H Hk Ht; cbn in H.
  - now injection H as <-.
  - rewrite rename_key_target in H.
    assert (Hk' : ~ In k ks) by (intros X; apply Hk; now right).
    assert (Ht' : forall k', In k' ks -> rename_target mapping k' <> Some k)
      by (intros k' X; apply Ht; now right).
    destruct (rename_target mapping k0) as [new|] eqn:Hn.
    + destruct (dict_get k0 sd) as [v|]; [|discriminate].
      rewrite (IH _ _ _ H Hk' Ht').
      rewrite dict_get_set_other, dict_get_del_other; [reflexivity | |].
      * intros ->. apply Hk. now left.
      * intros ->. apply (Ht k0 (or_introl eq_refl)). assumption.
    + exact (IH _ _ _ H Hk' Ht').
Qed.

Lemma is_trainable_in trainable k :
  is_trainable trainable k = true <-> In k trainable.
Proof.
  unfold is_trainable. rewrite existsb_exists. split.
  - intros (x & Hx & E). apply String.eqb_eq in E. now subst.
  - intros H. exists k. split; [assumption | apply String.eqb_refl].
Qed.

(** With [trainable_only] the loop is the renaming loop over the trainable
    keys; without it, over all keys. *)
Lemma save_keys_filter mapping trainable ks : forall sd,
  save_keys mapping true trainable ks sd
  = rename_keys mapping (filter (is_trainable trainable) ks) sd.
Proof.
  induction ks as [|k ks IH]; intros sd; cbn; [reflexivity|].
  unfold save_key. cbn [andb]. fold (is_trainable trainable k).
  destruct (is_trainable trainable k); cbn.
  - destruct (rename_key mapping sd k); [apply IH | reflexivity].
  - apply IH.
Qed.

Lemma save_keys_all mapping trainable ks : forall sd,
  save_keys mapping false trainable ks sd = rename_keys mapping ks sd.
Proof.
  induction ks as [|k ks IH]; intros sd; cbn; [reflexivity|].
  unfold save_key. cbn [andb].
  destruct (rename_key mapping sd k); [apply IH | reflexivity].
Qed.

Lemma rename_keys_none ks : forall sd, rename_keys MapNone ks sd = Ok sd.
Proof. induction ks as [|k ks IH]; intros sd; cbn; [reflexivity | apply IH]. Qed.

(** X16. [save_weights] with [trainable_only=True] does not leave the frozen
    parameters out.  The flag only makes the renaming loop pass over the
    keys that are not trainable; nothing is removed from the state dict.  For
    a state dict with distinct keys the loop completes, every key that is
    not trainable is still there with its value (unless a trainable key is
    renamed onto it), and without a mapping the state dict saved is the
    whole state dict of the module. *)
Theorem save_weights_keeps_frozen (mapping : Mapping) (trainable : list string)
    (sd : StateDict) (Hsd : NoDup (map fst sd)) :
  exists sd',
    save_weights_state_dict mapping true trainable sd = Ok sd' /\
    (forall k, In k (map fst sd) -> ~ In k trainable ->
       (forall k', In k' trainable -> rename_target mapping k' <> Some k) ->
       dict_get k sd' = dict_get k sd) /\
    (mapping = MapNone -> sd' = sd).
Proof.
  unfold save_weights_state_dict. rewrite save_keys_filter.
  destruct (rename_keys_run mapping (filter (is_trainable trainable) (map fst sd)) sd)
    as (sd' & E & _).
  - now apply NoDup_filter.
  - assumption.
  - intros x Hx. apply filter_In in Hx. tauto.
  - exists sd'. split; [assumption|]. split.
    + intros k Hk Hfrozen Ht.
      apply (rename_keys_untouched _ _ _ _ _ E).
      * intros X. apply filter_In in X. destruct X as (_ & X).
        apply is_trainable_in in X. contradiction.
      * intros k' X. apply filter_In in X. destruct X as (_ & X).
        apply is_trainable_in in X. now apply Ht.
    + intros ->. rewrite rename_keys_none in E. now injection E.
Qed.

Lemma save_weights_keeps_frozen_witness :
  exists sd',
    save_weights_state_dict (MapFun add_prefix) true ["head.weight"; "head.bias"]
                            small_model = Ok sd' /\
    (forall k, In k (map fst small_model) ->
       ~ In k ["head.weight"; "head.bias"] ->
       (forall k', In k' ["head.weight"; "head.bias"] ->
                   rename_target (MapFun add_prefix) k' <> Some k) ->
       dict_get k sd' = dict_get k small_model) /\
    (MapFun add_prefix = MapNone -> sd' = small_model).
Proof.
  apply (save_weights_keeps_frozen (MapFun add_prefix)
           ["head.weight"; "head.bias"] small_model).
  repeat constructor; cbn; intuition discriminate.
Defined.

(** The frozen embedding is saved along with the renamed head. *)
Example save_weights_trainable_only :
  save_weights_state_dict (MapFun add_prefix) true ["head.weight"; "head.bias"]
                          small_model
  = Ok [("embed.weight", 0%nat); ("module.head.weight", 1%nat);
        ("module.head.bias", 2%nat)].
Proof. reflexivity. Qed.

(** Renaming by a function moves every entry to the end in turn, so the
    order is kept, as long as no renamed key falls on another key. *)
Lemma rename_fun_moves f : forall (rest done : StateDict),
  NoDup (map fst rest) ->
  (forall k, In k (map fst rest) -> ~ In k (map fst done)) ->
  (forall k, In k (map fst rest) -> ~ In (f k) (map fst done)) ->
  (forall k, In k (map fst rest) -> In (f k) (map fst rest) -> f k = k) ->
  (forall k1 k2, In k1 (map fst rest) -> In k2 (map fst rest) ->
                 f k1 = f k2 -> k1 = k2) ->
  rename_keys (MapFun f) (map fst rest) (rest ++ done)
  = Ok (done ++ renamed f rest).
Proof.
  induction rest as [|[k v] rest IH]; intros done Hnd Hd Hfd Hself Hinj.
  - cbn. now rewrite app_nil_r.
  - cbn [map fst rename_keys rename_key]. cbn [app dict_get].
    rewrite String.eqb_refl.
    inversion Hnd as [|? ? Hk Hnd']; subst.
    assert (Hkd : ~ In k (map fst (rest ++ done))).
    { rewrite map_app, in_app_iff. intros [X|X]; [contradiction|].
      apply (Hd k); [now left | assumption]. }
    assert (Hfk : ~ In (f k) (map fst (rest ++ done))).
    { rewrite map_app, in_app_iff. intros [X|X].
      - assert (f k = k) by (apply Hself; [now left | now right]).
        congruence.
      - apply (Hfd k); [now left | assumption]. }
    assert (Hdel : dict_del k ((k, v) :: rest ++ done) = rest ++ done).
    { unfold dict_del. cbn. rewrite String.eqb_refl. cbn.
      now apply dict_del_absent. }
    rewrite Hdel, dict_set_absent by assumption.
    rewrite <- app_assoc. rewrite IH.
    + unfold renamed. cbn. now rewrite <- app_assoc.
    + assumption.
    + intros k' Hk'. rewrite map_app, in_app_iff. cbn.
      intros [X|[X|[]]].
      * apply (Hd k'); [now right | assumption].
      * assert (f k = k) by (apply Hself; [now left | right; congruence]).
        congruence.
    + intros k' Hk'. rewrite map_app, in_app_iff. cbn.
      intros [X|[X|[]]].
      * apply (Hfd k'); [now right | assumption].
      * assert (k = k') by (apply Hinj; [now left | now right | assumption]).
        congruence.
    + intros k' Hk' X. apply Hself; [now right|]. now right.
    + intros k1 k2 H1 H2. apply Hinj; now right.
Qed.

Lemma NoDup_map_on {A B} (f : A -> B) l :
  (forall x y, In x l -> In y l -> f x = f y -> x = y) ->
  NoDup l -> NoDup (map f l).
Proof.
  intros Hinj H. induction H as [|a l Ha Hl IH]; cbn; constructor.
  - intros X. apply in_map_iff in X. destruct X as (b & E & Hb).
    assert (b = a) by (apply Hinj; [now right | now left | assumption]).
    subst. contradiction.
  - apply IH. intros x y Hx Hy. apply Hinj; now right.
Qed.

(** X17. Saving under renamed keys and loading with the inverse renaming
    gives the state dict back.  Let [f] rename the keys of a state dict with
    distinct keys to names none of which is a key already, and let [g] undo
    [f] on those keys.  Then [save_weights] with [mapping=f] saves the state
    dict entry by entry under the renamed keys, in the same order, and the
    key loop of [load_weights] with [mapping=g] turns what was saved back
    into the original state dict. *)
Theorem save_load_round_trip (f g : string -> string) (sd : StateDict)
    (Hsd : NoDup (map fst sd))
    (Hfresh : forall k, In k (map fst sd) -> ~ In (f k) (map fst sd))
    (Hinv : forall k, In k (map fst sd) -> g (f k) = k) :
  save_weights_state_dict (MapFun f) false [] sd = Ok (renamed f sd) /\
  rename_keys (MapFun g) (map fst (renamed f sd)) (renamed f sd) = Ok sd.
Proof.
  assert (Hinj : forall k1 k2, In k1 (map fst sd) -> In k2 (map fst sd) ->
                               f k1 = f k2 -> k1 = k2).
  { intros k1 k2 H1 H2 E. rewrite <- (Hinv k1 H1), <- (Hinv k2 H2). now f_equal. }
  assert (Hkeys : map fst (renamed f sd) = map f (map fst sd)).
  { unfold renamed. rewrite !map_map. reflexivity. }
  split.
  - unfold save_weights_state_dict. rewrite save_keys_all.
    pose proof (rename_fun_moves f sd [] Hsd) as H.
    rewrite app_nil_r in H. cbn [app] in H. apply H.
    + intros k _ [].
    + intros k _ [].
    + intros k Hk X. exfalso. exact (Hfresh k Hk X).
    + exact Hinj.
  - pose proof (rename_fun_moves g (renamed f sd) []) as H.
    rewrite app_nil_r in H. cbn [app] in H. rewrite H.
    + apply f_equal. unfold renamed. rewrite map_map. cbn.
      rewrite <- (map_id sd) at 2. apply map_ext_in.
      intros [k v] Hin. cbn. f_equal. apply Hinv.
      apply in_map_iff. exists (k, v). auto.
    + rewrite Hkeys. apply NoDup_map_on; assumption.
    + intros k _ [].
    + intros k _ [].
    + intros k' Hk' X. exfalso. rewrite Hkeys in Hk', X.
      apply in_map_iff in Hk'. destruct Hk' as (k & <- & Hk).
      rewrite (Hinv k Hk) in X.
      apply in_map_iff in X. destruct X as (k2 & E & Hk2).
      apply (Hfresh k2 Hk2). now rewrite E.
    + intros k1 k2 H1 H2 E. rewrite Hkeys in H1, H2.
      apply in_map_iff in H1, H2.
      destruct H1 as (a & <- & Ha), H2 as (b & <- & Hb).
      rewrite (Hinv a Ha), (Hinv b Hb) in E. now subst.
Qed.

Lemma save_load_round_trip_witness :
  save_weights_state_dict (MapFun add_prefix) false [] small_model
    = Ok (renamed add_prefix small_model) /\
  rename_keys (MapFun strip_prefix) (map fst (renamed add_prefix small_model))
              (renamed add_prefix small_model) = Ok small_model.
Proof.
  apply (save_load_round_trip add_prefix strip_prefix small_model).
  - repeat constructor; cbn; intuition discriminate.
  - intros k [<-|[<-|[<-|[]]]]; cbn; intuition discriminate.
  - intros k [<-|[<-|[<-|[]]]]; reflexivity.
Defined.

(** ** Moving a batch to the device of the model *)

Lemma map_ext_Forall {A B} (f g : A -> B) l :
  Forall (fun a => f a = g a) l -> map f l = map g l.
Proof. induction 1 as [|a l Ha _ IH]; cbn; [reflexivity|]. now rewrite Ha, IH. Qed.

(** X18. [_move_to_model_device] with the flag on and the trainer on device
    [d] moves every tensor of a batch to [d] and keeps the tensors and their
    order; a tuple, at any depth, comes back as a list; moving a batch a
    second time changes nothing; and with the flag off the batch is handed
    back as it is. *)
Theorem move_to_model_device_moves (d : nat) (x : PyData) :
  let y := _move_to_model_device true (Some d) x in
  map fst (tensors y) = map fst (tensors x) /\
  Forall (fun t => snd t = d) (tensors y) /\
  has_tuple y = false /\
  _move_to_model_device true (Some d) y = y /\
  _move_to_model_device false (Some d) x = x.
Proof.
  cbv zeta. split; [|split; [|split; [|split]]].
  - induction x as [id dev|l IH|l IH|dd IH|id] using PyData_induction; cbn.
    + destruct (Nat.eqb dev d); reflexivity.
    + induction IH as [|a l Ha _ IHl]; cbn; [reflexivity|].
      rewrite !map_app. now rewrite Ha, IHl.
    + induction IH as [|a l Ha _ IHl]; cbn; [reflexivity|].
      rewrite !map_app. now rewrite Ha, IHl.
    + induction IH as [|a l Ha _ IHl]; cbn; [reflexivity|].
      rewrite !map_app. now rewrite Ha, IHl.
    + reflexivity.
  - induction x as [id dev|l IH|l IH|dd IH|id] using PyData_induction; cbn.
    + destruct (Nat.eqb dev d) eqn:E; cbn; constructor; cbn; auto.
      now apply Nat.eqb_eq in E.
    + induction IH as [|a l Ha _ IHl]; cbn; [constructor|].
      apply Forall_app. auto.
    + induction IH as [|a l Ha _ IHl]; cbn; [constructor|].
      apply Forall_app. auto.
    + induction IH as [|a l Ha _ IHl]; cbn; [constructor|].
      apply Forall_app. auto.
    + constructor.
  - induction x as [id dev|l IH|l IH|dd IH|id] using PyData_induction; cbn.
    + destruct (Nat.eqb dev d); reflexivity.
    + induction IH as [|a l Ha _ IHl]; cbn; [reflexivity|].
      now rewrite Ha, IHl.
    + induction IH as [|a l Ha _ IHl]; cbn; [reflexivity|].
      now rewrite Ha, IHl.
    + induction IH as [|a l Ha _ IHl]; cbn; [reflexivity|].
      now rewrite Ha, IHl.
    + reflexivity.
  - induction x as [id dev|l IH|l IH|dd IH|id] using PyData_induction; cbn.
    + destruct (Nat.eqb dev d) eqn:E; cbn; [now rewrite E|].
      now rewrite Nat.eqb_refl.
    + f_equal. rewrite map_map. now apply map_ext_Forall.
    + f_equal. rewrite map_map. now apply map_ext_Forall.
    + f_equal. rewrite map_map. apply map_ext_Forall.
      eapply Forall_impl; [|exact IH]. cbn. intros a Ha. now rewrite Ha.
    + reflexivity.
  - destruct x; reflexivity.
Qed.

(** The tuple of the batch and the tuple inside its dict both come back as
    lists, with both tensors on device 2. *)
Example move_mixed_batch :
  _move_to_model_device true (Some 2%nat) mixed_batch
  = DList [DTensor 0 2; DDict [("labels", DList [DTensor 1 2; DOther 7])]]%nat.
Proof. reflexivity. Qed.

(** ** Filling the DeepSpeed configuration *)

Example split_dot_example :
  split_dot "optimizer.params.lr" = ["optimizer"; "params"; "lr"] /\
  split_dot "train_batch_size" = ["train_batch_size"] /\
  split_dot "" = [""].
Proof. repeat split. Qed.

Lemma find_node_object nodes : forall config c,
  find_node nodes config = Ok (Some c) -> nodes <> [] ->
  exists d, config = JObj d.
Proof.
  destruct nodes as [|n nodes]; intros config c H N; [contradiction|].
  cbn in H. destruct config; try discriminate. eauto.
Qed.

(** Writing a key of the node at the end of a path leaves the path in
    place and changes that node only. *)
Lemma find_node_set nodes key v : forall config d,
  find_node nodes config = Ok (Some (JObj d)) ->
  find_node nodes (set_node nodes key v config)
  = Ok (Some (JObj (dict_set key v d))).
Proof.
  induction nodes as [|n nodes IH]; intros config d H; cbn in H.
  - injection H as ->. reflexivity.
  - destruct config as [| | | | |d0]; try discriminate.
    cbn [set_node].
    destruct (dict_get n d0) as [c|] eqn:Hn; [|discriminate].
    assert (Hc : exists dc, c = JObj dc).
    { destruct nodes as [|n' nodes'].
      - cbn in H. destruct c; try discriminate; injection H as ->; eauto.
      - destruct c; try discriminate. eauto. }
    destruct Hc as (dc & ->).
    cbn [find_node]. rewrite dict_get_set_same.
    specialize (IH (JObj dc) d H).
    destruct nodes as [|n' nodes']; cbn [set_node] in *.
    + exact IH.
    + destruct (dict_get n' dc); exact IH.
Qed.

(** The run of [fill_match] on an ["auto"]: the key is written in the node
    the path leads to, and reads back. *)
Lemma fill_match_auto_run (key : string) (hf_val default : Json)
    (must_match : bool) (root : Json) :
  get_value key JNull root = Ok (JStr "auto") ->
  fill_match key hf_val must_match root
  = Ok (set_node (removelast (split_dot key)) (last (split_dot key) "")
          hf_val root) /\
  get_value key default
    (set_node (removelast (split_dot key)) (last (split_dot key) "")
       hf_val root) = Ok hf_val.
Proof.
  intros Hauto. unfold get_value, fill_match, find_config_node in *.
  set (nodes := removelast (split_dot key)) in *.
  set (k := last (split_dot key) "") in *.
  destruct (find_node nodes root) as [[c|]|e] eqn:F; try discriminate.
  destruct c as [| | | | |d]; try discriminate.
  destruct (dict_get k d) as [v|] eqn:Hk; [|discriminate].
  injection Hauto as ->. cbn [is_auto]. rewrite String.eqb_refl.
  split; [reflexivity|].
  rewrite (find_node_set nodes k hf_val root d F).
  now rewrite dict_get_set_same.
Qed.

(** X19. [fill_match] replaces an ["auto"] and the new value can be read
    back.  When the value the dotted key leads to is the string ["auto"],
    [fill_match] succeeds, and afterwards [get_value] on the same key gives
    the value filled in, whatever the default. *)
Theorem fill_match_fills_auto (key : string) (hf_val default : Json)
    (must_match : bool) (root : Json)
    (Hauto : get_value key JNull root = Ok (JStr "auto")) :
  exists root',
    fill_match key hf_val must_match root = Ok root' /\
    get_value key default root' = Ok hf_val.
Proof.
  destruct (fill_match_auto_run key hf_val default must_match root Hauto)
    as (E & G).
  eexists. split; [exact E | exact G].
Qed.

Lemma fill_match_fills_auto_witness :
  exists root',
    fill_match "optimizer.params.lr" (JNum (1 # 1000)%Q) true ds_example
    = Ok root' /\
    get_value "optimizer.params.lr" JNull root' = Ok (JNum (1 # 1000)%Q).
Proof.
  apply (fill_match_fills_auto "optimizer.params.lr" (JNum (1 # 1000)%Q) JNull
           true ds_example).
  reflexivity.
Defined.

(** X20. [fill_match] never overwrites a setting and never adds one.  When
    the value the dotted key leads to is anything but the string ["auto"]
    (or the key, or a node on the way, is missing: [get_value] then gives
    its default), the configuration is left exactly as it was, whether
    [must_match] is set or not: a mismatch only writes a warning.  Hence
    filling the same key a second time changes nothing, provided the value
    filled in is not itself ["auto"]. *)
Theorem fill_match_keeps_settings (key : string) (hf_val : Json)
    (must_match : bool) (root : Json) :
  (forall v, get_value key JNull root = Ok v -> is_auto v = false ->
     fill_match key hf_val must_match root = Ok root) /\
  fill_match key hf_val true root = fill_match key hf_val false root /\
  (forall root' mm, is_auto hf_val = false ->
     fill_match key hf_val must_match root = Ok root' ->
     fill_match key hf_val mm root' = Ok root').
Proof.
  assert (Keep : forall mm r v, get_value key JNull r = Ok v ->
                                is_auto v = false ->
                                fill_match key hf_val mm r = Ok r).
  { intros mm r v. unfold get_value, fill_match, find_config_node.
    destruct (find_node (removelast (split_dot key)) r) as [[c|]|e];
      try discriminate; [|reflexivity].
    destruct c as [| | | | |d]; try discriminate.
    destruct (dict_get (last (split_dot key) "") d) as [w|]; [|reflexivity].
    intros H Hv. injection H as ->. now rewrite Hv. }
  split; [intros v; apply Keep|]. split; [reflexivity|].
  intros root' mm Hhf H.
  destruct (get_value key JNull root) as [v|e] eqn:G.
  - destruct (is_auto v) eqn:Hv.
    + assert (v = JStr "auto").
      { destruct v; try discriminate. cbn in Hv.
        apply String.eqb_eq in Hv. now subst. }
      subst v.
      destruct (fill_match_auto_run key hf_val JNull must_match root G)
        as (E1 & G1).
      rewrite E1 in H. injection H as <-.
      exact (Keep mm _ hf_val G1 Hhf).
    + rewrite (Keep must_match root v G Hv) in H. injection H as <-.
      exact (Keep mm root v G Hv).
  - exfalso. unfold get_value, fill_match, find_config_node in *.
    destruct (find_node (removelast (split_dot key)) root) as [[c|]|e'];
      try discriminate.
    destruct c; discriminate.
Qed.

Example fill_match_examples :
  fill_match "train_batch_size" (JNum 64%Q) true ds_example = Ok ds_example /\
  fill_match "scheduler.params.warmup_max_lr" (JNum 1%Q) true ds_example
    = Ok ds_example /\
  fill_match "train_batch_size.per_gpu" (JNum 8%Q) true ds_example
    = Raise AttributeError.
Proof. repeat split. Qed.

(** ** The metrics registry *)

Lemma metric_key_eqb_eq a b : metric_key_eqb a b = true <-> a = b.
Proof.
  destruct a as [x|f], b as [y|g]; cbn; split; try discriminate.
  - intros H. apply String.eqb_eq in H. now subst.
  - intros H. injection H as ->. apply String.eqb_refl.
  - intros H. apply Nat.eqb_eq in H. now subst.
  - intros H. injection H as ->. apply Nat.eqb_refl.
Qed.

Lemma registry_set_keys k v d x :
  In x (map fst (registry_set k v d)) -> x = k \/ In x (map fst d).
Proof.
  induction d as [|[k' v'] d IH]; cbn.
  - intros [H|[]]. auto.
  - destruct (metric_key_eqb k k') eqn:E; cbn.
    + intros [H|H]; auto.
    + intros [H|H]; [auto|]. apply IH in H. tauto.
Qed.

Lemma registry_set_nodup k v d :
  NoDup (map fst d) -> NoDup (map fst (registry_set k v d)).
Proof.
  induction d as [|[k' v'] d IH]; cbn.
  - intros _. constructor; [intros [] | constructor].
  - intros H. inversion H as [|? ? Hn Hd]; subst.
    destruct (metric_key_eqb k k') eqn:E; cbn.
    + apply metric_key_eqb_eq in E. subst k'. now constructor.
    + constructor; [|auto].
      intros Hin. apply registry_set_keys in Hin.
      destruct Hin as [Hk|Hin]; [|auto]. subst k'.
      assert (metric_key_eqb k k = true) by now apply metric_key_eqb_eq.
      congruence.
Qed.

(** The registry starts with the key ['loss'] and holds each key once. *)
Lemma registry_set_head k v d :
  (exists w rest, d = (KeyStr "loss", w) :: rest) ->
  exists w rest, registry_set k v d = (KeyStr "loss", w) :: rest.
Proof.
  intros (w & rest & ->). cbn.
  destruct (metric_key_eqb k (KeyStr "loss")) eqn:E; [|eauto].
  apply metric_key_eqb_eq in E. subst. eauto.
Qed.

Lemma registry_update_shape e : forall d,
  (exists w rest, d = (KeyStr "loss", w) :: rest) -> NoDup (map fst d) ->
  (exists w rest, registry_update d e = (KeyStr "loss", w) :: rest) /\
  NoDup (map fst (registry_update d e)).
Proof.
  unfold registry_update.
  induction e as [|[k v] e IH]; intros d Hh Hn; cbn; [auto|].
  apply IH; [now apply registry_set_head | now apply registry_set_nodup].
Qed.

Lemma add_metric_shape reg m reg' :
  add_metric reg m = Ok reg' ->
  (exists w rest, reg = (KeyStr "loss", w) :: rest) -> NoDup (map fst reg) ->
  (exists w rest, reg' = (KeyStr "loss", w) :: rest) /\ NoDup (map fst reg').
Proof.
  intros E Hh Hn. destruct m as [name|d|f|]; unfold add_metric in E.
  - destruct (negb (String.eqb name "loss")); [|discriminate].
    injection E as <-.
    split; [now apply registry_set_head | now apply registry_set_nodup].
  - injection E as <-. now apply registry_update_shape.
  - injection E as <-.
    exact (registry_update_shape [(KeyFun f, Some f)] reg Hh Hn).
  - discriminate.
Qed.

Lemma add_metrics_shape l : forall reg reg',
  add_metrics reg l = Ok reg' ->
  (exists w rest, reg = (KeyStr "loss", w) :: rest) -> NoDup (map fst reg) ->
  (exists w rest, reg' = (KeyStr "loss", w) :: rest) /\ NoDup (map fst reg').
Proof.
  induction l as [|m l IH]; intros reg reg' H Hh Hn; cbn in H.
  - injection H as <-. auto.
  - destruct (add_metric reg m) as [reg1|e] eqn:E; [|discriminate].
    destruct (add_metric_shape _ _ _ E Hh Hn) as (Hh1 & Hn1).
    exact (IH _ _ H Hh1 Hn1).
Qed.

Lemma add_metrics_rejects l : forall reg,
  In (MetricStr "loss") l \/ In MetricOther l ->
  add_metrics reg l = Raise TypeError.
Proof.
  induction l as [|m l IH]; intros reg H; [destruct H as [[]|[]]|].
  cbn. destruct (add_metric reg m) as [reg1|e] eqn:E.
  - apply IH. destruct H as [[->|H]|[->|H]]; auto; cbn in E; discriminate.
  - destruct m as [name|d|f|]; cbn in E; try discriminate.
    + destruct (negb (String.eqb name "loss")); [discriminate|].
      now injection E as <-.
    + now injection E as <-.
Qed.

(** X21. The metrics registry [compile] builds.  Whenever [compile] accepts
    its [metrics] argument, the registry starts with the key ['loss'] and
    holds every key once.  The name ['loss'] itself is not accepted as a
    metric: a string equal to ['loss'] falls through the three accepted
    shapes, so [metrics='loss'], or a list with ['loss'] or with an element
    that is not a string, dict or function in it, makes [compile] raise
    [TypeError]. *)
Theorem compile_metrics_registry (metrics : MetricsArg) :
  (forall reg, compile_metrics metrics = Ok reg ->
     (exists w rest, reg = (KeyStr "loss", w) :: rest) /\
     NoDup (map fst reg)) /\
  (forall l, metrics = MetricsSeq l ->
     In (MetricStr "loss") l \/ In MetricOther l ->
     compile_metrics metrics = Raise TypeError) /\
  compile_metrics (MetricsOne (MetricStr "loss")) = Raise TypeError.
Proof.
  split; [|split].
  - intros reg H.
    assert (S0 : exists w rest,
               [(KeyStr "loss", @None nat)] = (KeyStr "loss", w) :: rest)
      by eauto.
    assert (N0 : NoDup (map fst [(KeyStr "loss", @None nat)])).
    { cbn. constructor; [intros [] | constructor]. }
    destruct metrics as [|m|l|]; cbn [compile_metrics] in H.
    + exact (add_metrics_shape _ _ _ H S0 N0).
    + exact (add_metrics_shape _ _ _ H S0 N0).
    + exact (add_metrics_shape _ _ _ H S0 N0).
    + discriminate.
  - intros l -> H. cbn [compile_metrics]. now apply add_metrics_rejects.
  - reflexivity.
Qed.

Example compile_metrics_examples :
  compile_metrics (MetricsSeq [MetricStr "accuracy"; MetricFun 3;
                               MetricDict [(KeyStr "f1", Some 4%nat);
                                           (KeyStr "accuracy", Some 5%nat)]])
  = Ok [(KeyStr "loss", None); (KeyStr "accuracy", Some 5%nat);
        (KeyFun 3, Some 3%nat); (KeyStr "f1", Some 4%nat)] /\
  compile_metrics (MetricsSeq [MetricStr "accuracy"; MetricStr "loss"])
  = Raise TypeError /\
  compile_metrics MetricsNone = Ok [(KeyStr "loss", None)].
Proof. repeat split. Qed.

(** ** Verbosity and the callbacks argument *)

Section MoreFrames.
Variable R : St -> St -> Prop.
Hypothesis R_refl : forall s, R s s.
Hypothesis R_trans : forall s1 s2 s3, R s1 s2 -> R s2 s3 -> R s1 s3.
Hypothesis R_ops : forall s l, R s (set_ops l s).
Hypothesis R_disk : forall s d, R s (set_disk d s).
Hypothesis R_callbacks : forall s c, R s (set_callbacks c s).
Hypothesis R_stop : forall s b, R s (set_stop_training b s).
Hypothesis R_loop : forall es logs, framed R (epoch_loop es logs).
Hypothesis R_dispatch : forall h logs, framed R (dispatch h logs).

Lemma framed_io o : framed R (io o).
Proof.
  intros s. unfold io. destruct (io_fail (cfg s) o); cbn; [apply R_refl|].
  apply R_ops.
Qed.

Lemma framed_opt_io (f : string -> Op) (p : option string) :
  framed R (match p with Some x => io (f x) | None => ret tt end).
Proof. destruct p; [apply framed_io | now apply framed_ret]. Qed.

Lemma framed_save_steps_params p : framed R (save_steps_params p).
Proof.
  unfold save_steps_params. apply framed_bind; [assumption|now apply framed_get|].
  intros s0. destruct (steps_per_epoch s0) as [spe|]; [|now apply framed_raise].
  destruct (Z.eqb spe 0); [now apply framed_raise|].
  apply framed_bind; [assumption | apply framed_io |].
  intros _. apply framed_modify. intros s. apply R_disk.
Qed.

Lemma framed_save_to_checkpoint d mp op sp pp :
  framed R (save_to_checkpoint d mp op sp pp).
Proof.
  unfold save_to_checkpoint.
  apply framed_bind; [assumption | apply framed_opt_io |]. intros _.
  apply framed_bind; [assumption | apply framed_opt_io |]. intros _.
  apply framed_bind; [assumption | now apply framed_get |]. intros s0.
  apply framed_bind; [assumption | |].
  - destruct (default_path sp d "scheduler.pt");
      destruct (scheduler (cfg s0));
      first [apply framed_io | now apply framed_ret | now apply framed_raise].
  - intros _. destruct (default_path pp d "steps_params.pt");
      [apply framed_save_steps_params | now apply framed_ret].
Qed.

Lemma framed_prepare_callbacks arg : framed R (_prepare_callbacks arg).
Proof.
  unfold _prepare_callbacks.
  apply framed_bind; [assumption | |].
  - destruct (check_callbacks _); [now apply framed_ret | now apply framed_raise].
  - intros cs. apply framed_bind; [assumption | now apply framed_get |].
    intros s0. apply framed_bind; [assumption | |].
    + destruct (check_intervals _ _); [now apply framed_ret | now apply framed_raise].
    + intros _. apply framed_bind; [assumption | |].
      * destruct (verbose s0); [now apply framed_ret | now apply framed_raise].
      * intros v. apply framed_bind; [assumption | |].
        -- apply framed_modify. intros s. apply R_callbacks.
        -- intros _. apply framed_bind; [assumption | |].
           ++ apply framed_modify. intros s. apply R_stop.
           ++ intros _. now apply framed_ret.
Qed.

Lemma framed_fit_tail n_epochs cbs : framed R (fit_tail n_epochs cbs).
Proof.
  unfold fit_tail.
  apply framed_bind; [assumption | apply framed_prepare_callbacks |]. intros hp.
  apply framed_bind; [assumption | apply R_dispatch |]. intros _.
  apply framed_bind; [assumption | now apply framed_log_init |]. intros logs.
  apply framed_bind; [assumption | now apply framed_get |]. intros s0.
  apply framed_bind; [assumption | apply R_loop |]. intros logs'.
  apply framed_bind; [assumption | apply R_dispatch |]. intros _.
  now apply framed_ret.
Qed.

Lemma framed_fit dl steps n_epochs cbs v kw :
  framed R (_prepare_inputs dl steps n_epochs v) ->
  framed R (fit dl steps n_epochs cbs v kw).
Proof.
  intros Hin s. unfold fit, try_except.
  assert (F : framed R (_fit dl steps n_epochs cbs v)).
  { change (_fit dl steps n_epochs cbs v)
      with (bind (_prepare_inputs dl steps n_epochs v)
              (fun _ => fit_tail n_epochs cbs)).
    apply framed_bind; [assumption | assumption |].
    intros _. apply framed_fit_tail. }
  specialize (F s).
  destruct (_fit dl steps n_epochs cbs v s) as [[h|e] s0]; cbn [snd] in *;
    [assumption|].
  eapply R_trans; [exact F|].
  assert (D : framed R (bind (notify_by_mail kw)
                          (fun _ => bind (save_ckpt_when_error kw)
                            (fun _ => bind (save_batch_when_error kw)
                              (fun _ => @raise Callback e))))).
  { apply framed_bind; [assumption | |].
    - unfold notify_by_mail. destruct (mail_receivers_when_error kw);
        [apply framed_io | now apply framed_ret].
    - intros _. apply framed_bind; [assumption | |].
      + unfold save_ckpt_when_error. destruct (save_ckpt_dir_when_error kw);
          [apply framed_save_to_checkpoint | now apply framed_ret].
      + intros _. apply framed_bind; [assumption | |].
        * unfold save_batch_when_error.
          destruct (save_batch_path_when_error kw); [|now apply framed_ret].
          apply framed_bind; [assumption | now apply framed_get |].
          intros sx. destruct (train_X sx);
            [apply framed_io | now apply framed_raise].
        * intros _. now apply framed_raise. }
  apply D.
Qed.
End MoreFrames.

Lemma sticky_refl s : sticky s s.
Proof. intros v0 H. exact H. Qed.

Lemma sticky_trans s1 s2 s3 : sticky s1 s2 -> sticky s2 s3 -> sticky s1 s3.
Proof. intros A B v0 H. now apply B, A. Qed.

Ltac sticky_frame :=
  first [ exact sticky_refl | exact sticky_trans
        | intros; intros ? ?; cbn; assumption ].

Lemma dispatch_sticky h logs : framed sticky (dispatch h logs).
Proof. intros s v0 H. exact H. Qed.

Lemma epoch_loop_sticky es logs : framed sticky (epoch_loop es logs).
Proof.
  apply framed_epoch_loop; first [exact dispatch_sticky | sticky_frame].
Qed.

Lemma prepare_inputs_sticky dl steps n_epochs v :
  framed sticky (_prepare_inputs dl steps n_epochs v).
Proof.
  intros s v0 H. unfold _prepare_inputs.
  destruct steps as [n|], (dl_len dl) as [len|];
    unfold bind, ret, raise, get, modify; cbn;
    try (destruct (Z.eqb (grad_accumulation_steps (cfg s)) 0); cbn);
    rewrite ?H; try reflexivity; assumption.
Qed.

Lemma prepare_inputs_verbose dl steps n_epochs v s s' :
  _prepare_inputs dl steps n_epochs v s = (Ok tt, s') ->
  verbose s' = Some match verbose s with Some v0 => v0 | None => v end.
Proof.
  intros H. destruct (prepare_inputs_inv _ _ _ _ _ _ H) as (spe & R).
  revert H. unfold resolved_steps in R. unfold _prepare_inputs.
  destruct steps as [n|], (dl_len dl) as [len|];
    unfold bind, ret, raise, get, modify; cbn;
    try (destruct (Z.eqb (grad_accumulation_steps (cfg s)) 0); cbn);
    try discriminate; intros H; injection H as <-; reflexivity.
Qed.

Lemma fit_sticky dl steps n_epochs cbs v kw :
  framed sticky (fit dl steps n_epochs cbs v kw).
Proof.
  apply framed_fit;
    first [ exact epoch_loop_sticky | exact dispatch_sticky
          | exact (prepare_inputs_sticky dl steps n_epochs v) | sticky_frame ].
Qed.

(** X22. The [verbose] argument of [fit] counts only once.
    [_prepare_inputs] keeps the attribute [verbose] when the trainer already
    has one, so a trainer that has no such attribute gets it from the first
    [fit] that passes its input check, and every later [fit] on the same
    trainer runs with that value, whatever [verbose] it is called with. *)
Theorem verbose_fixed_by_first_fit
    dl1 steps1 epochs1 cbs1 v1 kw1 dl2 steps2 epochs2 cbs2 v2 kw2
    (s s1 s2 : St) h r2
    (Hfresh : verbose s = None)
    (Hfirst : fit dl1 steps1 epochs1 cbs1 v1 kw1 s = (Ok h, s1))
    (Hsecond : fit dl2 steps2 epochs2 cbs2 v2 kw2 s1 = (r2, s2)) :
  verbose s1 = Some v1 /\ verbose s2 = Some v1.
Proof.
  assert (V1 : verbose s1 = Some v1).
  { apply fit_ok_inv in Hfirst.
    change (_fit dl1 steps1 epochs1 cbs1 v1)
      with (bind (_prepare_inputs dl1 steps1 epochs1 v1)
              (fun _ => fit_tail epochs1 cbs1)) in Hfirst.
    apply bind_inv in Hfirst.
    destruct Hfirst as [(u & sA & Hin & Htail)|(e & _ & Hd)]; [|discriminate Hd].
    destruct u. apply prepare_inputs_verbose in Hin. rewrite Hfresh in Hin.
    assert (F : framed sticky (fit_tail epochs1 cbs1)).
    { apply framed_fit_tail;
        first [ exact epoch_loop_sticky | exact dispatch_sticky | sticky_frame ]. }
    exact (framed_run _ _ _ _ _ F Htail v1 Hin). }
  split; [assumption|].
  exact (framed_run _ _ _ _ _ (fit_sticky _ _ _ _ _ _) Hsecond v1 V1).
Qed.

Lemma verbose_fixed_by_first_fit_witness :
  verbose (snd example_run) = Some 0 /\
  verbose (snd (fit two_batches (Some 2) 1 ArgNone 1 no_kwargs (snd example_run)))
  = Some 0.
Proof.
  destruct example_run as [r s1] eqn:E1.
  assert (Hr : fst example_run = Ok history) by (vm_compute; reflexivity).
  rewrite E1 in Hr. cbn [fst snd] in *. subst r.
  destruct (fit two_batches (Some 2) 1 ArgNone 1 no_kwargs s1) as [r2 s2] eqn:E2.
  cbn [snd].
  exact (verbose_fixed_by_first_fit two_batches (Some 2) 2 ArgNone 0 no_kwargs
           two_batches (Some 2) 1 ArgNone 1 no_kwargs
           (initialize plain_config) s1 s2 history r2 eq_refl E1 E2).
Defined.

(** X23. [fit] checks its [callbacks] argument after its inputs and before
    anything is dispatched: when the inputs are accepted and some element of
    [callbacks] is not a callback, [fit] (called without error-time options)
    raises [AssertionError], having dispatched nothing and made no call, with
    the callbacks of the trainer as they were. *)
Theorem fit_rejects_callbacks dl steps n_epochs arg v (s : St) (spe : Z)
    (Hsteps : resolved_steps dl steps (grad_accumulation_steps (cfg s)) = Some spe)
    (Hbad : check_callbacks (given_callbacks arg) = None) :
  exists s',
    fit dl steps n_epochs arg v no_kwargs s = (Raise AssertionError, s') /\
    trace s' = trace s /\ ops s' = ops s /\ callbacks s' = callbacks s /\
    stop_training s' = stop_training s.
Proof.
  destruct (prepare_inputs_ok dl steps n_epochs v s spe Hsteps)
    as (s1 & E1 & _ & _ & _ & _ & _ & O1 & T1 & _).
  assert (K1 : callbacks s1 = callbacks s /\ stop_training s1 = stop_training s).
  { revert E1. unfold _prepare_inputs, resolved_steps in *.
    destruct steps as [n|], (dl_len dl) as [len|];
      unfold bind, ret, raise, get, modify; cbn;
      try (destruct (Z.eqb (grad_accumulation_steps (cfg s)) 0); cbn);
      try discriminate; intros H; injection H as <-; split; reflexivity. }
  exists s1. split; [|tauto].
  unfold fit, try_except, _fit. rewrite (bind_ok _ _ _ _ _ E1).
  unfold _prepare_callbacks. unfold given_callbacks in Hbad. rewrite Hbad.
  reflexivity.
Qed.

Lemma fit_rejects_callbacks_witness :
  exists s',
    fit two_batches None 1 bad_callbacks 0 no_kwargs (initialize plain_config)
    = (Raise AssertionError, s') /\
    trace s' = trace (initialize plain_config) /\
    ops s' = ops (initialize plain_config) /\
    callbacks s' = callbacks (initialize plain_config) /\
    stop_training s' = stop_training (initialize plain_config).
Proof.
  apply (fit_rejects_callbacks two_batches None 1 bad_callbacks 0
           (initialize plain_config) 2).
  - reflexivity.
  - reflexivity.
Defined.

(** ** The order of the batches *)

Lemma skipn_cons_nth {A} (d : A) p : forall l b rest,
  skipn p l = b :: rest -> b = nth p l d /\ rest = skipn (S p) l.
Proof.
  induction p as [|p IH]; intros l b rest H.
  - cbn in H. subst l. auto.
  - destruct l as [|a l]; [discriminate|]. cbn in H.
    destruct (IH _ _ _ H) as (-> & ->). auto.
Qed.

Lemma skipn_nil_length {A} p (l : list A) :
  skipn p l = [] -> (List.length l <= p)%nat.
Proof.
  revert l. induction p as [|p IH]; intros l H.
  - cbn in H. subst. cbn. lia.
  - destruct l as [|a l]; cbn; [lia|]. cbn in H. apply IH in H. lia.
Qed.

Lemma succ_mod_small c m :
  (S (c mod m) < m)%nat -> (S c mod m = S (c mod m))%nat.
Proof.
  intros H. symmetry. apply (Nat.mod_unique (S c) m (c / m)); [assumption|].
  pose proof (Nat.div_mod_eq c m). lia.
Qed.

Lemma succ_mod_wrap c m :
  m <> 0%nat -> (m <= S (c mod m))%nat -> (S c mod m = 0)%nat.
Proof.
  intros Hm H. symmetry.
  pose proof (Nat.mod_upper_bound c m Hm).
  apply (Nat.mod_unique (S c) m (S (c / m))); [lia|].
  pose proof (Nat.div_mod_eq c m). nia.
Qed.

Lemma cyclic_app batches c k1 k2 :
  cyclic batches c (k1 + k2)
  = cyclic batches c k1 ++ cyclic batches (c + k1) k2.
Proof. unfold cyclic. now rewrite seq_app, map_app. Qed.

Lemma fetch_at dl c s b s' :
  dl_batches dl <> [] -> loader_at dl c s ->
  _prepare_nextbatch s = (Ok b, s') ->
  b = nth (c mod List.length (dl_batches dl)) (dl_batches dl) 0%nat /\
  loader_at dl (S c) s'.
Proof.
  intros Hne (D & I) H.
  set (batches := dl_batches dl) in *.
  set (m := List.length batches) in *.
  assert (Hm : m <> 0%nat) by (subst m; destruct batches; [contradiction|discriminate]).
  unfold _prepare_nextbatch, bind at 1, get in H. rewrite I in H.
  destruct (iter_at batches c) as [|b0 rest] eqn:Hit.
  - unfold bind at 1, dispatch, modify in H.
    cbn [train_dataloader set_stop_training set_trace] in H. rewrite D in H.
    fold batches in H.
    destruct batches as [|b1 rest1] eqn:Hb; [contradiction|].
    unfold bind, modify, emit, ret in H. cbn in H. injection H as <- <-.
    destruct c as [|c']; [discriminate|]. cbn [iter_at] in Hit.
    apply skipn_nil_length in Hit. fold m in Hit.
    rewrite (succ_mod_wrap c' m Hm Hit).
    split; [reflexivity|]. split; [exact D|].
    cbn [train_dataloader_iter set_ops set_train_dataloader_iter iter_at].
    fold batches. rewrite Hb. fold m.
    rewrite (succ_mod_wrap c' m Hm Hit). reflexivity.
  - unfold bind, modify, emit, ret in H. cbn in H. injection H as <- <-.
    split; [|split; [exact D|]].
    + destruct c as [|c']; cbn [iter_at] in Hit.
      * rewrite Nat.Div0.mod_0_l. rewrite Hit. reflexivity.
      * destruct (skipn_cons_nth 0%nat _ _ _ _ Hit) as (Hb & _).
        assert (Hlt : (S (c' mod m) < m)%nat).
        { destruct (Nat.lt_ge_cases (S (c' mod m)) m) as [L|G]; [assumption|].
          rewrite skipn_all2 in Hit by (fold m; lia). discriminate. }
        fold m. rewrite (succ_mod_small c' m Hlt). exact Hb.
    + cbn [train_dataloader_iter set_ops set_batch_step set_train_dataloader_iter
             iter_at]. fold batches. fold m.
      destruct c as [|c']; cbn [iter_at] in Hit.
      * rewrite Nat.Div0.mod_0_l. rewrite Hit. reflexivity.
      * destruct (skipn_cons_nth 0%nat _ _ _ _ Hit) as (_ & Hr).
        assert (Hlt : (S (c' mod m) < m)%nat).
        { destruct (Nat.lt_ge_cases (S (c' mod m)) m) as [L|G]; [assumption|].
          rewrite skipn_all2 in Hit by (fold m; lia). discriminate. }
        rewrite (succ_mod_small c' m Hlt). exact Hr.
Qed.

Lemma walk_refl dl c s : loader_at dl c s -> walk dl c 0 s s.
Proof.
  intros L. exists []. rewrite app_nil_r, Nat.add_0_r. auto.
Qed.

Lemma walk_trans dl c k1 k2 s1 s2 s3 :
  walk dl c k1 s1 s2 -> walk dl (c + k1) k2 s2 s3 -> walk dl c (k1 + k2) s1 s3.
Proof.
  intros (n1 & O1 & F1 & L1) (n2 & O2 & F2 & L2).
  exists (n1 ++ n2). split; [rewrite O2, O1; now rewrite app_assoc|].
  split; [now rewrite fetched_app, F1, F2, cyclic_app|].
  now rewrite Nat.add_assoc.
Qed.

(** A method that leaves the iterator alone and fetches nothing. *)
Lemma walk_still dl c s s' new :
  steady s s' -> ops s' = ops s ++ new -> fetched new = [] ->
  loader_at dl c s -> walk dl c 0 s s'.
Proof.
  intros ((K & _) & I) O F (D & L). exists new.
  split; [assumption|]. split; [assumption|].
  rewrite Nat.add_0_r. destruct K as (_ & _ & _ & _ & _ & Kd).
  split; congruence.
Qed.

Lemma dispatch_walk dl c h logs s :
  loader_at dl c s -> walk dl c 0 s (snd (dispatch h logs s)).
Proof.
  intros L. apply (walk_still dl c s _ []); try assumption.
  - apply dispatch_steady.
  - rewrite app_nil_r. apply dispatch_ops.
  - reflexivity.
Qed.

Lemma accumulate_walk dl n : forall tl td out s r s' c,
  dl_batches dl <> [] ->
  accumulate n tl td out s = (Ok r, s') -> loader_at dl c s ->
  walk dl c n s s'.
Proof.
  induction n as [|n IH]; intros tl td out s r s' c Hne H L; cbn in H.
  - injection H as _ <-. now apply walk_refl.
  - apply bind_inv in H.
    destruct H as [(b & s1 & E1 & H)|(e & _ & Hd)]; [|discriminate Hd].
    destruct (fetch_at dl c s b s1 Hne L E1) as (Hb & L1).
    apply prepare_nextbatch_ops in E1. destruct E1 as (O1 & _).
    unfold bind at 1, modify at 1 in H.
    apply bind_inv in H.
    destruct H as [(r2 & s2 & E2 & H)|(e & _ & Hd)]; [|discriminate Hd].
    pose proof (framed_run _ _ _ _ _ (train_step_steady b) E2) as S2.
    apply train_step_ops in E2. destruct E2 as (q & detail & _ & -> & _ & _ & O2).
    assert (E3 : dispatch on_train_step_end [] s2
                 = (Ok tt, snd (dispatch on_train_step_end [] s2))) by reflexivity.
    rewrite (bind_ok _ _ _ _ _ E3) in H.
    assert (W1 : walk dl c 1 s (snd (dispatch on_train_step_end [] s2))).
    { assert (L2 : loader_at dl (S c) s2).
      { destruct S2 as ((K & _) & I). destruct K as (_ & _ & _ & _ & _ & Kd).
        destruct L1 as (D1 & I1). split; [rewrite Kd | rewrite I]; cbn; assumption. }
      destruct (dispatch_walk dl (S c) on_train_step_end [] s2 L2)
        as (n3 & O3 & F3 & L3).
      exists ([OpFetch b] ++ [OpBackward (scale_loss (grad_accumulation_steps
                                                        (cfg (set_train_X (Some b) s1))) q)
                               (mp_on (mixed_precision_mode
                                         (cfg (set_train_X (Some b) s1))))] ++ n3).
      split; [rewrite O3, O2; cbn; rewrite O1; now rewrite <- !app_assoc|].
      split.
      - rewrite !fetched_app, F3. cbn. unfold cyclic. cbn. now rewrite Hb.
      - rewrite Nat.add_0_r in L3. now rewrite Nat.add_1_r. }
    apply (IH _ _ _ _ _ _ (c + 1)%nat Hne) in H.
    + exact (walk_trans dl c 1 n _ _ _ W1 H).
    + destruct W1 as (_ & _ & _ & W1). exact W1.
Qed.

Lemma step_body_walk dl spe l s logs s' c :
  dl_batches dl <> [] ->
  step_body spe l s = (Ok logs, s') -> loader_at dl c s ->
  walk dl c (Z.to_nat (grad_accumulation_steps (cfg s))) s s'.
Proof.
  intros Hne H L.
  unfold step_body, bind at 1 2 3 4 5, modify, _log_init,
    bind at 1, get, ret at 1, dispatch, modify in H. cbn in H.
  match type of H with bind _ _ ?st = _ => remember st as s1 eqn:Hs1 end.
  assert (O1 : ops s1 = ops s) by (subst s1; reflexivity).
  assert (L1 : loader_at dl c s1) by (subst s1; exact L).
  clear Hs1.
  apply bind_inv in H.
  destruct H as [(r2 & s2 & E2 & H)|(e & _ & Hd)]; [|discriminate Hd].
  destruct r2 as [[tl td] out].
  apply (accumulate_walk dl _ _ _ _ _ _ _ c Hne) in E2; [|assumption].
  destruct E2 as (n2 & O2 & F2 & L2).
  destruct (step_ops s2) as (s3 & before & E3 & _ & O3 & _ & _ & _ & F3 & _).
  pose proof (framed_run _ _ _ _ _ step_steady E3) as S3.
  rewrite (bind_ok _ _ _ _ _ E3) in H.
  destruct out as [o|]; [|unfold bind, raise in H; discriminate].
  unfold bind, ret in H. injection H as _ <-.
  set (sched := if mp_on (mixed_precision_mode (cfg s2))
                   && negb (Qeq_bool (scaler_scale s3) (scale_before_step s2))
                then []
                else map OpSchedulerStep (sched_ids (scheduler (cfg s2)))) in O3.
  assert (Fs : fetched sched = []).
  { unfold sched. destruct (_ && _); [reflexivity|].
    apply scheduler_steps_inert. }
  exists (n2 ++ before ++ OpZeroGrad :: sched).
  split; [cbn; rewrite O3, O2, O1; now rewrite <- !app_assoc|].
  split.
  - rewrite !fetched_app, F2, F3. cbn. rewrite Fs. now rewrite app_nil_r.
  - destruct S3 as ((K & _) & I). destruct K as (_ & _ & _ & _ & _ & Kd).
    destruct L2 as (D2 & I2). split; cbn; congruence.
Qed.

Lemma step_loop_walk dl spe ls : forall logs s r s' c,
  dl_batches dl <> [] ->
  step_loop spe ls logs s = (Ok r, s') -> loader_at dl c s ->
  exists k, walk dl c k s s'.
Proof.
  induction ls as [|l ls IH]; intros logs s r s' c Hne H L; cbn in H.
  - injection H as _ <-. exists 0%nat. now apply walk_refl.
  - apply bind_inv in H.
    destruct H as [(r1 & s1 & E1 & H)|(e & _ & Hd)]; [|discriminate Hd].
    apply (step_body_walk dl _ _ _ _ _ c Hne) in E1; [|assumption].
    pose proof E1 as (_ & _ & _ & L1).
    destruct (IH _ _ _ _ _ Hne H L1) as (k & W).
    eexists. exact (walk_trans _ _ _ _ _ _ _ E1 W).
Qed.

Lemma epoch_body_walk dl e logs s r s' c :
  dl_batches dl <> [] ->
  epoch_body e logs s = (Ok r, s') -> loader_at dl c s ->
  exists k, walk dl c k s s'.
Proof.
  intros Hne H L. unfold epoch_body in H.
  unfold bind at 1, modify at 1 in H. unfold bind at 1, get at 1 in H.
  set (s0 := set_epoch e s) in *.
  assert (L0 : loader_at dl c s0) by exact L.
  assert (O0 : ops s0 = ops s) by reflexivity.
  assert (E1 : dispatch on_epoch_begin [] s0
               = (Ok tt, snd (dispatch on_epoch_begin [] s0))) by reflexivity.
  rewrite (bind_ok _ _ _ _ _ E1) in H.
  pose proof (dispatch_walk dl c on_epoch_begin [] s0 L0) as W1.
  destruct (steps_per_epoch s0) as [spe|]; [|unfold raise in H; discriminate].
  apply bind_inv in H.
  destruct H as [(r2 & s2 & E2 & H)|(e' & _ & Hd)]; [|discriminate Hd].
  pose proof W1 as (_ & _ & _ & L1). rewrite Nat.add_0_r in L1.
  destruct (step_loop_walk dl _ _ _ _ _ _ c Hne E2 L1) as (k & W2).
  assert (E3 : dispatch on_epoch_end r2 s2
               = (Ok tt, snd (dispatch on_epoch_end r2 s2))) by reflexivity.
  rewrite (bind_ok _ _ _ _ _ E3) in H. unfold ret in H. injection H as _ <-.
  pose proof W2 as (_ & _ & _ & L2).
  pose proof (dispatch_walk dl (c + k) on_epoch_end r2 s2 L2) as W3.
  exists (0 + (k + 0))%nat.
  destruct W1 as (n1 & P1 & F1 & Q1).
  refine (walk_trans dl c 0 (k + 0) s _ _ _ _).
  - exists n1. rewrite P1, O0. auto.
  - rewrite Nat.add_0_r. exact (walk_trans _ _ _ _ _ _ _ W2 W3).
Qed.

Lemma epoch_loop_walk dl es : forall logs s r s' c,
  dl_batches dl <> [] ->
  epoch_loop es logs s = (Ok r, s') -> loader_at dl c s ->
  exists k, walk dl c k s s'.
Proof.
  induction es as [|e es IH]; intros logs s r s' c Hne H L; cbn in H.
  - injection H as _ <-. exists 0%nat. now apply walk_refl.
  - apply bind_inv in H.
    destruct H as [(r1 & s1 & E1 & H)|(e' & _ & Hd)]; [|discriminate Hd].
    destruct (epoch_body_walk dl _ _ _ _ _ c Hne E1 L) as (k1 & W1).
    unfold bind at 1, get in H.
    destruct (stop_training s1).
    + unfold ret in H. injection H as _ <-. eauto.
    + pose proof W1 as (_ & _ & _ & L1).
      destruct (IH _ _ _ _ _ Hne H L1) as (k2 & W2).
      eexists. exact (walk_trans _ _ _ _ _ _ _ W1 W2).
Qed.

(** X24. [fit] takes the batches in the order of the loader, round and
    round, whatever the epochs are.  [_prepare_inputs] builds one iterator,
    which the epochs share; for a loader that yields at least one batch per
    pass, the batches fetched during a run of [fit] that returns are, in
    order, batch number [i mod m] of the loader for [i = 0, 1, 2, ...],
    where [m] is the number of batches of one pass.  So an epoch does not
    start at the first batch of the loader unless the steps of the epochs
    before it used up whole passes.  (Batches are named by what one pass
    yields; with a loader that shuffles, read them as positions in the
    pass.) *)
Theorem fit_fetches_cyclically dl steps n_epochs arg v kw (s s' : St) h
    (Hrun : fit dl steps n_epochs arg v kw s = (Ok h, s'))
    (Hne : dl_batches dl <> []) :
  exists new,
    ops s' = ops s ++ new /\
    fetched new
    = map (fun i => nth (i mod List.length (dl_batches dl)) (dl_batches dl) 0%nat)
          (seq 0 (List.length (fetched new))).
Proof.
  apply fit_ok_inv in Hrun. unfold _fit in Hrun.
  apply bind_inv in Hrun.
  destruct Hrun as [(u & s1 & E1 & H)|(e & _ & Hd)]; [|discriminate Hd].
  destruct u.
  destruct (prepare_inputs_inv _ _ _ _ _ _ E1) as (spe & R).
  destruct (prepare_inputs_ok dl steps n_epochs v s spe R)
    as (s1' & E1' & _ & _ & D1 & I1 & _ & O1 & _).
  rewrite E1 in E1'. injection E1' as <-.
  apply bind_inv in H.
  destruct H as [(hp & s2 & E2 & H)|(e & _ & Hd)]; [|discriminate Hd].
  destruct (prepare_callbacks_inv _ _ _ _ E2) as (v' & cs & V' & Hc & Hi).
  rewrite (prepare_callbacks_ok arg s1 v' cs V' Hc Hi) in E2.
  injection E2 as _ <-.
  match type of H with context [set_stop_training false ?st] =>
    set (s2 := set_stop_training false st) in * end.
  assert (L2 : loader_at dl 0 s2) by (subst s2; split; cbn; assumption).
  assert (O2 : ops s2 = ops s) by (subst s2; cbn; assumption).
  clearbody s2.
  assert (E3 : dispatch on_train_begin [] s2
               = (Ok tt, snd (dispatch on_train_begin [] s2))) by reflexivity.
  rewrite (bind_ok _ _ _ _ _ E3) in H.
  pose proof (dispatch_walk dl 0 on_train_begin [] s2 L2) as W3.
  set (s3 := snd (dispatch on_train_begin [] s2)) in *.
  unfold bind at 1, _log_init at 1, bind at 1, get at 1, ret at 1 in H.
  unfold bind at 1, get at 1 in H.
  apply bind_inv in H.
  destruct H as [(logs4 & s4 & E4 & H)|(e & _ & Hd)]; [|discriminate Hd].
  pose proof W3 as (_ & _ & _ & L3).
  destruct (epoch_loop_walk dl _ _ _ _ _ _ Hne E4 L3) as (k & W4).
  assert (E5 : dispatch on_train_end logs4 s4
               = (Ok tt, snd (dispatch on_train_end logs4 s4))) by reflexivity.
  rewrite (bind_ok _ _ _ _ _ E5) in H. unfold ret in H. injection H as _ <-.
  pose proof W4 as (_ & _ & _ & L4).
  pose proof (dispatch_walk dl _ on_train_end logs4 s4 L4) as W5.
  pose proof (walk_trans _ _ _ _ _ _ _ W3 (walk_trans _ _ _ _ _ _ _ W4 W5))
    as (new & O & F & _).
  exists new. split; [transitivity (ops s2 ++ new); [exact O | now rewrite O2]|].
  rewrite F. unfold cyclic at 2. now rewrite length_map, length_seq.
Qed.

Lemma fit_fetches_cyclically_witness :
  exists new,
    ops (snd long_run)
    = ops (initialize (with_accumulation 2 plain_config)) ++ new /\
    fetched new
    = map (fun i => nth (i mod List.length (dl_batches three_batches))
                        (dl_batches three_batches) 0%nat)
          (seq 0 (List.length (fetched new))).
Proof.
  destruct long_run as [r s'] eqn:E.
  assert (Hr : fst long_run = Ok history) by (vm_compute; reflexivity).
  rewrite E in Hr. cbn [fst snd] in *. subst r.
  apply (fit_fetches_cyclically three_batches (Some 2) 2 ArgNone 0 no_kwargs
           (initialize (with_accumulation 2 plain_config)) s' history E).
  discriminate.
Defined.

(** Two epochs of two steps, two micro-batches each, over three batches:
    the second epoch starts in the middle of the second pass. *)
Example long_run_batches :
  fetched (ops (snd long_run)) = [10; 11; 12; 10; 11; 12; 10; 11]%nat.
Proof. reflexivity. Qed.

(** ** Where the epochs of a resumed run start *)

Lemma steps_events_prefix spe e ls c evs :
  steps_events spe e ls c evs -> exists k, batch_begins_of e evs = firstn k ls.
Proof.
  induction 1 as [|l ls c evs1 evs2 H1 H2 (k & IH)|l ls evs1 H1].
  - exists 0%nat. reflexivity.
  - exists (S k).
    rewrite batch_begins_of_app, (step_events_begins _ _ _ _ _ e H1), Z.eqb_refl, IH.
    reflexivity.
  - exists 1%nat. rewrite (step_events_begins _ _ _ _ _ e H1), Z.eqb_refl.
    reflexivity.
Qed.

(** The batches of an epoch begin at consecutive local steps from the start
    of the epoch, also when the epoch fails on the way. *)
Lemma epoch_events_prefix spe re rs e c0 cpl evs c1 e' :
  epoch_events spe re rs e c0 cpl evs c1 ->
  exists k, batch_begins_of e' evs = firstn k (range (epoch_start re rs e') spe).
Proof.
  intros H. destruct (Z.eq_dec e' e) as [->|Hne].
  - destruct H as (evsS & tl & c & -> & Hs & _ & _ & _ & Htl).
    destruct (steps_events_prefix _ _ _ _ _ Hs) as (k & Hk).
    exists k. change (?a :: ?l ++ ?t) with ([a] ++ l ++ t).
    rewrite !batch_begins_of_app, Hk.
    assert (Hnone : batch_begins_of e tl = []).
    { destruct cpl; [destruct Htl as (_ & logs & ->) | destruct Htl as (_ & ->)];
        reflexivity. }
    rewrite Hnone. cbn. apply app_nil_r.
  - exists 0%nat. cbn [firstn]. apply batch_begins_of_other.
    pose proof (epoch_events_all _ _ _ _ _ _ _ _ H) as F.
    eapply Forall_impl; [|exact F]. cbn. intros o (Ho & _). congruence.
Qed.

Lemma epochs_events_prefix spe re rs cbs tr es c0 k evs c1 :
  epochs_events spe re rs cbs tr es c0 k evs c1 ->
  StronglySorted Z.lt es ->
  forall e, exists n,
    batch_begins_of e evs = firstn n (range (epoch_start re rs e) spe).
Proof.
  induction 1 as [tr c0|tr e0 es c0 evs c1 H|tr e0 es c0 evs c1 H Hb
                 |tr e0 es c0 evs1 c1 k evs2 c2 H Hb H2 IH];
    intros Hsort e.
  - exists 0%nat. reflexivity.
  - eapply epoch_events_prefix; eassumption.
  - eapply epoch_events_prefix; eassumption.
  - inversion Hsort as [|? ? Hsort' Hlts]; subst.
    pose proof (epoch_events_all _ _ _ _ _ _ _ _ H) as F1.
    pose proof (epochs_events_all _ _ _ _ _ _ _ _ _ _ H2) as F2.
    rewrite batch_begins_of_app.
    destruct (Z.eq_dec e e0) as [->|Hne].
    + destruct (epoch_events_prefix _ _ _ _ _ _ _ _ e0 H) as (n & Hn).
      exists n. rewrite Hn.
      rewrite batch_begins_of_other; [apply app_nil_r|].
      eapply Forall_impl; [|exact F2]. cbn. intros o (Ho & _) Heq.
      rewrite Heq in Ho. rewrite Forall_forall in Hlts.
      apply Hlts in Ho. lia.
    + destruct (IH Hsort' e) as (n & Hn). exists n. rewrite Hn.
      rewrite batch_begins_of_other; [reflexivity|].
      eapply Forall_impl; [|exact F1]. cbn. intros o (Ho & _). congruence.
Qed.

Lemma fit_events_prefix spe re rs n_epochs cbs tr0 ok evs :
  fit_events spe re rs n_epochs cbs tr0 ok evs ->
  forall e, exists n,
    batch_begins_of e evs = firstn n (range (epoch_start re rs e) spe).
Proof.
  intros (c0 & c1 & k & loop & tl & -> & Hloop & Htl) e.
  destruct (epochs_events_prefix _ _ _ _ _ _ _ _ _ _ Hloop (range_sorted _ _) e)
    as (n & Hn).
  exists n. change (?a :: ?l ++ ?t) with ([a] ++ l ++ t).
  rewrite !batch_begins_of_app, Hn.
  assert (Hnone : batch_begins_of e tl = []).
  { destruct ok; [destruct Htl as (_ & logs & ->) | destruct Htl as (_ & ->)];
      reflexivity. }
  rewrite Hnone. cbn. apply app_nil_r.
Qed.

(** Unless the loop failed, every epoch it began reached its end. *)
Lemma epochs_events_ended spe re rs cbs tr es c0 k evs c1 :
  epochs_events spe re rs cbs tr es c0 k evs c1 -> k <> Failed ->
  forall o, In o evs ->
    exists oe, In oe evs /\ hook oe = on_epoch_end /\ o_epoch oe = o_epoch o.
Proof.
  assert (Hone : forall e c0 evs c1 o,
             epoch_events spe re rs e c0 true evs c1 -> In o evs ->
             exists oe, In oe evs /\ hook oe = on_epoch_end /\
                        o_epoch oe = o_epoch o).
  { intros e c0' evs' c1' o H Hin.
    pose proof (epoch_events_all _ _ _ _ _ _ _ _ H) as F.
    rewrite Forall_forall in F. destruct (F o Hin) as (He & _).
    destruct (epoch_events_complete _ _ _ _ _ _ _ H) as (pre & oe & E & Hoe & Hee).
    exists oe. split; [rewrite E; apply in_or_app; right; now left|].
    split; congruence. }
  induction 1 as [tr c0|tr e0 es c0 evs c1 H|tr e0 es c0 evs c1 H Hb
                 |tr e0 es c0 evs1 c1 k evs2 c2 H Hb H2 IH];
    intros Hk o Hin.
  - destruct Hin.
  - now elim Hk.
  - eapply Hone; eassumption.
  - apply in_app_or in Hin. destruct Hin as [Hin|Hin].
    + destruct (Hone _ _ _ _ _ H Hin) as (oe & Hi & Hoe & Hee).
      exists oe. split; [apply in_or_app; now left | auto].
    + destruct (IH Hk o Hin) as (oe & Hi & Hoe & Hee).
      exists oe. split; [apply in_or_app; now right | auto].
Qed.

Lemma fit_events_ended spe re rs n_epochs cbs tr0 evs :
  fit_events spe re rs n_epochs cbs tr0 true evs ->
  forall o, In o evs -> hook o = on_epoch_begin ->
    exists oe, In oe evs /\ hook oe = on_epoch_end /\ o_epoch oe = o_epoch o.
Proof.
  intros (c0 & c1 & k & loop & tl & -> & Hloop & (Hk & logs & ->)) o Hin Ho.
  destruct Hin as [<-|Hin]; [discriminate|].
  apply in_app_or in Hin. destruct Hin as [Hin|[<-|[]]]; [|discriminate].
  destruct (epochs_events_ended _ _ _ _ _ _ _ _ _ _ Hloop Hk o Hin)
    as (oe & Hi & Hoe & Hee).
  exists oe. split; [right; apply in_or_app; now left | auto].
Qed.

Lemma fit_events_first_epoch spe re rs n_epochs cbs tr0 ok evs :
  fit_events spe re rs n_epochs cbs tr0 ok evs -> re < n_epochs ->
  exists ob0 ob rest,
    evs = ob0 :: ob :: rest /\ hook ob0 = on_train_begin /\
    hook ob = on_epoch_begin /\ o_epoch ob = re.
Proof.
  intros (c0 & c1 & k & loop & tl & -> & Hloop & _) Hre.
  rewrite (range_cons re n_epochs Hre) in Hloop.
  destruct (epochs_events_head _ _ _ _ _ _ _ _ _ _ _ Hloop)
    as (ob & rest & -> & Hob & Hoe).
  exists (obs_at on_train_begin c0 []), ob, (rest ++ tl). auto.
Qed.

(** While no callback writes [stop_training], the epoch loop does not break:
    every epoch of the list reaches its [on_epoch_end]. *)
Lemma epoch_loop_unstopped spe es : forall logs s r s',
  steps_per_epoch s = Some spe ->
  epoch_loop es logs s = (Ok r, s') ->
  quiet (dispatch_order (callbacks s)) -> stop_training s = false ->
  exists evs,
    trace s' = trace s ++ evs /\
    forall e, In e es ->
      exists oe, In oe evs /\ hook oe = on_epoch_end /\ o_epoch oe = e.
Proof.
  induction es as [|e es IH]; intros logs s r s' Hspe H Hq Hs; cbn in H.
  - injection H as _ <-. exists []. rewrite app_nil_r.
    split; [reflexivity | intros e []].
  - apply bind_inv in H.
    destruct H as [(l1 & s1 & E1 & H)|(x & _ & Hd)]; [|discriminate Hd].
    pose proof (epoch_body_calm e logs s) as (K1 & S1).
    rewrite E1 in K1, S1. cbn [snd] in K1, S1.
    destruct (epoch_body_events _ _ _ _ _ _ Hspe E1) as (_ & evs1 & T1 & Ev & _).
    cbn [is_ok] in Ev.
    destruct (epoch_events_complete _ _ _ _ _ _ _ Ev) as (pre & oe & E & Hoe & Hee).
    destruct K1 as (Kc & Ks & Krs & Kre & Kcb & _).
    assert (St1 : stop_training s1 = false) by (rewrite (S1 Hq); exact Hs).
    unfold bind at 1, get in H. rewrite St1 in H.
    assert (Hspe1 : steps_per_epoch s1 = Some spe) by congruence.
    assert (Hq1 : quiet (dispatch_order (callbacks s1))) by (now rewrite Kcb).
    destruct (IH _ _ _ _ Hspe1 H Hq1 St1) as (evs2 & T2 & Hall).
    exists (evs1 ++ evs2). split; [rewrite T2, T1; now rewrite app_assoc|].
    intros e' [<-|Hin].
    + exists oe. split; [|auto].
      apply in_or_app. left. rewrite E. apply in_or_app. right. now left.
    + destruct (Hall e' Hin) as (oe' & Hi & H1 & H2).
      exists oe'. split; [apply in_or_app; now right | auto].
Qed.

(** A run of [_fit] that returns under callbacks none of which writes
    [stop_training] ends every epoch from [resume_epoch] to the last. *)
Lemma fit_unstopped_ends dl steps n_epochs arg v s h s' :
  _fit dl steps n_epochs arg v s = (Ok h, s') ->
  quiet (dispatch_order (callbacks s')) ->
  exists evs,
    trace s' = trace s ++ evs /\
    forall e, resume_epoch s <= e < n_epochs ->
      exists oe, In oe evs /\ hook oe = on_epoch_end /\ o_epoch oe = e.
Proof.
  intros H Hq. unfold _fit in H.
  apply bind_inv in H.
  destruct H as [(u & s1 & E1 & H)|(x & _ & Hd)]; [|discriminate Hd].
  destruct u.
  destruct (prepare_inputs_inv _ _ _ _ _ _ E1) as (spe & R).
  destruct (prepare_inputs_ok dl steps n_epochs v s spe R)
    as (s1' & E1' & C1 & S1 & _ & _ & (v1 & V1) & O1 & T1 & RS1 & RE1 & _).
  rewrite E1 in E1'. injection E1' as <-.
  apply bind_inv in H.
  destruct H as [(hp & s2 & E2 & H)|(x & _ & Hd)]; [|discriminate Hd].
  destruct (prepare_callbacks_inv _ _ _ _ E2) as (v' & cs & V' & Hc & Hi).
  rewrite (prepare_callbacks_ok arg s1 v' cs V' Hc Hi) in E2.
  injection E2 as _ <-.
  match type of H with context [set_stop_training false ?st] =>
    set (s2 := set_stop_training false st) in * end.
  assert (F2 : trace s2 = trace s /\ steps_per_epoch s2 = Some spe /\
               stop_training s2 = false /\ resume_epoch s2 = resume_epoch s)
    by (subst s2; cbn; auto 10).
  destruct F2 as (T2 & S2 & St2 & RE2). clearbody s2.
  destruct (dispatch_run on_train_begin [] s2) as (s3 & E3 & K3 & _ & T3 & _).
  pose proof (dispatch_calm on_train_begin [] s2) as (_ & Sb).
  rewrite E3 in Sb. cbn [snd] in Sb.
  rewrite (bind_ok _ _ _ _ _ E3) in H.
  destruct K3 as (Kc & Ks & Krs & Kre & Kcb & _).
  unfold bind at 1, _log_init at 1, bind at 1, get at 1, ret at 1 in H.
  unfold bind at 1, get at 1 in H.
  apply bind_inv in H.
  destruct H as [(logs4 & s4 & E4 & H)|(x & _ & Hd)]; [|discriminate Hd].
  pose proof (framed_run _ _ _ _ _ (epoch_loop_calm _ _) E4) as (K4 & _).
  destruct K4 as (_ & _ & _ & _ & K4cb & _).
  destruct (dispatch_run on_train_end logs4 s4)
    as (s5 & E5 & (_ & _ & _ & _ & K5cb & _) & _ & T5 & _).
  rewrite (bind_ok _ _ _ _ _ E5) in H. unfold ret in H. injection H as _ <-.
  assert (Hq3 : quiet (dispatch_order (callbacks s3)))
    by (rewrite K5cb, K4cb in Hq; exact Hq).
  assert (Hq2 : quiet (dispatch_order (callbacks s2)))
    by (rewrite Kcb in Hq3; exact Hq3).
  assert (St3 : stop_training s3 = false) by (rewrite (Sb Hq2); exact St2).
  assert (S3 : steps_per_epoch s3 = Some spe) by congruence.
  destruct (epoch_loop_unstopped spe _ _ _ _ _ S3 E4 Hq3 St3)
    as (evs & T4 & Hall).
  eexists. split.
  - rewrite T5, T4, T3, T2. rewrite <- !app_assoc. reflexivity.
  - intros e He.
    destruct (Hall e) as (oe & Hin & Hoe & Hee).
    { apply range_In. rewrite Kre, RE2. exact He. }
    exists oe. split; [|auto].
    apply in_or_app. right. apply in_or_app. left. exact Hin.
Qed.

(** C2. [save_steps_params] writes the record
    [{resume_step = (local_step+1) mod steps_per_epoch,
      resume_epoch = epoch + (local_step+1) div steps_per_epoch}];
    [load_steps_params] puts the two numbers into the trainer; and a call of
    [fit] after that iterates as follows, with [start] standing for
    [resume_step] in the epoch [resume_epoch] and for 0 in every other
    epoch.  Every epoch begun lies in [range(resume_epoch, epochs)], and
    the first one begun is [resume_epoch], right after [on_train_begin].
    When the run gets past its preparation and an epoch is left to run,
    [on_epoch_begin] of [resume_epoch] is dispatched; when that epoch has a
    step to run, its first batch begins at the local step [resume_step].
    In every epoch, also one that fails on the way, the batches begin at
    the local steps [start, start + 1, ...] without a gap; in an epoch
    that reaches its end they are all of [range(start, steps_per_epoch)].
    In a run that returns every epoch begun reaches its end, and when no
    callback writes [stop_training] every epoch of
    [range(resume_epoch, epochs)] is run in this way. *)
Theorem resume_counters (s : St) (path : string) (spe : Z)
    (Hspe : steps_per_epoch s = Some spe) (Hnz : spe <> 0)
    (Hio : io_fail (cfg s) (OpTorchSave path) = None) :
  let p := mkStepParams ((local_step s + 1) mod spe)
                        (epoch s + (local_step s + 1) / spe) in
  exists s1,
    save_steps_params path s = (Ok tt, s1) /\
    dict_get path (disk s1) = Some p /\
    forall t, dict_get path (disk t) = Some p ->
      exists t1,
        load_steps_params path t = (Ok p, t1) /\
        resume_step t1 = (local_step s + 1) mod spe /\
        resume_epoch t1 = epoch s + (local_step s + 1) / spe /\
        forall dl steps n_epochs cbs v kw r t2,
          fit dl steps n_epochs cbs v kw t1 = (r, t2) ->
          exists evs,
            trace t2 = trace t1 ++ evs /\
            forall spe', steps_per_epoch t2 = Some spe' ->
              (forall o, In o evs -> hook o = on_epoch_begin ->
                 resume_epoch t1 <= o_epoch o < n_epochs /\
                 exists ob0 ob rest,
                   evs = ob0 :: ob :: rest /\ hook ob0 = on_train_begin /\
                   hook ob = on_epoch_begin /\ o_epoch ob = resume_epoch t1) /\
              (forall oe e,
                 In oe evs -> hook oe = on_epoch_end -> o_epoch oe = e ->
                 batch_begins_of e evs
                 = range (epoch_start (resume_epoch t1) (resume_step t1) e) spe') /\
              (evs <> [] -> resume_epoch t1 < n_epochs ->
                 exists ob0 ob rest,
                   evs = ob0 :: ob :: rest /\ hook ob0 = on_train_begin /\
                   hook ob = on_epoch_begin /\ o_epoch ob = resume_epoch t1) /\
              (evs <> [] -> resume_epoch t1 < n_epochs -> resume_step t1 < spe' ->
                 exists ob0 ob1 ob2 rest,
                   evs = ob0 :: ob1 :: ob2 :: rest /\
                   hook ob2 = on_batch_begin /\
                   o_epoch ob2 = resume_epoch t1 /\
                   o_local_step ob2 = resume_step t1) /\
              (forall e, exists k,
                 batch_begins_of e evs
                 = firstn k (range (epoch_start (resume_epoch t1)
                                                (resume_step t1) e) spe')) /\
              (is_ok r = true ->
               forall o, In o evs -> hook o = on_epoch_begin ->
                 batch_begins_of (o_epoch o) evs
                 = range (epoch_start (resume_epoch t1) (resume_step t1)
                                      (o_epoch o)) spe') /\
              (is_ok r = true -> quiet (dispatch_order (callbacks t2)) ->
               forall e, resume_epoch t1 <= e < n_epochs ->
                 batch_begins_of e evs
                 = range (epoch_start (resume_epoch t1) (resume_step t1) e) spe').
Proof.
  intros p.
  eexists. split; [|split].
  - unfold save_steps_params, bind at 1, get. rewrite Hspe.
    destruct (Z.eqb spe 0) eqn:E; [apply Z.eqb_eq in E; contradiction|].
    unfold bind, io, modify. rewrite Hio. reflexivity.
  - cbn. apply dict_get_set_same.
  - intros t Ht. eexists. split; [|split; [|split]].
    + unfold load_steps_params, bind at 1, get. rewrite Ht.
      unfold bind, modify, ret. reflexivity.
    + reflexivity.
    + reflexivity.
    + intros dl steps n_epochs cbs v kw r t2 Hrun.
      destruct (fit_dispatches _ _ _ _ _ _ _ _ _ Hrun)
        as [(T & Hr)|(spe0 & evs & Hspe0 & T & F)].
      * exists []. rewrite app_nil_r. split; [assumption|].
        intros spe' _.
        split; [intros o []|]. split; [intros oe e []|].
        split; [intros N; now elim N|]. split; [intros N; now elim N|].
        split; [intros e; now exists 0%nat|].
        split; [intros Hok; congruence | intros Hok; congruence].
      * exists evs. split; [assumption|].
        intros spe' Hspe'. assert (spe' = spe0) by congruence. subst spe'.
        destruct (fit_events_begins _ _ _ _ _ _ _ _ F) as (Hbeg & Hend).
        split; [exact Hbeg|]. split; [exact Hend|].
        split; [intros _ Hre; eapply fit_events_first_epoch; eassumption|].
        split.
        { intros _ Hre Hrs.
          destruct (fit_events_first_step _ _ _ _ _ _ _ _ F Hre Hrs)
            as (ob0 & ob1 & ob2 & rest & E & _ & _ & _ & Hb & (_ & Hl & He)).
          exists ob0, ob1, ob2, rest. auto. }
        split; [eapply fit_events_prefix; eassumption|].
        split.
        { intros Hok o Hin Ho. rewrite Hok in F.
          destruct (fit_events_ended _ _ _ _ _ _ _ F o Hin Ho)
            as (oe & Hi & Hoe & Hee).
          exact (Hend oe (o_epoch o) Hi Hoe Hee). }
        intros Hok Hq e He.
        destruct r as [h|x]; [|discriminate Hok].
        apply fit_ok_inv in Hrun.
        destruct (fit_unstopped_ends _ _ _ _ _ _ _ _ Hrun Hq)
          as (evs' & T' & Hall).
        rewrite T in T'. apply app_inv_head in T'. subst evs'.
        destruct (Hall e He) as (oe & Hi & Hoe & Hee).
        exact (Hend oe e Hi Hoe Hee).
Qed.

Lemma resume_counters_witness :
  steps_per_epoch interrupted = Some 2 /\
  let p := mkStepParams ((local_step interrupted + 1) mod 2)
                        (epoch interrupted + (local_step interrupted + 1) / 2) in
  exists s1,
    save_steps_params "ckpt/steps_params.pt" interrupted = (Ok tt, s1) /\
    dict_get "ckpt/steps_params.pt" (disk s1) = Some p /\
    forall t, dict_get "ckpt/steps_params.pt" (disk t) = Some p ->
      exists t1,
        load_steps_params "ckpt/steps_params.pt" t = (Ok p, t1) /\
        resume_step t1 = (local_step interrupted + 1) mod 2 /\
        resume_epoch t1 = epoch interrupted + (local_step interrupted + 1) / 2 /\
        forall dl steps n_epochs cbs v kw r t2,
          fit dl steps n_epochs cbs v kw t1 = (r, t2) ->
          exists evs,
            trace t2 = trace t1 ++ evs /\
            forall spe', steps_per_epoch t2 = Some spe' ->
              (forall o, In o evs -> hook o = on_epoch_begin ->
                 resume_epoch t1 <= o_epoch o < n_epochs /\
                 exists ob0 ob rest,
                   evs = ob0 :: ob :: rest /\ hook ob0 = on_train_begin /\
                   hook ob = on_epoch_begin /\ o_epoch ob = resume_epoch t1) /\
              (forall oe e,
                 In oe evs -> hook oe = on_epoch_end -> o_epoch oe = e ->
                 batch_begins_of e evs
                 = range (epoch_start (resume_epoch t1) (resume_step t1) e) spe') /\
              (evs <> [] -> resume_epoch t1 < n_epochs ->
                 exists ob0 ob rest,
                   evs = ob0 :: ob :: rest /\ hook ob0 = on_train_begin /\
                   hook ob = on_epoch_begin /\ o_epoch ob = resume_epoch t1) /\
              (evs <> [] -> resume_epoch t1 < n_epochs -> resume_step t1 < spe' ->
                 exists ob0 ob1 ob2 rest,
                   evs = ob0 :: ob1 :: ob2 :: rest /\
                   hook ob2 = on_batch_begin /\
                   o_epoch ob2 = resume_epoch t1 /\
                   o_local_step ob2 = resume_step t1) /\
              (forall e, exists k,
                 batch_begins_of e evs
                 = firstn k (range (epoch_start (resume_epoch t1)
                                                (resume_step t1) e) spe')) /\
              (is_ok r = true ->
               forall o, In o evs -> hook o = on_epoch_begin ->
                 batch_begins_of (o_epoch o) evs
                 = range (epoch_start (resume_epoch t1) (resume_step t1)
                                      (o_epoch o)) spe') /\
              (is_ok r = true -> quiet (dispatch_order (callbacks t2)) ->
               forall e, resume_epoch t1 <= e < n_epochs ->
                 batch_begins_of e evs
                 = range (epoch_start (resume_epoch t1) (resume_step t1) e) spe').
Proof.
  split; [reflexivity|].
  apply (resume_counters interrupted "ckpt/steps_params.pt" 2);
    [reflexivity | discriminate | reflexivity].
Defined.
